(** * Fireflies transcript export: chunking, embedding, checkpointing

    A shallow embedding of the two exporters of the repository,
    [scripts/fireflies/export_to_pinecone.py] (REST, one vector per
    transcript, JSON checkpoint) and
    [scripts/fireflies/export_to_pinecone_graphql.py] (GraphQL, one vector per
    speaker turn, line-oriented checkpoint), together with the properties
    their specification states about them. *)

From Stdlib Require Import ZArith String Ascii List Decimal DecimalString
  DecimalNat DecimalZ.
From stdpp Require Import base decidable option list gmap strings.

Local Open Scope string_scope.
Local Open Scope list_scope.
Local Open Scope Z_scope.

(** ** Python values and built-ins used by both scripts *)

Module Py.

(** The scalar JSON values the scripts read out of API responses. *)
Inductive pyval : Type :=
  | PyNone
  | PyInt (z : Z)
  | PyStr (s : string).

#[global] Instance pyval_eq_dec : EqDecision pyval.
Proof. solve_decision. Defined.

(** [str(int)]: decimal digits, a leading minus sign for negatives. *)
Definition str_of_Z (z : Z) : string := NilZero.string_of_int (Z.to_int z).

(** What an f-string placeholder [{v}] renders. *)
Definition py_str (v : pyval) : string :=
  match v with
  | PyNone => "None"
  | PyInt z => str_of_Z z
  | PyStr s => s
  end.

(** [sep.join(xs)] *)
Definition join (sep : string) (xs : list string) : string := String.concat sep xs.

(** [c in s] for a single character [c]. *)
Fixpoint contains (c : ascii) (s : string) : bool :=
  match s with
  | EmptyString => false
  | String c' rest => if Ascii.eqb c' c then true else contains c rest
  end.

(** Truthiness of a [str]: [not text] holds exactly for the empty string. *)
Definition str_truthy (s : string) : bool := negb (String.eqb s "").

(** [xs.index(x)]: position of the first occurrence, [None] for ValueError. *)
Fixpoint index (x : string) (xs : list string) : option nat :=
  match xs with
  | [] => None
  | y :: ys => if decide (y = x) then Some 0%nat else S <$> index x ys
  end.

(** [range(start, stop, step)]: [None] stands for the ValueError Python
    raises on a zero step. *)
Definition range (start stop step : Z) : option (list Z) :=
  if decide (step = 0) then None
  else if decide (0 < step) then
    Some ((fun k => start + Z.of_nat k * step)
            <$> seq 0 (Z.to_nat ((stop - start + step - 1) / step)))
  else
    Some ((fun k => start + Z.of_nat k * step)
            <$> seq 0 (Z.to_nat ((start - stop - step - 1) / (- step)))).

(** [xs[i:j]] for a non-negative [i]; a negative [j] counts from the end. *)
Definition slice {A} (xs : list A) (i j : Z) : list A :=
  let n := Z.of_nat (length xs) in
  let j' := if decide (j < 0) then Z.max 0 (n + j) else j in
  take (Z.to_nat (j' - i)) (drop (Z.to_nat i) xs).

End Py.

Import Py.

(** ** The GraphQL exporter: chunker *)

Module Graphql.

(** One element of [transcript["sentences"]].  A field is [None] when its key
    is absent from the dict.  The text is a string, as the GraphQL schema
    declares it; the speaker id is whatever scalar the response carries, since
    the chunker only formats it.  The chunker never reads the time offsets. *)
Record sentence : Type := Sentence {
  s_text : option string;
  s_speaker_id : option pyval;
}.

Record transcript : Type := Transcript {
  t_id : option pyval;
  t_title : option pyval;
  t_date : option pyval;
  t_duration : option pyval;
  t_participants : option (list string);
  t_sentences : option (list sentence);
}.

(** An element of [speaker_blocks].  The speaker is whatever
    [current_speaker] holds when the block is closed, and that variable starts
    out as Python's [None]. *)
Record speaker_block : Type := SpeakerBlock {
  speaker : option string;
  sentences : list sentence;
}.

Record chunk_metadata : Type := ChunkMetadata {
  m_transcript_id : pyval;
  m_title : pyval;
  m_speaker : option string;
  m_prev_speaker : option string;
  m_next_speaker : option string;
  m_participants : list string;
  m_recording_date : pyval;
  m_duration : pyval;
  m_chunk_index : nat;
  m_total_chunks : nat;
  m_source : string;
}.

Record chunk : Type := Chunk {
  text : string;
  metadata : chunk_metadata;
}.

(** [f"Speaker {speaker_id}"] with [speaker_id = sentence.get("speaker_id", 0)] *)
Definition speaker_name (s : sentence) : string :=
  "Speaker " +:+ py_str (default (PyInt 0) (s_speaker_id s)).

(** The three loop variables of the grouping loop. *)
Record group_state : Type := GroupState {
  speaker_blocks : list speaker_block;
  current_speaker : option string;
  current_block : list sentence;
}.

Definition group_init : group_state := GroupState [] None [].

(** One iteration of [for sentence in sentences]. *)
Definition group_step (st : group_state) (s : sentence) : group_state :=
  let name := speaker_name s in
  let st' :=
    if bool_decide (current_speaker st ≠ Some name)
       && bool_decide (current_block st ≠ [])
    then GroupState
           (speaker_blocks st ++ [SpeakerBlock (current_speaker st) (current_block st)])
           (current_speaker st) []
    else st in
  GroupState (speaker_blocks st') (Some name) (current_block st' ++ [s]).

(** "Add the last block" *)
Definition group_finish (st : group_state) : list speaker_block :=
  if bool_decide (current_block st ≠ [])
  then speaker_blocks st ++ [SpeakerBlock (current_speaker st) (current_block st)]
  else speaker_blocks st.

Definition group_sentences (ss : list sentence) : list speaker_block :=
  group_finish (fold_left group_step ss group_init).

(** [speaker_blocks[j]["speaker"]]; the chunk loop only indexes in range. *)
Definition speaker_at (blocks : list speaker_block) (j : nat) : option string :=
  b ← blocks !! j; speaker b.

Definition block_text (b : speaker_block) : string :=
  join " " ((fun s => default "" (s_text s)) <$> sentences b).

(** Body of [for i, block in enumerate(speaker_blocks)]. *)
Definition make_chunk (t : transcript) (blocks : list speaker_block)
    (i : nat) (block : speaker_block) : chunk :=
  let prev_speaker :=
    if decide (0 < i)%nat then speaker_at blocks (i - 1) else Some "None" in
  let next_speaker :=
    if decide (i < length blocks - 1)%nat then speaker_at blocks (i + 1)
    else Some "None" in
  Chunk (block_text block)
    (ChunkMetadata
       (default (PyStr "") (t_id t))
       (default (PyStr "") (t_title t))
       (speaker block)
       prev_speaker
       next_speaker
       (default [] (t_participants t))
       (default (PyStr "") (t_date t))
       (default (PyInt 0) (t_duration t))
       i
       (length blocks)
       "fireflies").

Definition process_transcript (t : transcript) : list chunk :=
  let blocks := group_sentences (default [] (t_sentences t)) in
  imap (make_chunk t blocks) blocks.

End Graphql.

(** ** Effects: the embedding service, the files, the log *)

Module World.

(** An embedding vector.  The exporters never compute with the components;
    they only store the vector and, in the REST script, test it for
    truthiness, so the components are kept as opaque integers. *)
Definition embedding : Type := list Z.

Inductive log_level : Type := Info | Warning | Error.

(** What a run does to the outside world, in program order.  [R] is the type
    of one exported record. *)
Inductive event (R : Type) : Type :=
  | EvEmbedRequest (input : string) (response : option embedding)
      (* embeddings.create(input=...); [None]: the call raised *)
  | EvSleep (seconds : Z)               (* time.sleep inside create_embedding *)
  | EvPause                             (* time.sleep(args.rate_limit_pause) *)
  | EvLog (level : log_level) (message : string)
  | EvProcessing (transcript_id : string)
      (* logger.info(f"Processing transcript {transcript_id}") *)
  | EvWrite (record : R)                (* one line appended to args.output *)
  | EvUpsert (record : R) (ok : bool)   (* pinecone_index.upsert *)
  | EvSaveCheckpoint (ids : gset string)
      (* fireflies_export_checkpoint.json rewritten with this id set *)
  | EvMarkProcessed (transcript_id : string)
      (* one line appended to processed_transcripts.txt *)
  | EvDump (records : list R).          (* args.output rewritten as one JSON document *)

Arguments EvEmbedRequest {R} input response.
Arguments EvSleep {R} seconds.
Arguments EvPause {R}.
Arguments EvLog {R} level message.
Arguments EvProcessing {R} transcript_id.
Arguments EvWrite {R} record.
Arguments EvUpsert {R} record ok.
Arguments EvSaveCheckpoint {R} ids.
Arguments EvMarkProcessed {R} transcript_id.
Arguments EvDump {R} records.

(** The embedding service as the scripts see it: the answer to the [n]-th
    request of the run, given its input; [None] when the request raises. *)
Definition embed_service : Type := nat -> string -> option embedding.

(** Computations that talk to the world: given the number of embedding
    requests made before, a result, the number of requests made after, and
    the events caused, oldest first. *)
Definition M (R A : Type) : Type := nat -> A * nat * list (event R).

Definition ret {R A} (a : A) : M R A := fun n => (a, n, []).

Definition bind {R A B} (m : M R A) (k : A -> M R B) : M R B :=
  fun n =>
    let '(a, n1, evs1) := m n in
    let '(b, n2, evs2) := k a n1 in
    (b, n2, evs1 ++ evs2).

Definition emit {R} (e : event R) : M R unit := fun n => (tt, n, [e]).

Definition log {R} (level : log_level) (message : string) : M R unit :=
  emit (EvLog level message).

(** [client.embeddings.create(input=text, ...)] wrapped in its [try]. *)
Definition embeddings_create {R} (svc : embed_service) (input : string)
    : M R (option embedding) :=
  fun n => let response := svc n input in
           (response, S n, [EvEmbedRequest input response]).

(** [for x in xs: body(x)] *)
Fixpoint for_each {R A} (xs : list A) (body : A -> M R unit) : M R unit :=
  match xs with
  | [] => ret tt
  | x :: rest => bind (body x) (fun _ => for_each rest body)
  end.

Definition result {R A} (m : M R A) (n : nat) : A := (m n).1.1.
Definition requests_after {R A} (m : M R A) (n : nat) : nat := (m n).1.2.
Definition events {R A} (m : M R A) (n : nat) : list (event R) := (m n).2.

End World.

Import World.

Declare Scope world_scope.
Delimit Scope world_scope with world.
Notation "x <- m ;; k" := (bind m (fun x => k))
  (at level 100, m at next level, right associativity) : world_scope.
Notation "m ;; k" := (bind m (fun _ => k))
  (at level 100, right associativity) : world_scope.
Local Open Scope world_scope.

(** ** The GraphQL exporter: embedding and main loop *)

Module GraphqlMain.
Import Graphql.

(** The [output] dict written per chunk. *)
Record output : Type := Output {
  o_id : string;
  o_values : embedding;
  o_metadata : chunk_metadata;
  o_text : string;
}.

(** [f"fireflies_{transcript_id}_{chunk['metadata']['chunk_index']}"] *)
Definition vector_id (transcript_id : string) (chunk_index : nat) : string :=
  "fireflies_" +:+ transcript_id +:+ "_" +:+ str_of_Z (Z.of_nat chunk_index).

(** [create_embedding]: one request, and on failure a two second pause and
    one more request; [None] stands for the exception re-raised after the
    second failure. *)
Definition create_embedding (svc : embed_service) (text : string)
    : M output (option embedding) :=
  r <- embeddings_create svc text ;;
  match r with
  | Some e => ret (Some e)
  | None =>
      log Error "Error creating embedding" ;;
      emit (EvSleep 2) ;;
      r' <- embeddings_create svc text ;;
      match r' with
      | Some e => ret (Some e)
      | None => log Error "Error creating embedding after retry" ;; ret None
      end
  end.

(** Command line options read by the main loop. *)
Record args : Type := Args {
  resume_from : option string;
  namespace : option string;
  force : bool;
}.

(** The collaborators of one run. *)
Record env : Type := Env {
  embed : embed_service;
  fetch_transcript_details : string -> option transcript;
      (* [None]: the helper returned Python's [None] *)
  upsert_ok : output -> bool;
      (* [false]: pinecone_index.upsert raised *)
}.

(** Truthiness of a fetched transcript: [None] and the empty dict are falsy. *)
Definition transcript_truthy (r : option transcript) : bool :=
  match r with
  | None => false
  | Some (Transcript None None None None None None) => false
  | Some _ => true
  end.

(** Truthiness of [args.resume_from] and [args.namespace]. *)
Definition opt_truthy (o : option string) : bool :=
  match o with Some s => str_truthy s | None => false end.

(** "Filter out already processed transcripts" *)
Definition unprocessed (a : args) (processed_ids transcript_ids : list string)
    : list string :=
  filter (fun tid => tid ∉ processed_ids \/ force a = true) transcript_ids.

(** "Handle resume-from" *)
Definition handle_resume (a : args) (unprocessed_ids : list string)
    : M output (list string) :=
  match resume_from a with
  | Some r =>
      if str_truthy r then
        match index r unprocessed_ids with
        | Some resume_index => ret (drop resume_index unprocessed_ids)
        | None => log Warning "Resume point not found in transcript list" ;;
                  ret unprocessed_ids
        end
      else ret unprocessed_ids
  | None => ret unprocessed_ids
  end.

(** Body of [for chunk in chunks]. *)
Definition export_chunk (a : args) (e : env) (transcript_id : string) (c : chunk)
    : M output unit :=
  r <- create_embedding (embed e) (text c) ;;
  match r with
  | Some embedding =>
      let out := Output (vector_id transcript_id (m_chunk_index (metadata c)))
                   embedding (metadata c) (text c) in
      emit (EvWrite out) ;;
      if opt_truthy (namespace a) then
        emit (EvUpsert out (upsert_ok e out)) ;;
        if upsert_ok e out then ret tt
        else log Error "Error upserting to Pinecone"
      else ret tt
  | None => log Error "Error processing chunk"
  end.

(** Body of [for transcript_id in unprocessed_ids]. *)
Definition export_transcript (a : args) (e : env) (transcript_id : string)
    : M output unit :=
  emit (EvProcessing transcript_id) ;;
  let fetched := fetch_transcript_details e transcript_id in
  match fetched with
  | Some t =>
      if transcript_truthy fetched then
        let chunks := process_transcript t in
        if bool_decide (chunks = []) then
          log Warning "No chunks generated for transcript"
        else
          for_each chunks (export_chunk a e transcript_id) ;;
          emit (EvMarkProcessed transcript_id) ;;
          emit EvPause
      else log Warning "Failed to fetch transcript"
  | None => log Warning "Failed to fetch transcript"
  end.

(** [main], from the point where the id listing and the lines of
    processed_transcripts.txt are at hand. *)
Definition main (a : args) (e : env) (processed_ids transcript_ids : list string)
    : M output unit :=
  let unprocessed_ids := unprocessed a processed_ids transcript_ids in
  unprocessed_ids <- handle_resume a unprocessed_ids ;;
  for_each unprocessed_ids (export_transcript a e).

End GraphqlMain.

(** ** The REST exporter *)

Module Rest.

(** The [data] object of a transcript detail response; a field is [None]
    when its key is absent. *)
Record transcript : Type := Transcript {
  t_title : option string;
  t_date : option string;
  t_summary : option string;
  t_transcript : option string;
  t_duration : option Z;
}.

Record participant : Type := Participant {
  p_name : option string;
  p_email : option string;
  p_role : option string;
}.

(** The metadata of an exported vector.  The [topics] list (it is read out of
    a Python [set]) and [processed_date] (the wall clock) are left out. *)
Record vector_metadata : Type := VectorMetadata {
  source_type : string;
  source_id : string;
  source_url : string;
  title : string;
  date : option string;
  summary : string;
  transcript_excerpt : string;
  duration_seconds : Z;
  participant_names : list string;
  participant_emails : list string;
  embedding_model : string;
}.

(** [pinecone_format] *)
Record vector : Type := Vector {
  v_id : string;
  v_values : embedding;
  v_metadata : vector_metadata;
  v_namespace : option string;
}.

Inductive output_format : Type := Jsonl | Json.

Record args : Type := Args {
  format : output_format;
  batch_size : Z;
  resume_from : option string;
  namespace : string;
}.

Record env : Type := Env {
  embed : embed_service;
  get_transcript_details : string -> option transcript;
  get_participants : string -> list participant;
}.

Definition max_retries : Z := 3.

(** The [for attempt in range(max_retries)] loop of [create_embedding], over
    the attempt numbers still to come. *)
Fixpoint attempts (svc : embed_service) (text : string) (todo : list Z)
    : M vector (option embedding) :=
  match todo with
  | [] => ret None
  | attempt :: rest =>
      r <- embeddings_create svc text ;;
      match r with
      | Some e => ret (Some e)
      | None =>
          log Error "Error creating embedding" ;;
          if decide (attempt < max_retries - 1) then
            emit (EvSleep (2 ^ attempt)) ;; attempts svc text rest
          else ret None
      end
  end.

(** The text handed to the service: placeholder for a missing or empty text,
    then truncation to 8000 characters. *)
Definition prepare_text (text : option string) : string :=
  let text :=
    match text with
    | None => "Empty transcript"
    | Some s => if str_truthy s then s else "Empty transcript"
    end in
  if decide (8000 < Z.of_nat (String.length text))
  then substring 0 (Z.to_nat 8000) text
  else text.

Definition create_embedding (svc : embed_service) (text : option string)
    : M vector (option embedding) :=
  match range 0 max_retries 1 with
  | Some todo => attempts svc (prepare_text text) todo
  | None => ret None
  end.

Definition format_date (date_str : option string) : option string :=
  match date_str with
  | None => None
  | Some d =>
      if str_truthy d then
        if contains "T" d then Some d else Some (d +:+ "T00:00:00Z")
      else None
  end.

Definition some_truthy (o : option string) : bool :=
  match o with Some s => str_truthy s | None => false end.

Definition participant_text (ps : list participant) : string :=
  join ", " ((fun p => default "Unknown" (p_name p) +:+ " ("
                       +:+ default "" (p_email p) +:+ ")") <$> ps).

(** [embedding_text] as [process_transcript] assembles it. *)
Definition embedding_text (t : transcript) (ps : list participant) : string :=
  let title := default "No Title" (t_title t) in
  let summary := default "" (t_summary t) in
  let body := default "" (t_transcript t) in
  ("Title: " +:+ title +:+ ". ")
  +:+ (if str_truthy summary then "Summary: " +:+ summary +:+ ". " else "")
  +:+ ("Participants: " +:+ participant_text ps +:+ ". ")
  +:+ (if str_truthy body
       then "Transcript excerpt: " +:+ substring 0 1000 body +:+ "..."
       else "").

(** [f"fireflies_{transcript_id}"] *)
Definition vector_id (transcript_id : string) : string :=
  "fireflies_" +:+ transcript_id.

Definition transcript_truthy (r : option transcript) : bool :=
  match r with
  | None => false
  | Some (Transcript None None None None None) => false
  | Some _ => true
  end.

(** [not embedding]: Python's [None] and the empty list are falsy. *)
Definition embedding_truthy (r : option embedding) : bool :=
  match r with
  | Some (_ :: _) => true
  | _ => false
  end.

Definition process_transcript (a : args) (e : env) (transcript_id : string)
    : M vector (option vector) :=
  emit (EvProcessing transcript_id) ;;
  let fetched := get_transcript_details e transcript_id in
  match fetched with
  | Some t =>
      if transcript_truthy fetched then
        let participants := get_participants e transcript_id in
        let body := default "" (t_transcript t) in
        r <- create_embedding (embed e) (Some (embedding_text t participants)) ;;
        match r with
        | Some embedding =>
            if embedding_truthy r then
              ret (Some (Vector (vector_id transcript_id) embedding
                (VectorMetadata "fireflies" transcript_id
                   ("https://app.fireflies.ai/transcript/" +:+ transcript_id)
                   (default "No Title" (t_title t))
                   (format_date (t_date t))
                   (default "" (t_summary t))
                   (if str_truthy body then substring 0 1000 body else "")
                   (default 0 (t_duration t))
                   ((fun p => default "Unknown" (p_name p)) <$> participants)
                   ((fun p => default "" (p_email p))
                      <$> filter (fun p => some_truthy (p_email p) = true) participants)
                   "text-embedding-3-small")
                (if str_truthy (namespace a) then Some (namespace a) else None)))
            else log Warning "Could not create embedding, skipping" ;; ret None
        | None => log Warning "Could not create embedding, skipping" ;; ret None
        end
      else ret None
  | None => ret None
  end.

(** The loop variables of [main] that outlive a batch. *)
Record progress : Type := Progress {
  results : list vector;
  processed_ids : gset string;
}.

(** Body of [for transcript_id in batch], threading [batch_results] and
    [processed_ids]. *)
Definition process_one (a : args) (e : env)
    (acc : list vector * gset string) (transcript_id : string)
    : M vector (list vector * gset string) :=
  result <- process_transcript a e transcript_id ;;
  let acc' :=
    match result with
    | Some v => (acc.1 ++ [v], {[ transcript_id ]} ∪ acc.2)
    | None => acc
    end in
  emit EvPause ;; ret acc'.

Fixpoint process_batch (a : args) (e : env) (batch : list string)
    (acc : list vector * gset string) : M vector (list vector * gset string) :=
  match batch with
  | [] => ret acc
  | transcript_id :: rest =>
      acc' <- process_one a e acc transcript_id ;;
      process_batch a e rest acc'
  end.

(** Body of [for i in range(0, len(transcript_ids), batch_size)]. *)
Definition batch_step (a : args) (e : env) (transcript_ids : list string)
    (p : progress) (i : Z) : M vector progress :=
  let batch := slice transcript_ids i (i + batch_size a) in
  r <- process_batch a e batch ([], processed_ids p) ;;
  let batch_results := r.1 in
  let processed := r.2 in
  emit (EvSaveCheckpoint processed) ;;
  (if bool_decide (batch_results <> []) then
     match format a with
     | Jsonl => for_each batch_results (fun item => emit (EvWrite item))
     | Json => ret tt
     end
   else ret tt) ;;
  ret (Progress (results p ++ batch_results) processed).

Fixpoint batches (a : args) (e : env) (transcript_ids : list string)
    (starts : list Z) (p : progress) : M vector progress :=
  match starts with
  | [] => ret p
  | i :: rest =>
      p' <- batch_step a e transcript_ids p i ;;
      batches a e transcript_ids rest p'
  end.

(** "Filter out already processed IDs" *)
Definition remaining (processed : gset string) (transcript_ids : list string)
    : list string :=
  if decide (processed = ∅) then transcript_ids
  else filter (fun id => id ∉ processed) transcript_ids.

(** "Resume from specific ID if requested" *)
Definition handle_resume (a : args) (transcript_ids : list string)
    : M vector (list string) :=
  match resume_from a with
  | Some r =>
      if str_truthy r then
        match index r transcript_ids with
        | Some resume_index => ret (drop resume_index transcript_ids)
        | None => log Warning "Resume ID not found in transcript list" ;;
                  ret transcript_ids
        end
      else ret transcript_ids
  | None => ret transcript_ids
  end.

(** [main], from the id listing and the loaded checkpoint on.  The zero step
    that makes [range] raise is caught by [except Exception]; the [finally]
    clause then runs with the results gathered so far. *)
Definition main (a : args) (e : env) (checkpoint : gset string)
    (transcript_ids : list string) : M vector unit :=
  let transcript_ids := remaining checkpoint transcript_ids in
  transcript_ids <- handle_resume a transcript_ids ;;
  p <- match range 0 (Z.of_nat (length transcript_ids)) (batch_size a) with
       | Some starts =>
           batches a e transcript_ids starts (Progress [] checkpoint)
       | None =>
           log Error "Error during processing" ;; ret (Progress [] checkpoint)
       end ;;
  match format a with
  | Json => if bool_decide (results p <> []) then emit (EvDump (results p)) else ret tt
  | Jsonl => ret tt
  end.

End Rest.

(** ** Observations on runs and the predicates the properties are stated with *)

Module Props.
Import Graphql.

(** No two neighbouring entries of a list are equal. *)
Definition no_adjacent_dup {A} (l : list A) : Prop :=
  forall (i : nat) (x y : A), l !! i = Some x -> l !! S i = Some y -> x <> y.

(** A closed block is non-empty and carries the label of each of its
    sentences. *)
Definition block_ok (b : speaker_block) : Prop :=
  sentences b <> [] /\
  Forall (fun s => speaker b = Some (speaker_name s)) (sentences b).

(** What the grouping loop maintains after consuming the sentences [seen]. *)
Record group_inv (seen : list sentence) (st : group_state) : Prop := GroupInv {
  inv_concat :
    concat (sentences <$> speaker_blocks st) ++ current_block st = seen;
  inv_blocks : Forall block_ok (speaker_blocks st);
  inv_current :
    Forall (fun s => current_speaker st = Some (speaker_name s)) (current_block st);
  inv_adjacent :
    no_adjacent_dup ((speaker <$> speaker_blocks st) ++ [current_speaker st]);
  inv_started : current_block st = [] -> speaker_blocks st = [];
}.

(** The specification's speaker blocks: the maximal runs of consecutive
    sentences that agree on [key]. *)
Fixpoint runs_by {K} `{EqDecision K} (key : sentence -> K) (ss : list sentence)
    : list (list sentence) :=
  match ss with
  | [] => []
  | s :: rest =>
      match runs_by key rest with
      | (s' :: run) :: runs =>
          if decide (key s = key s') then (s :: s' :: run) :: runs
          else [s] :: (s' :: run) :: runs
      | _ => [[s]]
      end
  end.

(** [sentence.get("speaker_id", 0)] *)
Definition speaker_id (s : sentence) : pyval := default (PyInt 0) (s_speaker_id s).

(** The speaker id is an integer, as the GraphQL schema declares it. *)
Definition int_speaker (s : sentence) : Prop := exists z, speaker_id s = PyInt z.

(** A sentence dict with both keys present and an integer speaker id. *)
Definition utt (sid : Z) (txt : string) : sentence :=
  Sentence (Some txt) (Some (PyInt sid)).

(** The transcript ids a run started to process, in order. *)
Definition processing_order {R} (tr : list (event R)) : list string :=
  omap (fun ev => match ev with EvProcessing tid => Some tid | _ => None end) tr.

(** The inputs a run submitted to the embedding service, in order. *)
Definition embed_inputs {R} (tr : list (event R)) : list string :=
  omap (fun ev => match ev with EvEmbedRequest input _ => Some input | _ => None end) tr.

(** The back-off pauses of a run, in seconds. *)
Definition sleeps {R} (tr : list (event R)) : list Z :=
  omap (fun ev => match ev with EvSleep d => Some d | _ => None end) tr.

(** The messages logged at warning level. *)
Definition warnings {R} (tr : list (event R)) : list string :=
  omap (fun ev => match ev with EvLog Warning msg => Some msg | _ => None end) tr.

(** The records appended to the output file. *)
Definition written {R} (tr : list (event R)) : list R :=
  omap (fun ev => match ev with EvWrite r => Some r | _ => None end) tr.

(** The embeddings the service handed out. *)
Definition embedded {R} (tr : list (event R)) : list embedding :=
  omap (fun ev => match ev with EvEmbedRequest _ r => r | _ => None end) tr.

(** The transcript ids appended to processed_transcripts.txt. *)
Definition marked {R} (tr : list (event R)) : list string :=
  omap (fun ev => match ev with EvMarkProcessed tid => Some tid | _ => None end) tr.

(** A service that fails its first [k] requests and answers [e] from then on. *)
Definition fails_then (k : nat) (e : embedding) : embed_service :=
  fun n _ => if decide (n < k)%nat then None else Some e.

(** What the retry claim asks of an embedding function: when the service
    fails the next two requests and answers [e] to the third, the function
    returns [e]. *)
Definition recovers_after_two_failures {R}
    (create : embed_service -> string -> M R (option embedding)) : Prop :=
  forall (e : embedding) (text : string) (n : nat),
    result (create (fails_then (n + 2) e) text) n = Some e.

(** A transcript whose only sentence has an empty text. *)
Definition silent_transcript : transcript :=
  Transcript (Some (PyStr "T1")) (Some (PyStr "Standup")) None None None
    (Some [utt 1 ""]).

(** A service that always answers with the same vector. *)
Definition demo_service : embed_service := fun _ _ => Some [1; 2; 3].

(** Collaborators and options of a plain REST run: every transcript exists,
    has a title and no participants; batches of ten, JSON lines. *)
Definition demo_rest_env : Rest.env :=
  Rest.Env demo_service
    (fun _ => Some (Rest.Transcript (Some "Standup") None None None None))
    (fun _ => []).

Definition demo_rest_args : Rest.args := Rest.Args Rest.Jsonl 10 None "".

(** Collaborators and options of a plain GraphQL run: every transcript
    consists of the three utterances of the chunking example. *)
Definition demo_graphql_env : GraphqlMain.env :=
  GraphqlMain.Env demo_service
    (fun _ => Some (Transcript None (Some (PyStr "Standup")) None None None
                      (Some [utt 1 "hi"; utt 1 "there"; utt 2 "hey"])))
    (fun _ => true).

Definition demo_graphql_args : GraphqlMain.args := GraphqlMain.Args None None false.

(** REST ordering property: whenever the checkpoint file is rewritten, every
    id it gains over the loaded checkpoint already has its record in the
    output file. *)
Definition checkpoint_follows_writes (loaded : gset string)
    (tr : list (event Rest.vector)) : Prop :=
  forall pre ids post, tr = pre ++ EvSaveCheckpoint ids :: post ->
  forall tid, tid ∈ ids -> tid ∉ loaded ->
  exists v, v ∈ written pre /\ Rest.v_id v = Rest.vector_id tid.

(** Every embedding obtained has its record in the output file. *)
Definition balanced (tr : list (event GraphqlMain.output)) : Prop :=
  embedded tr = GraphqlMain.o_values <$> written tr.

(** GraphQL ordering property: whenever an id is appended to the processed
    file, every embedding obtained so far has been written to the output
    file. *)
Definition marks_follow_writes (tr : list (event GraphqlMain.output)) : Prop :=
  forall pre tid post, tr = pre ++ EvMarkProcessed tid :: post ->
  embedded pre = GraphqlMain.o_values <$> written pre.

End Props.

Import Props.

(** ** The GraphQL exporter: listing the transcript ids *)

Module GraphqlListing.

(** One element of [data.transcripts]; the title is requested but not read. *)
Record listed : Type := Listed {
  l_id : option string;
  l_date : option Z;      (* recording time, milliseconds since the epoch *)
}.

(** What became of the POST request. *)
Inductive response : Type :=
  | HttpError (status : Z)              (* status_code != 200 *)
  | GraphqlErrors                       (* "errors" in data *)
  | Data (transcripts : list listed)    (* data.get("data", {}).get("transcripts", []) *)
  | Raised.                             (* requests.post or response.json raised,
                                           or the body has another shape *)

(** A --start-date or --end-date option: not given (or empty), given but
    rejected by [strptime], or given, with its timestamp times 1000. *)
Inductive date_option : Type :=
  | NoDate
  | BadDate
  | Date (ms : Z).

Definition given (d : date_option) : bool :=
  match d with NoDate => false | _ => true end.

(** [start_timestamp] or [end_timestamp]; the outer [None] is the ValueError
    of [strptime]. *)
Definition timestamp (d : date_option) : option (option Z) :=
  match d with
  | NoDate => Some None
  | BadDate => None
  | Date ms => Some (Some ms)
  end.

(** Body of the filtering loop: [true] when the transcript is appended to
    [filtered_transcripts]. *)
Definition in_range (start_timestamp end_timestamp : option Z) (t : listed) : bool :=
  match l_date t with
  | None => false
  | Some recording =>
      if decide (recording = 0) then false
      else
        let too_early :=
          match start_timestamp with
          | Some s => bool_decide (s <> 0) && bool_decide (recording < s)
          | None => false
          end in
        let too_late :=
          match end_timestamp with
          | Some e => bool_decide (e <> 0) && bool_decide (recording > e)
          | None => false
          end in
        negb too_early && negb too_late
  end.

(** [t.get("id")] when it is truthy. *)
Definition truthy_id (t : listed) : option string :=
  match l_id t with
  | Some s => if str_truthy s then Some s else None
  | None => None
  end.

(** "Limit results if needed" *)
Definition apply_limit (limit : Z) (transcripts : list listed) : list listed :=
  if bool_decide (limit <> 0)
     && bool_decide (Z.of_nat (length transcripts) > limit)
  then slice transcripts 0 limit
  else transcripts.

(** [fetch_transcripts_graphql], from the response on.  Every failure,
    including a date option [strptime] rejects, ends in the empty list. *)
Definition fetch_transcripts_graphql (r : response)
    (start_date end_date : date_option) (limit : Z) : list string :=
  match r with
  | Data transcripts =>
      let filtered :=
        if given start_date || given end_date then
          match timestamp start_date, timestamp end_date with
          | Some s, Some e =>
              Some (filter (fun t => in_range s e t = true) transcripts)
          | _, _ => None
          end
        else Some transcripts in
      match filtered with
      | Some transcripts => omap truthy_id (apply_limit limit transcripts)
      | None => []
      end
  | _ => []
  end.

(** [main], from the listing response on: the listing is asked for with
    [limit=args.batch_size]. *)
Definition main_from_response (a : GraphqlMain.args) (batch_size : Z)
    (start_date end_date : date_option) (r : response) (e : GraphqlMain.env)
    (processed_ids : list string) : M GraphqlMain.output unit :=
  let transcript_ids := fetch_transcripts_graphql r start_date end_date batch_size in
  GraphqlMain.main a e processed_ids transcript_ids.

End GraphqlListing.

(** ** The REST exporter: paging through the transcript list *)

Module RestListing.

(** What one GET of the transcript list gives: a page, of whose elements only
    the ['id'] is read, with the total from [meta], or a request exception
    with the status code of its response, if it has one. *)
Inductive reply : Type :=
  | Page (data : option (list string)) (total : option Z)
  | RequestFailed (status : option Z).

(** The service: its reply to the [n]-th request of the run, asking for the
    given page. *)
Definition server : Type := nat -> Z -> reply.

(** The [while True] loop of [get_all_transcript_ids], with the requests made
    so far, the page to ask for and the transcripts collected.  It returns
    the collected ids and the pages it asked for, in order; [None] when
    [fuel] requests were not enough to leave the loop. *)
Fixpoint listing_loop (srv : server) (fuel : nat) (calls : nat) (page : Z)
    (all_transcripts : list string) (asked : list Z)
    : option (list string * list Z) :=
  match fuel with
  | O => None
  | S fuel' =>
      match srv calls page with
      | Page data total =>
          let page_transcripts := default [] data in
          let all_transcripts := all_transcripts ++ page_transcripts in
          let total := default 0 total in
          let current_count := Z.of_nat (length all_transcripts) in
          if bool_decide (current_count >= total)
             || bool_decide (page_transcripts = [])
          then Some (all_transcripts, asked ++ [page])
          else listing_loop srv fuel' (S calls) (page + 1) all_transcripts
                 (asked ++ [page])
      | RequestFailed status =>
          if bool_decide (status = Some 429)
          then listing_loop srv fuel' (S calls) page all_transcripts
                 (asked ++ [page])
          else Some (all_transcripts, asked ++ [page])
      end
  end.

Definition get_all_transcript_ids (srv : server) (fuel : nat)
    : option (list string * list Z) :=
  listing_loop srv fuel 0 1 [] [].

End RestListing.

(** ** The REST exporter: cleaning up the topics *)

Module RestTopics.

(** [topic[-1]] of a non-empty string. *)
Fixpoint last_char (s : string) : option ascii :=
  match s with
  | EmptyString => None
  | String c EmptyString => Some c
  | String _ rest => last_char rest
  end.

(** [topic[:-1]] *)
Fixpoint drop_last (s : string) : string :=
  match s with
  | EmptyString => EmptyString
  | String _ EmptyString => EmptyString
  | String c rest => String c (drop_last rest)
  end.

(** [c in '.,;:'] *)
Definition end_punctuation (c : ascii) : bool :=
  bool_decide (c ∈ ["."; ","; ";"; ":"]%char).

(** [while topic and topic[-1] in '.,;:': topic = topic[:-1]], at most
    [fuel] rounds. *)
Fixpoint strip_loop (fuel : nat) (topic : string) : string :=
  match fuel with
  | O => topic
  | S fuel' =>
      match last_char topic with
      | Some c =>
          if end_punctuation c then strip_loop fuel' (drop_last topic) else topic
      | None => topic
      end
  end.

(** The loop shortens the topic in every round, so its length is fuel
    enough. *)
Definition strip_end (topic : string) : string :=
  strip_loop (String.length topic) topic.

(** The loop "Clean up topics" of [extract_topics]. *)
Definition clean_topics (topics : list string) : list string :=
  filter (fun topic => str_truthy topic = true /\ (2 < String.length topic)%nat)
    (strip_end <$> topics).

(** [list(set(clean_topics))[:5]]: the set is listed in an order Python does
    not fix, so the function is a relation between the topics found and the
    list returned. *)
Definition extract_topics_returns (topics : list string) (returned : list string)
    : Prop :=
  exists order,
    order ≡ₚ elements (list_to_set (clean_topics topics) : gset string) /\
    returned = slice order 0 5.

End RestTopics.

(** ** The REST exporter: the checkpoint file *)

Module CheckpointFile.

(** fireflies_export_checkpoint.json: missing, not JSON, or a JSON object
    with or without the key "processed_ids". *)
Inductive file : Type :=
  | Missing
  | NotJson
  | Object (processed_ids : option (list string)).

(** [load_checkpoint] *)
Definition load_checkpoint (f : file) : gset string :=
  match f with
  | Object (Some ids) => list_to_set ids
  | Object None => ∅
  | Missing | NotJson => ∅
  end.

(** [save_checkpoint]: the file it leaves behind. *)
Definition save_checkpoint (processed_ids : list string) : file :=
  Object (Some processed_ids).

End CheckpointFile.

(** ** The GraphQL exporter: processed_transcripts.txt *)

Module ProcessedFile.

(** The file is a text; a missing file reads as the empty text and is
    created by the first append.  Characters are code points below 256; the
    file is written as on Linux, where ["\n"] is stored as it is. *)

Definition LF : ascii := "010"%char.
Definition CR : ascii := "013"%char.

(** [str.isspace] on one character: tab to carriage return, the four
    separators 28 to 31, space, next line and no-break space. *)
Definition py_space (c : ascii) : bool :=
  let n := N_of_ascii c in
  ((9 <=? n) && (n <=? 13) || (28 <=? n) && (n <=? 32)
   || (n =? 133) || (n =? 160))%N.

(** Reading in text mode: ["\r\n"] and a lone ["\r"] arrive as ["\n"].
    [pending_cr] says that the character before was a carriage return. *)
Fixpoint universal_newlines (pending_cr : bool) (s : string) : string :=
  match s with
  | EmptyString => EmptyString
  | String c rest =>
      if Ascii.eqb c CR then String LF (universal_newlines true rest)
      else if Ascii.eqb c LF then
        if pending_cr then universal_newlines false rest
        else String LF (universal_newlines false rest)
      else String c (universal_newlines false rest)
  end.

(** [f.readlines()]: the lines with their line ends; the last line may lack
    one. *)
Fixpoint readlines (s : string) : list string :=
  match s with
  | EmptyString => []
  | String c rest =>
      if Ascii.eqb c LF then String c EmptyString :: readlines rest
      else match readlines rest with
           | [] => [String c EmptyString]
           | line :: lines => String c line :: lines
           end
  end.

Fixpoint lstrip (s : string) : string :=
  match s with
  | EmptyString => EmptyString
  | String c rest => if py_space c then lstrip rest else s
  end.

Fixpoint rstrip (s : string) : string :=
  match s with
  | EmptyString => EmptyString
  | String c rest =>
      match rstrip rest with
      | EmptyString => if py_space c then EmptyString else String c EmptyString
      | kept => String c kept
      end
  end.

(** [line.strip()] *)
Definition strip (s : string) : string := rstrip (lstrip s).

(** [[line.strip() for line in f.readlines()]] *)
Definition read_processed (content : string) : list string :=
  strip <$> readlines (universal_newlines false content).

(** [pf.write(f"{transcript_id}\n")] on the file opened for appending. *)
Definition mark_processed (content : string) (transcript_id : string) : string :=
  content +:+ transcript_id +:+ String LF EmptyString.

End ProcessedFile.

(** ** Further observations on runs *)

Module MoreProps.
Import Graphql.

(** The id sets written to the checkpoint file, in order. *)
Definition saves {R} (tr : list (event R)) : list (gset string) :=
  omap (fun ev => match ev with EvSaveCheckpoint ids => Some ids | _ => None end) tr.

(** The record lists written as one JSON document. *)
Definition dumps {R} (tr : list (event R)) : list (list R) :=
  omap (fun ev => match ev with EvDump rs => Some rs | _ => None end) tr.

(** The records sent to the vector index. *)
Definition upserted {R} (tr : list (event R)) : list R :=
  omap (fun ev => match ev with EvUpsert r _ => Some r | _ => None end) tr.

(** The messages logged at error level. *)
Definition errors {R} (tr : list (event R)) : list string :=
  omap (fun ev => match ev with EvLog Error msg => Some msg | _ => None end) tr.

(** The events that change a file or the vector index. *)
Definition file_event {R} (ev : event R) : bool :=
  match ev with
  | EvWrite _ | EvUpsert _ _ | EvSaveCheckpoint _ | EvMarkProcessed _ | EvDump _ => true
  | _ => false
  end.

(** The transcript a REST vector was made from. *)
Definition source_of (v : Rest.vector) : string :=
  Rest.source_id (Rest.v_metadata v).

(** A chain of sets, each containing the one before, the first containing
    [s]. *)
Fixpoint increasing_from (s : gset string) (l : list (gset string)) : Prop :=
  match l with
  | [] => True
  | x :: rest => s ⊆ x /\ increasing_from x rest
  end.

(** The GraphQL loop gets past its two [continue]s for this transcript: the
    details are truthy and give at least one chunk. *)
Definition exportable (e : GraphqlMain.env) (tid : string) : bool :=
  match GraphqlMain.fetch_transcript_details e tid with
  | Some t =>
      GraphqlMain.transcript_truthy (Some t)
      && bool_decide (process_transcript t <> [])
  | None => false
  end.

(** The number of chunks the transcript gives. *)
Definition chunk_count (e : GraphqlMain.env) (tid : string) : nat :=
  match GraphqlMain.fetch_transcript_details e tid with
  | Some t => length (process_transcript t)
  | None => 0
  end.

(** A transcript list served honestly, a hundred per page, for the first [k]
    requests; every later request fails with status 500. *)
Definition serves_until (k : nat) (listing : list string) : RestListing.server :=
  fun calls page =>
    if decide (calls < k)%nat
    then RestListing.Page
           (Some (slice listing ((page - 1) * 100) (page * 100)))
           (Some (Z.of_nat (length listing)))
    else RestListing.RequestFailed (Some 500).

(** A service that answers the first [r] requests with status 429 and then
    behaves like [srv]. *)
Definition rate_limited_first (r : nat) (srv : RestListing.server)
    : RestListing.server :=
  fun calls page =>
    if decide (calls < r)%nat then RestListing.RequestFailed (Some 429)
    else srv (calls - r)%nat page.

(** The transcripts of a listing response; none when the request failed. *)
Definition listed_in (r : GraphqlListing.response) : list GraphqlListing.listed :=
  match r with GraphqlListing.Data transcripts => transcripts | _ => [] end.

(** The checkpoint file a REST run leaves, given the file it found and the
    sets it saved: the file is untouched when nothing was saved, and else
    holds the last set saved, in whatever order [list(processed_ids)] gives. *)
Definition left_on_file (found : CheckpointFile.file) (saved : list (gset string))
    (left : CheckpointFile.file) : Prop :=
  match last saved with
  | None => left = found
  | Some ids =>
      exists l, l ≡ₚ elements ids /\ left = CheckpointFile.save_checkpoint l
  end.

(** A string of nothing but the punctuation marks the topics clean-up cuts
    off. *)
Fixpoint only_punctuation (s : string) : bool :=
  match s with
  | EmptyString => true
  | String c rest => RestTopics.end_punctuation c && only_punctuation rest
  end.

(** The text is empty or ends with a line feed, as every text does that the
    exporter wrote itself. *)
Definition newline_terminated (content : string) : bool :=
  match RestTopics.last_char content with
  | None => true
  | Some c => Ascii.eqb c ProcessedFile.LF
  end.

(** A printable ASCII character other than the space. *)
Definition visible (c : ascii) : bool :=
  let n := N_of_ascii c in ((33 <=? n) && (n <=? 126))%N.

(** An id that survives a line of the processed file: it holds no line break
    and begins and ends with a visible character (or is empty). *)
Definition plain_id (id : string) : bool :=
  negb (contains ProcessedFile.LF id) && negb (contains ProcessedFile.CR id)
  && match id with String c _ => visible c | EmptyString => true end
  && match RestTopics.last_char id with Some c => visible c | None => true end.

(** The processed file after a run: the ids the run marked, appended in
    order to the file it found. *)
Definition processed_file_after {R} (content : string) (tr : list (event R))
    : string :=
  fold_left ProcessedFile.mark_processed (marked tr) content.

(** The options of a REST run with another output format. *)
Definition with_format (f : Rest.output_format) (a : Rest.args) : Rest.args :=
  Rest.Args f (Rest.batch_size a) (Rest.resume_from a) (Rest.namespace a).

(** The vectors a REST run makes, in order. *)
Definition rest_exported (a : Rest.args) (e : Rest.env) (checkpoint : gset string)
    (transcript_ids : list string) (n : nat) : list Rest.vector :=
  let todo := result (Rest.handle_resume a
                        (Rest.remaining checkpoint transcript_ids)) n in
  match range 0 (Z.of_nat (length todo)) (Rest.batch_size a) with
  | Some starts =>
      Rest.results (result (Rest.batches a e todo starts
                              (Rest.Progress [] checkpoint)) n)
  | None => []
  end.

End MoreProps.

Import MoreProps.


(** ** Facts about the Python built-ins *)

Module PyFacts.

Lemma to_int_not_nil z : Z.to_int z <> Pos Nil /\ Z.to_int z <> Neg Nil.
Proof.
  destruct z as [|p|p]; simpl; split; try discriminate;
    intros [= H]; by apply (DecimalPos.Unsigned.to_uint_nonnil p).
Qed.

(** [str] is injective on integers. *)
Lemma str_of_Z_inj a b : str_of_Z a = str_of_Z b -> a = b.
Proof.
  unfold str_of_Z. intros H.
  apply (f_equal NilZero.int_of_string) in H.
  destruct (to_int_not_nil a), (to_int_not_nil b).
  rewrite !NilZero.isi in H by done.
  injection H as H. by apply DecimalZ.to_int_inj.
Qed.

Lemma contains_uint c d :
  contains c (NilEmpty.string_of_uint d) = true ->
  c ∈ ["0"; "1"; "2"; "3"; "4"; "5"; "6"; "7"; "8"; "9"]%char.
Proof.
  induction d; cbn [contains NilEmpty.string_of_uint]; [discriminate| ..];
    match goal with
    | |- context [Ascii.eqb ?a c] =>
        destruct (Ascii.eqb_spec a c) as [<-|_]; [intros _; repeat constructor|exact IHd]
    end.
Qed.

(** The decimal rendering of an integer has no underscore in it. *)
Lemma str_of_Z_no_underscore z : contains "_" (str_of_Z z) = false.
Proof.
  apply not_true_is_false. intros H.
  assert (Hd : forall d, contains "_" (NilZero.string_of_uint d) = true -> False).
  { intros d Hc. destruct d; simpl in Hc; try discriminate;
      apply (contains_uint "_" _) in Hc;
      repeat (apply elem_of_cons in Hc as [Hc|Hc]; [discriminate|]);
      by apply elem_of_nil in Hc. }
  unfold str_of_Z in H. destruct (Z.to_int z) as [d|d]; simpl in H; eauto.
Qed.

Lemma contains_middle c x r : contains c (x +:+ String c r) = true.
Proof.
  induction x as [|c' x IH]; simpl.
  - by rewrite Ascii.eqb_refl.
  - by destruct (Ascii.eqb c' c).
Qed.

(** A string is cut in one way only at its last occurrence of [c]. *)
Lemma split_at_last c x y a b :
  contains c a = false -> contains c b = false ->
  x +:+ String c a = y +:+ String c b -> x = y /\ a = b.
Proof.
  intros Ha Hb. revert y.
  induction x as [|cx x IH]; intros [|cy y]; simpl; intros H.
  - by injection H as ->.
  - injection H as <- ->. by rewrite contains_middle in Ha.
  - injection H as -> <-. by rewrite contains_middle in Hb.
  - injection H as -> H. destruct (IH _ H) as [-> ->]. done.
Qed.

Lemma append_inj_l p x y : p +:+ x = p +:+ y -> x = y.
Proof. induction p; simpl; [done|]. intros [= H]. auto. Qed.

Lemma index_Some x xs k :
  index x xs = Some k -> xs !! k = Some x /\ forall j, (j < k)%nat -> xs !! j <> Some x.
Proof.
  revert k. induction xs as [|y ys IH]; simpl; intros k; [done|].
  case_decide as Hy.
  - intros [= <-]. subst. split; [done|]. intros j Hj. lia.
  - destruct (index x ys) as [k'|]; simpl; [|done].
    intros [= <-]. destruct (IH k' eq_refl) as [Hk Hbefore].
    split; [done|]. intros [|j] Hj; simpl; [congruence|]. apply Hbefore. lia.
Qed.

Lemma index_None x xs : index x xs = None <-> x ∉ xs.
Proof.
  induction xs as [|y ys IH]; simpl.
  - split; [intros _; apply not_elem_of_nil|done].
  - case_decide as Hy.
    + subst. split; [done|]. intros H. exfalso. apply H. by left.
    + destruct (index x ys) as [k|]; simpl.
      * split; [done|]. intros H. exfalso.
        apply not_elem_of_cons in H as [_ H]. by apply IH in H.
      * split; [|done]. intros _. apply not_elem_of_cons.
        split; [done|]. by apply IH.
Qed.

End PyFacts.

(** ** Properties of the chunker *)

Module GraphqlFacts.
Import Graphql PyFacts.

Lemma no_adjacent_dup_nil {A} : no_adjacent_dup (@nil A).
Proof. intros i x y H. rewrite lookup_nil in H. discriminate. Qed.

Lemma no_adjacent_dup_singleton {A} (x : A) : no_adjacent_dup [x].
Proof. intros i a b _ H. destruct i; discriminate. Qed.

Lemma no_adjacent_dup_snoc {A} (l : list A) (x y : A) :
  no_adjacent_dup (l ++ [x]) -> x <> y -> no_adjacent_dup ((l ++ [x]) ++ [y]).
Proof.
  intros Hl Hxy i a b Ha Hb.
  destruct (decide (S i < length (l ++ [x]))%nat) as [Hlt|Hge].
  - rewrite lookup_app_l in Ha by lia. rewrite lookup_app_l in Hb by lia.
    eauto.
  - rewrite length_app in Hge. simpl in Hge.
    pose proof (lookup_lt_Some _ _ _ Hb) as Hlen.
    rewrite !length_app in Hlen. simpl in Hlen.
    assert (i = length l) as -> by lia.
    rewrite lookup_app_l in Ha by (rewrite length_app; simpl; lia).
    rewrite list_lookup_middle in Ha by done.
    replace (S (length l)) with (length (l ++ [x])) in Hb
      by (rewrite length_app; simpl; lia).
    rewrite list_lookup_middle in Hb by done.
    congruence.
Qed.

Lemma group_inv_init : group_inv [] group_init.
Proof.
  split; simpl; auto using no_adjacent_dup_singleton.
Qed.

Lemma group_inv_step seen st s :
  group_inv seen st -> group_inv (seen ++ [s]) (group_step st s).
Proof.
  intros [Hcat Hblocks Hcur Hadj Hstart]. unfold group_step.
  destruct (bool_decide (current_speaker st <> Some (speaker_name s))
            && bool_decide (current_block st <> [])) eqn:Hclose.
  - apply andb_true_iff in Hclose as [Hne Hnil].
    apply bool_decide_eq_true in Hne. apply bool_decide_eq_true in Hnil.
    split; simpl.
    + rewrite fmap_app, concat_app. simpl.
      rewrite app_nil_r, <- Hcat. by rewrite <- !app_assoc.
    + apply Forall_app. split; [done|].
      constructor; [|done]. split; simpl; done.
    + constructor; done.
    + rewrite fmap_app. simpl.
      by apply no_adjacent_dup_snoc.
    + intros H. by destruct (current_block st).
  - split; simpl.
    + rewrite <- Hcat. by rewrite app_assoc.
    + done.
    + apply Forall_app. split; [|by constructor].
      apply andb_false_iff in Hclose as [Hsame|Hnil].
      * apply bool_decide_eq_false in Hsame.
        destruct (decide (current_speaker st = Some (speaker_name s))) as [E|]; [|done].
        rewrite <- E. done.
      * apply bool_decide_eq_false in Hnil.
        destruct (current_block st); [constructor|].
        exfalso. apply Hnil. done.
    + apply andb_false_iff in Hclose as [Hsame|Hnil].
      * apply bool_decide_eq_false in Hsame.
        destruct (decide (current_speaker st = Some (speaker_name s))) as [E|]; [|done].
        by rewrite <- E.
      * apply bool_decide_eq_false in Hnil.
        destruct (current_block st) eqn:Hcb; [|exfalso; by apply Hnil].
        rewrite Hstart by done. apply no_adjacent_dup_singleton.
    + intros H. by destruct (current_block st).
Qed.

Lemma group_inv_fold ss seen st :
  group_inv seen st -> group_inv (seen ++ ss) (fold_left group_step ss st).
Proof.
  revert seen st. induction ss as [|s ss IH]; intros seen st H; simpl.
  - by rewrite app_nil_r.
  - replace (seen ++ s :: ss) with ((seen ++ [s]) ++ ss) by (by rewrite <- app_assoc).
    apply IH. by apply group_inv_step.
Qed.

(** The blocks the grouping returns partition the sentence list into
    non-empty single-speaker runs, and neighbouring runs differ in speaker. *)
Lemma group_sentences_spec ss :
  let blocks := group_sentences ss in
  concat (sentences <$> blocks) = ss /\
  Forall block_ok blocks /\
  no_adjacent_dup (speaker <$> blocks).
Proof.
  unfold group_sentences, group_finish.
  pose proof (group_inv_fold ss [] group_init group_inv_init) as H.
  simpl in H. destruct H as [Hcat Hblocks Hcur Hadj Hstart].
  set (st := fold_left group_step ss group_init) in *.
  case_bool_decide as Hnil; simpl.
  - repeat split.
    + rewrite fmap_app, concat_app. simpl. by rewrite app_nil_r.
    + apply Forall_app. split; [done|]. constructor; [|done]. split; done.
    + rewrite fmap_app. done.
  - rename Hnil into Hcb.
    rewrite Hcb, app_nil_r in Hcat. rewrite (Hstart Hcb) in *.
    repeat split; auto using no_adjacent_dup_nil.
Qed.

(** *** The blocks are the specification's maximal runs *)

Section RunsBy.
Context {K : Type} `{EqDecision K} (key : sentence -> K).

Lemma runs_by_cons_head s rest :
  exists run runs, runs_by key (s :: rest) = (s :: run) :: runs.
Proof.
  simpl. destruct (runs_by key rest) as [|[|s' run] runs]; eauto.
  case_decide; eauto.
Qed.

(** A non-empty run of one key, followed by nothing or by a sentence of
    another key, is the first block. *)
Lemma runs_by_app_run b l :
  b <> [] ->
  (forall s s', s ∈ b -> s' ∈ b -> key s = key s') ->
  (forall s s', last b = Some s -> head l = Some s' -> key s <> key s') ->
  runs_by key (b ++ l) = b :: runs_by key l.
Proof.
  induction b as [|s b IH]; [done|]. intros _ Hsame Hnext.
  destruct b as [|s2 b].
  - simpl. destruct l as [|s' l]; [done|].
    destruct (runs_by_cons_head s' l) as (run & runs & Hr). rewrite Hr.
    rewrite decide_False; [done|]. by apply Hnext.
  - change ((s :: s2 :: b) ++ l) with (s :: ((s2 :: b) ++ l)).
    cbn [runs_by]. rewrite IH.
    + rewrite decide_True; [done|].
      apply Hsame; [by left|right; by left].
    + done.
    + intros x y Hx Hy. apply Hsame; by right.
    + intros x y Hx Hy. apply Hnext; [|done]. by rewrite last_cons, Hx.
Qed.

End RunsBy.

(** Keys that agree on which sentences belong together give the same runs. *)
Lemma runs_by_ext {K1 K2 : Type} `{EqDecision K1} `{EqDecision K2}
    (key1 : sentence -> K1) (key2 : sentence -> K2) ss :
  (forall s s', s ∈ ss -> s' ∈ ss -> key1 s = key1 s' <-> key2 s = key2 s') ->
  runs_by key1 ss = runs_by key2 ss.
Proof.
  induction ss as [|s rest IH]; [done|]. intros Hkeys.
  cbn [runs_by]. rewrite <- IH by (intros; apply Hkeys; by right).
  destruct rest as [|s0 rest]; [done|].
  destruct (runs_by_cons_head key1 s0 rest) as (run & runs & ->).
  specialize (Hkeys s s0 ltac:(by left) ltac:(right; by left)).
  destruct (decide (key1 s = key1 s0)), (decide (key2 s = key2 s0)); tauto.
Qed.

(** Blocks that are non-empty, single-speaker and change speaker from one to
    the next are the maximal runs of their concatenation. *)
Lemma blocks_are_runs (blocks : list speaker_block) :
  Forall block_ok blocks ->
  no_adjacent_dup (speaker <$> blocks) ->
  sentences <$> blocks = runs_by speaker_name (concat (sentences <$> blocks)).
Proof.
  induction blocks as [|b blocks IH]; intros Hok Hadj; [done|].
  apply Forall_cons in Hok as [[Hne Hb] Hok].
  rewrite fmap_cons. cbn [concat].
  rewrite Forall_forall in Hb.
  rewrite runs_by_app_run.
  - f_equal. apply IH; [done|].
    intros i x y Hx Hy. by apply (Hadj (S i)).
  - done.
  - intros s s' Hs Hs'. apply Hb in Hs, Hs'. congruence.
  - intros s s' Hlast Hhead.
    destruct blocks as [|b' blocks]; [done|].
    apply Forall_cons in Hok as [[Hne' Hb'] _].
    rewrite Forall_forall in Hb'.
    assert (Hs : speaker b = Some (speaker_name s)).
    { apply Hb. apply last_Some in Hlast as [l' ->].
      apply elem_of_app. right. by left. }
    assert (Hs' : speaker b' = Some (speaker_name s')).
    { apply Hb'. rewrite fmap_cons in Hhead. cbn [concat] in Hhead.
      destruct (sentences b') as [|x xs]; [done|].
      simpl in Hhead. injection Hhead as ->. by left. }
    pose proof (Hadj 0%nat (speaker b) (speaker b') eq_refl eq_refl) as Hdiff.
    congruence.
Qed.

(** The sentence lists of the blocks the chunker builds are exactly the
    maximal runs of equal speaker label in the transcript. *)
Lemma group_sentences_runs ss :
  sentences <$> group_sentences ss = runs_by speaker_name ss.
Proof.
  destruct (group_sentences_spec ss) as (Hcat & Hok & Hadj).
  rewrite <- Hcat at 2. by apply blocks_are_runs.
Qed.

(** The labels of integer speaker ids are equal only for equal ids. *)
Lemma speaker_name_int_inj s s' :
  int_speaker s -> int_speaker s' ->
  speaker_name s = speaker_name s' <-> speaker_id s = speaker_id s'.
Proof.
  unfold speaker_name. fold (speaker_id s) (speaker_id s').
  intros [z ->] [z' ->]. split; [|by intros ->].
  cbn [py_str]. intros H. apply (append_inj_l "Speaker ") in H.
  by apply str_of_Z_inj in H as ->.
Qed.

(** With integer speaker ids the blocks are the maximal runs of equal
    speaker id. *)
Lemma group_sentences_runs_by_id ss :
  Forall int_speaker ss ->
  sentences <$> group_sentences ss = runs_by speaker_id ss.
Proof.
  intros Hint. rewrite group_sentences_runs. apply runs_by_ext.
  rewrite Forall_forall in Hint.
  intros s s' Hs Hs'. apply speaker_name_int_inj; auto.
Qed.

(** *** From blocks to chunks *)

Lemma process_transcript_lookup t i c :
  process_transcript t !! i = Some c ->
  exists b, group_sentences (default [] (t_sentences t)) !! i = Some b /\
            c = make_chunk t (group_sentences (default [] (t_sentences t))) i b.
Proof.
  unfold process_transcript. rewrite list_lookup_imap.
  destruct (group_sentences _ !! i) as [b|]; simpl; [|done].
  intros [= <-]. eauto.
Qed.

Lemma process_transcript_length t :
  length (process_transcript t)
  = length (group_sentences (default [] (t_sentences t))).
Proof. apply length_imap. Qed.

Lemma process_transcript_speakers t :
  (fun c => m_speaker (metadata c)) <$> process_transcript t
  = speaker <$> group_sentences (default [] (t_sentences t)).
Proof.
  unfold process_transcript. rewrite fmap_imap. apply (imap_const speaker).
Qed.

Lemma process_transcript_texts t :
  text <$> process_transcript t
  = block_text <$> group_sentences (default [] (t_sentences t)).
Proof.
  unfold process_transcript. rewrite fmap_imap. apply (imap_const block_text).
Qed.

Lemma process_transcript_indices t :
  (fun c => m_chunk_index (metadata c)) <$> process_transcript t
  = seq 0 (length (process_transcript t)).
Proof.
  rewrite process_transcript_length. unfold process_transcript.
  rewrite fmap_imap.
  rewrite <- (list_fmap_id (seq 0 (length _))).
  apply (imap_seq_0 _ (fun i => i)).
Qed.

(** C3: the chunks of a transcript are numbered 0, 1, ..., total-1 in output
    order, every chunk records as [total_chunks] the number of speaker blocks,
    chunk [i] is built from block [i], the blocks are the maximal runs of
    sentences with one speaker label (one speaker id, when the ids are
    integers), and the blocks' sentence lists concatenated in order give back
    the transcript's sentence list. *)
Theorem C3_chunk_index_dense_and_order_preserved (t : transcript) :
  let ss := default [] (t_sentences t) in
  let blocks := group_sentences ss in
  let chunks := process_transcript t in
  (fun c => m_chunk_index (metadata c)) <$> chunks = seq 0 (length chunks) /\
  Forall (fun c => m_total_chunks (metadata c) = length blocks) chunks /\
  length chunks = length blocks /\
  text <$> chunks = block_text <$> blocks /\
  (fun c => m_speaker (metadata c)) <$> chunks = speaker <$> blocks /\
  sentences <$> blocks = runs_by speaker_name ss /\
  (Forall int_speaker ss -> sentences <$> blocks = runs_by speaker_id ss) /\
  concat (sentences <$> blocks) = ss.
Proof.
  intros ss blocks chunks. repeat apply conj.
  - apply process_transcript_indices.
  - apply Forall_forall. intros c Hc.
    apply list_elem_of_lookup in Hc as [i Hi].
    apply process_transcript_lookup in Hi as (b & _ & ->). reflexivity.
  - apply process_transcript_length.
  - apply process_transcript_texts.
  - apply process_transcript_speakers.
  - apply group_sentences_runs.
  - apply group_sentences_runs_by_id.
  - apply group_sentences_spec.
Qed.

(** C4: neighbouring chunks never carry the same speaker label; the blocks
    behind them are non-empty runs of sentences of one speaker each, so every
    chunk is a maximal single-speaker run. *)
Theorem C4_consecutive_chunks_change_speaker (t : transcript) :
  no_adjacent_dup ((fun c => m_speaker (metadata c)) <$> process_transcript t) /\
  Forall block_ok (group_sentences (default [] (t_sentences t))) /\
  sentences <$> group_sentences (default [] (t_sentences t))
  = runs_by speaker_name (default [] (t_sentences t)).
Proof.
  destruct (group_sentences_spec (default [] (t_sentences t))) as (_ & Hok & Hadj).
  split; [|split; [exact Hok|apply group_sentences_runs]].
  rewrite process_transcript_speakers. exact Hadj.
Qed.

Lemma speaker_at_is_Some blocks j :
  Forall block_ok blocks -> (j < length blocks)%nat -> is_Some (speaker_at blocks j).
Proof.
  intros Hok Hj. unfold speaker_at.
  destruct (lookup_lt_is_Some_2 blocks j Hj) as [b Hb]. rewrite Hb. simpl.
  rewrite Forall_forall in Hok.
  destruct (Hok b) as [Hne Hall]; [by eapply list_elem_of_lookup_2|].
  destruct (sentences b) as [|s rest]; [done|].
  apply Forall_cons in Hall as [-> _]. eauto.
Qed.

Lemma group_sentences_nonempty ss : ss <> [] -> group_sentences ss <> [].
Proof.
  intros Hss Hnil. destruct (group_sentences_spec ss) as (Hcat & _).
  rewrite Hnil in Hcat. simpl in Hcat. congruence.
Qed.

(** C10: when the transcript has a sentence, the first chunk's [prev_speaker]
    and the last chunk's [next_speaker] are the string "None", and no chunk
    has Python's [None] in either adjacency field. *)
Theorem C10_boundary_speakers_are_the_string_None (t : transcript) :
  default [] (t_sentences t) <> [] ->
  let chunks := process_transcript t in
  (exists c, head chunks = Some c /\ m_prev_speaker (metadata c) = Some "None") /\
  (exists c, last chunks = Some c /\ m_next_speaker (metadata c) = Some "None") /\
  Forall (fun c => is_Some (m_prev_speaker (metadata c)) /\
                   is_Some (m_next_speaker (metadata c))) chunks.
Proof.
  intros Hss chunks. subst chunks.
  pose proof (group_sentences_nonempty _ Hss) as Hne.
  destruct (group_sentences_spec (default [] (t_sentences t))) as (_ & Hok & _).
  unfold process_transcript.
  set (blocks := group_sentences (default [] (t_sentences t))) in *.
  split; [|split].
  - destruct blocks as [|b bs] eqn:Hb; [done|]. rewrite <- Hb.
    exists (make_chunk t blocks 0 b). split.
    + rewrite Hb at 2. reflexivity.
    + reflexivity.
  - destruct (lookup_lt_is_Some_2 blocks (pred (length blocks))) as [b Hb].
    { destruct blocks; [done|simpl; lia]. }
    exists (make_chunk t blocks (pred (length blocks)) b). split.
    + rewrite last_lookup, length_imap, list_lookup_imap, Hb. reflexivity.
    + simpl. case_decide; [lia|reflexivity].
  - apply Forall_forall. intros c Hc.
    apply list_elem_of_lookup in Hc as [i Hi].
    rewrite list_lookup_imap in Hi.
    destruct (blocks !! i) as [b|] eqn:Hb; [|done].
    simpl in Hi. injection Hi as <-.
    apply lookup_lt_Some in Hb. simpl. split.
    + case_decide; [|eauto]. apply speaker_at_is_Some; [done|lia].
    + case_decide; [|eauto]. apply speaker_at_is_Some; [done|lia].
Qed.

Lemma C10_boundary_speakers_are_the_string_None_witness :
  let chunks := process_transcript silent_transcript in
  (exists c, head chunks = Some c /\ m_prev_speaker (metadata c) = Some "None") /\
  (exists c, last chunks = Some c /\ m_next_speaker (metadata c) = Some "None") /\
  Forall (fun c => is_Some (m_prev_speaker (metadata c)) /\
                   is_Some (m_next_speaker (metadata c))) chunks.
Proof.
  apply (C10_boundary_speakers_are_the_string_None silent_transcript).
  simpl. discriminate.
Defined.

End GraphqlFacts.


(** ** The chunking example *)

Module ChunkExample.
Import Graphql GraphqlMain PyFacts.

Lemma speaker_name_utt_inj s1 s2 x y :
  speaker_name (utt s1 x) = speaker_name (utt s2 y) -> s1 = s2.
Proof.
  unfold speaker_name, utt. cbn [s_speaker_id default from_option py_str]. intros H.
  apply (append_inj_l "Speaker ") in H. by apply str_of_Z_inj.
Qed.

(** The grouping loop keeps the open block when the speaker is unchanged. *)
Lemma group_step_same st s :
  current_speaker st = Some (speaker_name s) ->
  group_step st s
  = GroupState (speaker_blocks st) (Some (speaker_name s)) (current_block st ++ [s]).
Proof.
  intros H. unfold group_step.
  rewrite (bool_decide_eq_false_2 (current_speaker st <> _)) by (intros Hne; by apply Hne).
  reflexivity.
Qed.

Lemma group_step_first s :
  group_step group_init s = GroupState [] (Some (speaker_name s)) [s].
Proof.
  unfold group_step, group_init. cbn [current_block current_speaker speaker_blocks].
  rewrite (bool_decide_eq_false_2 ([] <> [])) by (intros Hne; by apply Hne).
  rewrite andb_false_r. reflexivity.
Qed.

(** It closes the open block when the speaker changes. *)
Lemma group_step_change st s :
  current_speaker st <> Some (speaker_name s) -> current_block st <> [] ->
  group_step st s
  = GroupState
      (speaker_blocks st ++ [SpeakerBlock (current_speaker st) (current_block st)])
      (Some (speaker_name s)) [s].
Proof.
  intros H1 H2. unfold group_step.
  rewrite !bool_decide_eq_true_2 by done. reflexivity.
Qed.

Lemma group_two_then_one a b c :
  speaker_name a = speaker_name b -> speaker_name b <> speaker_name c ->
  group_sentences [a; b; c]
  = [SpeakerBlock (Some (speaker_name a)) [a; b];
     SpeakerBlock (Some (speaker_name c)) [c]].
Proof.
  intros Hab Hbc.
  unfold group_sentences. cbn [fold_left].
  rewrite group_step_first.
  rewrite (group_step_same _ b) by (cbn [current_speaker]; congruence).
  rewrite group_step_change; cbn [current_speaker current_block speaker_blocks app].
  - unfold group_finish. cbn [current_speaker current_block speaker_blocks app].
    rewrite bool_decide_eq_true_2 by done. by rewrite Hab.
  - congruence.
  - done.
Qed.

Theorem C5_two_speakers_three_utterances (s1 s2 : Z) (t : transcript) :
  s1 <> s2 ->
  t_sentences t = Some [utt s1 "hi"; utt s1 "there"; utt s2 "hey"] ->
  exists c0 c1,
    process_transcript t = [c0; c1] /\
    m_chunk_index (metadata c0) = 0%nat /\
    m_speaker (metadata c0) = Some ("Speaker " +:+ str_of_Z s1) /\
    text c0 = "hi there" /\
    m_next_speaker (metadata c0) = Some ("Speaker " +:+ str_of_Z s2) /\
    m_chunk_index (metadata c1) = 1%nat /\
    m_speaker (metadata c1) = Some ("Speaker " +:+ str_of_Z s2) /\
    text c1 = "hey" /\
    m_prev_speaker (metadata c1) = Some ("Speaker " +:+ str_of_Z s1).
Proof.
  intros Hne Hss. unfold process_transcript. rewrite Hss.
  cbn [default from_option id].
  rewrite group_two_then_one.
  - eexists _, _. split; [reflexivity|]. repeat split.
  - reflexivity.
  - intros H. apply speaker_name_utt_inj in H. done.
Qed.

Lemma C5_two_speakers_three_utterances_witness :
  exists c0 c1,
    process_transcript
      (Transcript (Some (PyStr "T1")) None None None None
         (Some [utt 1 "hi"; utt 1 "there"; utt 2 "hey"])) = [c0; c1] /\
    m_chunk_index (metadata c0) = 0%nat /\
    m_speaker (metadata c0) = Some "Speaker 1" /\
    text c0 = "hi there" /\
    m_next_speaker (metadata c0) = Some "Speaker 2" /\
    m_chunk_index (metadata c1) = 1%nat /\
    m_speaker (metadata c1) = Some "Speaker 2" /\
    text c1 = "hey" /\
    m_prev_speaker (metadata c1) = Some "Speaker 1".
Proof.
  apply (C5_two_speakers_three_utterances 1 2); [lia|reflexivity].
Defined.

End ChunkExample.
(** ** Facts about computations and their events *)

Module WorldFacts.

Section Laws.
Context {R : Type}.

Lemma events_ret {A} (a : A) n : events (ret (R:=R) a) n = [].
Proof. reflexivity. Qed.

Lemma events_emit (ev : event R) n : events (emit ev) n = [ev].
Proof. reflexivity. Qed.

Lemma requests_after_emit (ev : event R) n : requests_after (emit ev) n = n.
Proof. reflexivity. Qed.

Lemma events_bind {A B} (m : M R A) (k : A -> M R B) n :
  events (bind m k) n
  = events m n ++ events (k (result m n)) (requests_after m n).
Proof.
  unfold events, result, requests_after, bind.
  destruct (m n) as [[a n1] evs1]. simpl.
  destruct (k a n1) as [[b n2] evs2]. reflexivity.
Qed.

Lemma result_bind {A B} (m : M R A) (k : A -> M R B) n :
  result (bind m k) n = result (k (result m n)) (requests_after m n).
Proof.
  unfold events, result, requests_after, bind.
  destruct (m n) as [[a n1] evs1]. simpl.
  destruct (k a n1) as [[b n2] evs2]. reflexivity.
Qed.

Lemma requests_after_bind {A B} (m : M R A) (k : A -> M R B) n :
  requests_after (bind m k) n
  = requests_after (k (result m n)) (requests_after m n).
Proof.
  unfold events, result, requests_after, bind.
  destruct (m n) as [[a n1] evs1]. simpl.
  destruct (k a n1) as [[b n2] evs2]. reflexivity.
Qed.

Lemma events_embeddings_create svc input n :
  events (embeddings_create (R:=R) svc input) n = [EvEmbedRequest input (svc n input)].
Proof. reflexivity. Qed.

Lemma result_embeddings_create svc input n :
  result (embeddings_create (R:=R) svc input) n = svc n input.
Proof. reflexivity. Qed.

Lemma requests_after_embeddings_create svc input n :
  requests_after (embeddings_create (R:=R) svc input) n = S n.
Proof. reflexivity. Qed.

Lemma result_ret {A} (a : A) n : result (ret (R:=R) a) n = a.
Proof. reflexivity. Qed.

Lemma requests_after_ret {A} (a : A) n : requests_after (ret (R:=R) a) n = n.
Proof. reflexivity. Qed.

Lemma events_log level msg n : events (log (R:=R) level msg) n = [EvLog level msg].
Proof. reflexivity. Qed.

Lemma requests_after_log level msg n : requests_after (log (R:=R) level msg) n = n.
Proof. reflexivity. Qed.

(** A homomorphic observation of a loop is the concatenation of the
    observations of its iterations, whatever the request counter is. *)
Lemma for_each_observe {A B} (obs : list (event R) -> list B)
    (body : A -> M R unit) (f : A -> list B) xs n :
  obs [] = [] ->
  (forall l1 l2, obs (l1 ++ l2) = obs l1 ++ obs l2) ->
  (forall x k, obs (events (body x) k) = f x) ->
  obs (events (for_each xs body) n) = concat (f <$> xs).
Proof.
  intros Hnil Happ Hbody. revert n.
  induction xs as [|x xs IH]; intros n; simpl.
  - by rewrite events_ret.
  - rewrite events_bind, Happ, Hbody, IH. reflexivity.
Qed.

End Laws.

Create Rewrite HintDb world.

#[export] Hint Rewrite @events_bind @result_bind @requests_after_bind
  @events_ret @result_ret @requests_after_ret
  @events_emit @requests_after_emit @events_log @requests_after_log
  @events_embeddings_create @result_embeddings_create
  @requests_after_embeddings_create : world.

(** Unfold the events, result and request count of a straight-line
    computation. *)
Ltac step_world := autorewrite with world; cbn [app].

End WorldFacts.

Import WorldFacts.

(** ** Vector ids *)

Module VectorIds.
Import Graphql GraphqlMain PyFacts.

Lemma graphql_vector_id_inj t1 i1 t2 i2 :
  GraphqlMain.vector_id t1 i1 = GraphqlMain.vector_id t2 i2 -> t1 = t2 /\ i1 = i2.
Proof.
  unfold GraphqlMain.vector_id. intros H.
  apply (append_inj_l "fireflies_") in H.
  apply split_at_last in H as [-> H]; try apply str_of_Z_no_underscore.
  apply str_of_Z_inj in H. split; [done|lia].
Qed.

Lemma rest_vector_id_inj t1 t2 : Rest.vector_id t1 = Rest.vector_id t2 -> t1 = t2.
Proof. unfold Rest.vector_id. apply append_inj_l. Qed.

Lemma create_embedding_writes_nothing svc txt n :
  written (events (GraphqlMain.create_embedding svc txt) n) = [].
Proof.
  unfold GraphqlMain.create_embedding. step_world.
  destruct (svc n txt); step_world; [reflexivity|].
  destruct (svc _ txt); step_world; reflexivity.
Qed.

(** Every record the chunk loop writes carries the id computed from the
    transcript id and the chunk's index. *)
Lemma export_chunk_written_ids a e tid c n :
  Forall (fun out => o_id out = GraphqlMain.vector_id tid (m_chunk_index (metadata c)))
    (written (events (export_chunk a e tid c) n)).
Proof.
  unfold export_chunk. step_world. unfold written. rewrite omap_app.
  fold (written (events (create_embedding (GraphqlMain.embed e) (text c)) n)).
  rewrite create_embedding_writes_nothing. cbn [app].
  destruct (result _ n) as [emb|]; step_world.
  - destruct (opt_truthy (namespace a)); step_world.
    + destruct (upsert_ok e _); step_world; cbn; by repeat constructor.
    + cbn. by repeat constructor.
  - cbn. constructor.
Qed.

Lemma rest_process_transcript_id a e tid n v :
  result (Rest.process_transcript a e tid) n = Some v ->
  Rest.v_id v = Rest.vector_id tid.
Proof.
  unfold Rest.process_transcript. step_world.
  destruct (Rest.get_transcript_details e tid) as [t|]; [|by step_world].
  destruct (Rest.transcript_truthy _); [|by step_world].
  step_world.
  destruct (result (Rest.create_embedding _ _) _) as [emb|]; [|by step_world].
  destruct (Rest.embedding_truthy _); step_world; [|done].
  by intros [= <-].
Qed.

(** C8: the vector id is a function of the transcript id and the chunk index
    alone (of the transcript id alone in the REST exporter, which writes one
    vector per transcript): the id of every written record is that function of
    its transcript and chunk, whatever the options, the collaborators and the
    history of the run, and different inputs give different ids. *)
Theorem C8_vector_id_deterministic_and_injective :
  (forall t1 i1 t2 i2,
     GraphqlMain.vector_id t1 i1 = GraphqlMain.vector_id t2 i2 <-> t1 = t2 /\ i1 = i2) /\
  (forall t1 t2, Rest.vector_id t1 = Rest.vector_id t2 <-> t1 = t2) /\
  (forall a e tid c n,
     Forall (fun out => o_id out
                        = GraphqlMain.vector_id tid (m_chunk_index (metadata c)))
       (written (events (export_chunk a e tid c) n))) /\
  (forall a e tid n v,
     result (Rest.process_transcript a e tid) n = Some v ->
     Rest.v_id v = Rest.vector_id tid).
Proof.
  split; [|split; [|split]].
  - intros. split; [apply graphql_vector_id_inj|by intros [-> ->]].
  - intros. split; [apply rest_vector_id_inj|by intros ->].
  - apply export_chunk_written_ids.
  - apply rest_process_transcript_id.
Qed.

End VectorIds.
(** ** Batching: ranges and slices *)

Module BatchFacts.

Lemma concat_take_drop {A} (b : nat) (l : list A) (c : nat) :
  (0 < b)%nat -> (length l <= c * b)%nat ->
  concat ((fun k => take b (drop (k * b) l)) <$> seq 0 c) = l.
Proof.
  intros Hb. revert l. induction c as [|c IH]; intros l Hlen.
  - destruct l; [done|simpl in Hlen; lia].
  - cbn [seq fmap list_fmap concat]. rewrite <- fmap_S_seq, <- list_fmap_compose.
    rewrite Nat.mul_0_l, drop_0.
    transitivity (take b l ++ drop b l); [|apply take_drop]. f_equal.
    transitivity (concat ((fun k => take b (drop (k * b) (drop b l))) <$> seq 0 c)).
    + f_equal. apply list_fmap_ext. intros _ k _. simpl.
      rewrite drop_drop. first [reflexivity|do 2 f_equal; lia].
    + apply IH. rewrite length_drop. lia.
Qed.

(** With a positive step, the slices [xs[i:i+step]] taken at the points of
    [range(0, len(xs), step)] are the list cut into consecutive pieces. *)
Lemma batches_cover {A} (xs : list A) (step : Z) :
  0 < step ->
  exists starts,
    range 0 (Z.of_nat (length xs)) step = Some starts /\
    concat ((fun i => slice xs i (i + step)) <$> starts) = xs.
Proof.
  intros Hstep. unfold range.
  destruct (decide (step = 0)) as [|_]; [lia|].
  destruct (decide (0 < step)) as [_|]; [|lia].
  eexists. split; [reflexivity|].
  rewrite <- list_fmap_compose.
  set (c := Z.to_nat ((Z.of_nat (length xs) - 0 + step - 1) / step)).
  transitivity (concat ((fun k => take (Z.to_nat step)
                                      (drop (k * Z.to_nat step) xs)) <$> seq 0 c));
    [|apply concat_take_drop].
  - f_equal. apply list_fmap_ext. intros _ k _. simpl. unfold slice.
    destruct (decide (0 + Z.of_nat k * step + step < 0)) as [|_]; [nia|].
    f_equal; [f_equal; lia|]. f_equal. nia.
  - lia.
  - subst c.
    assert (Hc : Z.of_nat (length xs) <=
                 (Z.of_nat (length xs) - 0 + step - 1) / step * step).
    { pose proof (Z.div_mod (Z.of_nat (length xs) - 0 + step - 1) step ltac:(lia)).
      pose proof (Z.mod_pos_bound (Z.of_nat (length xs) - 0 + step - 1) step Hstep).
      nia. }
    assert (0 <= (Z.of_nat (length xs) - 0 + step - 1) / step)
      by (apply Z.div_pos; lia).
    nia.
Qed.

(** A negative step gives no batch at all. *)
Lemma range_negative_step (n step : Z) :
  0 <= n -> step < 0 -> range 0 n step = Some [].
Proof.
  intros Hn Hstep. unfold range.
  destruct (decide (step = 0)); [lia|].
  destruct (decide (0 < step)); [lia|].
  replace (Z.to_nat ((0 - n - step - 1) / - step)) with 0%nat; [done|].
  assert ((0 - n - step - 1) / - step < 1); [|lia].
  apply Z.div_lt_upper_bound; lia.
Qed.

End BatchFacts.
(** ** Which transcripts a run processes, and in which order *)

Module RunOrder.
Import BatchFacts.

Lemma processing_order_app {R} (l1 l2 : list (event R)) :
  processing_order (l1 ++ l2) = processing_order l1 ++ processing_order l2.
Proof. apply omap_app. Qed.

Lemma processing_order_cons {R} (ev : event R) l :
  processing_order (ev :: l)
  = match ev with
    | EvProcessing tid => tid :: processing_order l
    | _ => processing_order l
    end.
Proof. by destruct ev. Qed.

(** Push [processing_order] through the visible part of an event list. *)
Ltac order_simpl :=
  repeat (rewrite processing_order_app || rewrite processing_order_cons);
  cbv beta iota; cbn [app].

Lemma concat_singletons {A} (xs : list A) : concat ((fun x => [x]) <$> xs) = xs.
Proof.
  induction xs as [|x xs IH]; [done|].
  rewrite fmap_cons. simpl. by rewrite IH.
Qed.

Lemma concat_nils {A B} (xs : list A) : concat ((fun _ => @nil B) <$> xs) = [].
Proof.
  induction xs as [|x xs IH]; [done|].
  rewrite fmap_cons. simpl. by rewrite IH.
Qed.

(** *** GraphQL *)

Lemma graphql_create_embedding_order svc txt n :
  processing_order (events (GraphqlMain.create_embedding svc txt) n) = [].
Proof.
  unfold GraphqlMain.create_embedding. step_world.
  destruct (svc n txt); step_world; [reflexivity|].
  destruct (svc _ txt); step_world; reflexivity.
Qed.

Lemma graphql_export_chunk_order a e tid c n :
  processing_order (events (GraphqlMain.export_chunk a e tid c) n) = [].
Proof.
  unfold GraphqlMain.export_chunk. step_world.
  rewrite processing_order_app, graphql_create_embedding_order. cbn [app].
  destruct (result _ n) as [emb|]; step_world; [|reflexivity].
  destruct (GraphqlMain.opt_truthy _); step_world; [|reflexivity].
  destruct (GraphqlMain.upsert_ok e _); step_world; reflexivity.
Qed.

Lemma graphql_export_transcript_order a e tid n :
  processing_order (events (GraphqlMain.export_transcript a e tid) n) = [tid].
Proof.
  unfold GraphqlMain.export_transcript. step_world.
  order_simpl. f_equal.
  destruct (GraphqlMain.fetch_transcript_details e tid) as [t|]; [|by step_world].
  destruct (GraphqlMain.transcript_truthy _); [|by step_world].
  cbv zeta. case_bool_decide; [by step_world|].
  step_world. rewrite !processing_order_app.
  rewrite (for_each_observe processing_order _ (fun _ => [])); 
    auto using processing_order_app, graphql_export_chunk_order.
  by rewrite concat_nils.
Qed.

Lemma graphql_handle_resume_order a ids n :
  processing_order (events (GraphqlMain.handle_resume a ids) n) = [] /\
  requests_after (GraphqlMain.handle_resume a ids) n = n.
Proof.
  unfold GraphqlMain.handle_resume.
  destruct (GraphqlMain.resume_from a) as [r|]; [|by step_world].
  destruct (str_truthy r); [|by step_world].
  destruct (index r ids); by step_world.
Qed.

(** The GraphQL run processes exactly the list [handle_resume] returns. *)
Lemma graphql_main_order a e processed ids n :
  processing_order (events (GraphqlMain.main a e processed ids) n)
  = result (GraphqlMain.handle_resume a (GraphqlMain.unprocessed a processed ids)) n.
Proof.
  unfold GraphqlMain.main. cbv zeta. step_world.
  rewrite processing_order_app.
  destruct (graphql_handle_resume_order a (GraphqlMain.unprocessed a processed ids) n)
    as [-> ->]. cbn [app].
  rewrite (for_each_observe processing_order _ (fun x => [x]));
    auto using processing_order_app, graphql_export_transcript_order.
  apply concat_singletons.
Qed.

(** *** REST *)

Lemma rest_attempts_order svc txt todo n :
  processing_order (events (Rest.attempts svc txt todo) n) = [].
Proof.
  revert n. induction todo as [|attempt todo IH]; intros n; simpl; [done|].
  step_world. destruct (svc n txt); step_world; [reflexivity|].
  case_decide; step_world; [|reflexivity].
  order_simpl. apply IH.
Qed.

Lemma rest_create_embedding_order svc txt n :
  processing_order (events (Rest.create_embedding svc txt) n) = [].
Proof.
  unfold Rest.create_embedding. destruct (range _ _ _); [|done].
  apply rest_attempts_order.
Qed.

Lemma rest_process_transcript_order a e tid n :
  processing_order (events (Rest.process_transcript a e tid) n) = [tid].
Proof.
  unfold Rest.process_transcript. step_world.
  order_simpl. f_equal.
  destruct (Rest.get_transcript_details e tid) as [t|]; [|by step_world].
  destruct (Rest.transcript_truthy _); [|by step_world].
  step_world. rewrite processing_order_app, rest_create_embedding_order. cbn [app].
  destruct (result (Rest.create_embedding _ _) _) as [emb|]; [|by step_world].
  destruct (Rest.embedding_truthy _); by step_world.
Qed.

Lemma rest_process_one_order a e acc tid n :
  processing_order (events (Rest.process_one a e acc tid) n) = [tid].
Proof.
  unfold Rest.process_one. step_world.
  order_simpl. rewrite rest_process_transcript_order. reflexivity.
Qed.

Lemma rest_process_batch_order a e batch acc n :
  processing_order (events (Rest.process_batch a e batch acc) n) = batch.
Proof.
  revert acc n. induction batch as [|tid batch IH]; intros acc n; simpl; [done|].
  step_world. rewrite processing_order_app, rest_process_one_order, IH. reflexivity.
Qed.

Lemma rest_batch_step_order a e ids p i n :
  processing_order (events (Rest.batch_step a e ids p i) n)
  = slice ids i (i + Rest.batch_size a).
Proof.
  unfold Rest.batch_step. step_world.
  order_simpl. rewrite rest_process_batch_order.
  match goal with
  | |- _ ++ processing_order ?evs ++ _ = _ =>
      assert (processing_order evs = []) as ->
  end.
  { case_bool_decide; step_world; [|done].
    destruct (Rest.format a); step_world; [|done].
    rewrite (for_each_observe processing_order _ (fun _ => []));
      auto using processing_order_app.
    by rewrite concat_nils. }
  apply app_nil_r.
Qed.

Lemma rest_batches_order a e ids starts p n :
  processing_order (events (Rest.batches a e ids starts p) n)
  = concat ((fun i => slice ids i (i + Rest.batch_size a)) <$> starts).
Proof.
  revert p n. induction starts as [|i starts IH]; intros p n; simpl; [done|].
  step_world. rewrite processing_order_app, rest_batch_step_order, IH. reflexivity.
Qed.

Lemma rest_handle_resume_order a ids n :
  processing_order (events (Rest.handle_resume a ids) n) = [] /\
  requests_after (Rest.handle_resume a ids) n = n.
Proof.
  unfold Rest.handle_resume.
  destruct (Rest.resume_from a) as [r|]; [|by step_world].
  destruct (str_truthy r); [|by step_world].
  destruct (index r ids); by step_world.
Qed.

(** With a positive batch size the REST run processes exactly the list
    [handle_resume] returns, batch after batch. *)
Lemma rest_main_order a e checkpoint ids n :
  0 < Rest.batch_size a ->
  processing_order (events (Rest.main a e checkpoint ids) n)
  = result (Rest.handle_resume a (Rest.remaining checkpoint ids)) n.
Proof.
  intros Hbs. unfold Rest.main. cbv zeta. step_world.
  order_simpl.
  destruct (rest_handle_resume_order a (Rest.remaining checkpoint ids) n) as [-> ->].
  cbn [app].
  set (todo := result (Rest.handle_resume a (Rest.remaining checkpoint ids)) n).
  destruct (batches_cover todo (Rest.batch_size a) Hbs) as (starts & -> & Hcover).
  rewrite rest_batches_order, Hcover.
  match goal with
  | |- _ ++ processing_order ?evs = _ => assert (processing_order evs = []) as ->
  end.
  { destruct (Rest.format a); [done|]. case_bool_decide; by step_world. }
  apply app_nil_r.
Qed.

End RunOrder.
(** ** Filtering by the checkpoint and resuming *)

Module Resume.
Import PyFacts RunOrder.

Lemma str_truthy_true s : s <> "" -> str_truthy s = true.
Proof.
  intros H. unfold str_truthy. destruct (String.eqb_spec s ""); [done|reflexivity].
Qed.

Lemma filter_not_in_empty (s : gset string) (ids : list string) :
  s = ∅ -> filter (fun id => id ∉ s) ids = ids.
Proof.
  intros Hs. induction ids as [|id ids IH]; [done|].
  rewrite filter_cons_True by (rewrite Hs; apply not_elem_of_empty).
  by rewrite IH.
Qed.

(** The REST filter keeps the ids outside the checkpoint, also when the
    checkpoint is empty and the comprehension is skipped. *)
Lemma rest_remaining_filter (checkpoint : gset string) ids :
  Rest.remaining checkpoint ids = filter (fun id => id ∉ checkpoint) ids.
Proof.
  unfold Rest.remaining. case_decide as H; [|done].
  by rewrite filter_not_in_empty.
Qed.

Lemma graphql_unprocessed_filter a processed ids :
  GraphqlMain.force a = false ->
  GraphqlMain.unprocessed a processed ids = filter (fun id => id ∉ processed) ids.
Proof.
  intros Hforce. unfold GraphqlMain.unprocessed.
  apply list_filter_iff. intros id. rewrite Hforce.
  split; [intros [H|H]; [done|discriminate]|by left].
Qed.

Lemma index_second (C D E : string) : C <> D -> index D [C; D; E] = Some 1%nat.
Proof.
  intros H. simpl. rewrite decide_False by done. by rewrite decide_True.
Qed.

Lemma graphql_resume_none a ids n :
  GraphqlMain.resume_from a = None ->
  result (GraphqlMain.handle_resume a ids) n = ids.
Proof. unfold GraphqlMain.handle_resume. by intros ->. Qed.

Lemma graphql_resume_found a ids r k n :
  GraphqlMain.resume_from a = Some r -> r <> "" -> index r ids = Some k ->
  result (GraphqlMain.handle_resume a ids) n = drop k ids /\
  events (GraphqlMain.handle_resume a ids) n = [].
Proof.
  unfold GraphqlMain.handle_resume. intros -> Hr ->.
  by rewrite str_truthy_true.
Qed.

Lemma graphql_resume_absent a ids r n :
  GraphqlMain.resume_from a = Some r -> r <> "" -> r ∉ ids ->
  result (GraphqlMain.handle_resume a ids) n = ids /\
  events (GraphqlMain.handle_resume a ids) n
  = [EvLog Warning "Resume point not found in transcript list"].
Proof.
  unfold GraphqlMain.handle_resume. intros -> Hr Hin.
  apply index_None in Hin as ->. by rewrite str_truthy_true.
Qed.

Lemma rest_resume_none a ids n :
  Rest.resume_from a = None -> result (Rest.handle_resume a ids) n = ids.
Proof. unfold Rest.handle_resume. by intros ->. Qed.

Lemma rest_resume_found a ids r k n :
  Rest.resume_from a = Some r -> r <> "" -> index r ids = Some k ->
  result (Rest.handle_resume a ids) n = drop k ids /\
  events (Rest.handle_resume a ids) n = [].
Proof.
  unfold Rest.handle_resume. intros -> Hr ->. by rewrite str_truthy_true.
Qed.

Lemma rest_resume_absent a ids r n :
  Rest.resume_from a = Some r -> r <> "" -> r ∉ ids ->
  result (Rest.handle_resume a ids) n = ids /\
  events (Rest.handle_resume a ids) n
  = [EvLog Warning "Resume ID not found in transcript list"].
Proof.
  unfold Rest.handle_resume. intros -> Hr Hin.
  apply index_None in Hin as ->. by rewrite str_truthy_true.
Qed.

(** C2: a run without a resume point (and, for the GraphQL script, without
    --force) processes exactly the listed ids that are not in the loaded
    checkpoint, in list order; the REST script does so for every positive
    batch size. *)
Theorem C2_fresh_run_processes_ids_outside_checkpoint
    (ra : Rest.args) (re : Rest.env) (checkpoint : gset string)
    (ga : GraphqlMain.args) (ge : GraphqlMain.env) (processed : list string)
    (transcript_ids : list string) (n : nat) :
  0 < Rest.batch_size ra -> Rest.resume_from ra = None ->
  GraphqlMain.force ga = false -> GraphqlMain.resume_from ga = None ->
  processing_order (events (Rest.main ra re checkpoint transcript_ids) n)
  = filter (fun id => id ∉ checkpoint) transcript_ids /\
  processing_order (events (GraphqlMain.main ga ge processed transcript_ids) n)
  = filter (fun id => id ∉ processed) transcript_ids.
Proof.
  intros Hbs Hrr Hforce Hgr. split.
  - rewrite rest_main_order by done.
    rewrite rest_resume_none by done. apply rest_remaining_filter.
  - rewrite graphql_main_order, graphql_resume_none by done.
    by apply graphql_unprocessed_filter.
Qed.

Lemma C2_fresh_run_processes_ids_outside_checkpoint_witness :
  processing_order
    (events (Rest.main demo_rest_args demo_rest_env {[ "A"; "B" ]} ["A"; "B"; "C"]) 0)
  = ["C"] /\
  processing_order
    (events (GraphqlMain.main demo_graphql_args demo_graphql_env ["A"; "B"]
               ["A"; "B"; "C"]) 0)
  = ["C"].
Proof.
  destruct (C2_fresh_run_processes_ids_outside_checkpoint
              demo_rest_args demo_rest_env {[ "A"; "B" ]}
              demo_graphql_args demo_graphql_env ["A"; "B"]
              ["A"; "B"; "C"] 0) as [Hrest Hgraphql];
    [reflexivity| reflexivity | reflexivity | reflexivity |].
  rewrite Hrest, Hgraphql. split; vm_compute; reflexivity.
Defined.

Lemma warnings_app {R} (l1 l2 : list (event R)) :
  warnings (l1 ++ l2) = warnings l1 ++ warnings l2.
Proof. apply omap_app. Qed.

(** C9: with the filtered list [C; D; E] and resume id D, both exporters
    process D and E and skip C; with a resume id that is not in the filtered
    list they log a warning and process the whole filtered list.  (The REST
    loop needs a positive batch size to process anything.) *)
Theorem C9_resume_from_truncates_or_warns
    (ra : Rest.args) (re : Rest.env) (checkpoint : gset string)
    (ga : GraphqlMain.args) (ge : GraphqlMain.env) (processed : list string)
    (transcript_ids : list string) (r : string) (n : nat) :
  0 < Rest.batch_size ra ->
  Rest.resume_from ra = Some r -> GraphqlMain.resume_from ga = Some r ->
  r <> "" ->
  let rest_ids := Rest.remaining checkpoint transcript_ids in
  let graphql_ids := GraphqlMain.unprocessed ga processed transcript_ids in
  let rest_events := events (Rest.main ra re checkpoint transcript_ids) n in
  let graphql_events := events (GraphqlMain.main ga ge processed transcript_ids) n in
  (forall C E, C <> r -> rest_ids = [C; r; E] ->
     processing_order rest_events = [r; E]) /\
  (forall C E, C <> r -> graphql_ids = [C; r; E] ->
     processing_order graphql_events = [r; E]) /\
  (r ∉ rest_ids ->
     processing_order rest_events = rest_ids /\
     "Resume ID not found in transcript list" ∈ warnings rest_events) /\
  (r ∉ graphql_ids ->
     processing_order graphql_events = graphql_ids /\
     "Resume point not found in transcript list" ∈ warnings graphql_events).
Proof.
  intros Hbs Hrr Hgr Hr rest_ids graphql_ids rest_events graphql_events.
  subst rest_events graphql_events. repeat split.
  - intros C E HC Hids. rewrite rest_main_order by done. fold rest_ids.
    rewrite Hids.
    by destruct (rest_resume_found ra [C; r; E] r 1 n Hrr Hr (index_second C r E HC))
      as [-> _].
  - intros C E HC Hids. rewrite graphql_main_order. fold graphql_ids.
    rewrite Hids.
    by destruct (graphql_resume_found ga [C; r; E] r 1 n Hgr Hr (index_second C r E HC))
      as [-> _].
  - rewrite rest_main_order by done. fold rest_ids.
    by destruct (rest_resume_absent ra rest_ids r n Hrr Hr) as [-> _].
  - destruct (rest_resume_absent ra rest_ids r n Hrr Hr) as [_ Hev]; [done|].
    unfold Rest.main. cbv zeta. fold rest_ids. rewrite events_bind, warnings_app, Hev.
    apply elem_of_app. left. cbn. by left.
  - rewrite graphql_main_order. fold graphql_ids.
    by destruct (graphql_resume_absent ga graphql_ids r n Hgr Hr) as [-> _].
  - destruct (graphql_resume_absent ga graphql_ids r n Hgr Hr) as [_ Hev]; [done|].
    unfold GraphqlMain.main. cbv zeta. fold graphql_ids.
    rewrite events_bind, warnings_app, Hev.
    apply elem_of_app. left. cbn. by left.
Qed.

Lemma C9_resume_from_truncates_or_warns_witness :
  processing_order
    (events (Rest.main (Rest.Args Rest.Jsonl 10 (Some "D") "") demo_rest_env
               {[ "A"; "B" ]} ["A"; "B"; "C"; "D"; "E"]) 0)
  = ["D"; "E"] /\
  processing_order
    (events (GraphqlMain.main (GraphqlMain.Args (Some "D") None false)
               demo_graphql_env ["A"; "B"] ["A"; "B"; "C"; "D"; "E"]) 0)
  = ["D"; "E"].
Proof.
  destruct (C9_resume_from_truncates_or_warns
              (Rest.Args Rest.Jsonl 10 (Some "D") "") demo_rest_env {[ "A"; "B" ]}
              (GraphqlMain.Args (Some "D") None false) demo_graphql_env ["A"; "B"]
              ["A"; "B"; "C"; "D"; "E"] "D" 0)
    as (Hrest & Hgraphql & _); [reflexivity|reflexivity|reflexivity|discriminate|].
  split.
  - apply (Hrest "C" "E"); [discriminate|vm_compute; reflexivity].
  - apply (Hgraphql "C" "E"); [discriminate|vm_compute; reflexivity].
Defined.

End Resume.
(** ** The embedding step: what is submitted, how often, and what callers do *)

Module Embedding.
Import Graphql PyFacts RunOrder.

Lemma embed_inputs_app {R} (l1 l2 : list (event R)) :
  embed_inputs (l1 ++ l2) = embed_inputs l1 ++ embed_inputs l2.
Proof. apply omap_app. Qed.

Lemma embed_inputs_cons {R} (ev : event R) l :
  embed_inputs (ev :: l)
  = match ev with
    | EvEmbedRequest input _ => input :: embed_inputs l
    | _ => embed_inputs l
    end.
Proof. by destruct ev. Qed.

Lemma sleeps_app {R} (l1 l2 : list (event R)) :
  sleeps (l1 ++ l2) = sleeps l1 ++ sleeps l2.
Proof. apply omap_app. Qed.

Lemma written_app {R} (l1 l2 : list (event R)) :
  written (l1 ++ l2) = written l1 ++ written l2.
Proof. apply omap_app. Qed.

(** *** REST *)

Lemma rest_range_attempts : range 0 Rest.max_retries 1 = Some [0; 1; 2].
Proof. reflexivity. Qed.

(** The text the REST exporter submits is never empty. *)
Lemma rest_prepare_text_nonempty text : Rest.prepare_text text <> "".
Proof.
  unfold Rest.prepare_text.
  set (t := match text with
            | Some s => if str_truthy s then s else "Empty transcript"
            | None => "Empty transcript"
            end).
  assert (Ht : t <> "").
  { subst t. destruct text as [s|]; [|done].
    unfold str_truthy. destruct (String.eqb_spec s ""); simpl; done. }
  case_decide; [|done].
  destruct t as [|c t']; [done|].
  replace (Z.to_nat 8000) with (S (Z.to_nat 7999)) by lia.
  cbn [substring]. done.
Qed.

(** All the loop submits is the prepared text. *)
Lemma rest_attempts_inputs svc txt todo n :
  Forall (eq txt) (embed_inputs (events (Rest.attempts svc txt todo) n)).
Proof.
  revert n. induction todo as [|attempt todo IH]; intros n; simpl.
  - constructor.
  - step_world. destruct (svc n txt); step_world.
    + repeat constructor.
    + case_decide; step_world.
      * constructor; [done|]. apply IH.
      * repeat constructor.
Qed.

Lemma rest_never_submits_empty svc text n :
  "" ∉ embed_inputs (events (Rest.create_embedding svc text) n).
Proof.
  unfold Rest.create_embedding. rewrite rest_range_attempts.
  intros Hin.
  pose proof (rest_attempts_inputs svc (Rest.prepare_text text) [0; 1; 2] n) as Hall.
  rewrite Forall_forall in Hall. apply Hall in Hin.
  by apply (rest_prepare_text_nonempty text).
Qed.

(** The four ways the REST retry loop can go. *)
Lemma rest_create_embedding_cases svc text n :
  (exists e,
     svc n (Rest.prepare_text text) = Some e /\
     result (Rest.create_embedding svc text) n = Some e /\
     embed_inputs (events (Rest.create_embedding svc text) n)
     = [Rest.prepare_text text] /\
     sleeps (events (Rest.create_embedding svc text) n) = []) \/
  (exists e,
     svc n (Rest.prepare_text text) = None /\
     svc (S n) (Rest.prepare_text text) = Some e /\
     result (Rest.create_embedding svc text) n = Some e /\
     embed_inputs (events (Rest.create_embedding svc text) n)
     = [Rest.prepare_text text; Rest.prepare_text text] /\
     sleeps (events (Rest.create_embedding svc text) n) = [1]) \/
  (exists e,
     svc n (Rest.prepare_text text) = None /\
     svc (S n) (Rest.prepare_text text) = None /\
     svc (S (S n)) (Rest.prepare_text text) = Some e /\
     result (Rest.create_embedding svc text) n = Some e /\
     embed_inputs (events (Rest.create_embedding svc text) n)
     = [Rest.prepare_text text; Rest.prepare_text text; Rest.prepare_text text] /\
     sleeps (events (Rest.create_embedding svc text) n) = [1; 2]) \/
  (svc n (Rest.prepare_text text) = None /\
   svc (S n) (Rest.prepare_text text) = None /\
   svc (S (S n)) (Rest.prepare_text text) = None /\
   result (Rest.create_embedding svc text) n = None /\
   embed_inputs (events (Rest.create_embedding svc text) n)
   = [Rest.prepare_text text; Rest.prepare_text text; Rest.prepare_text text] /\
   sleeps (events (Rest.create_embedding svc text) n) = [1; 2]).
Proof.
  set (txt := Rest.prepare_text text). unfold Rest.create_embedding.
  rewrite rest_range_attempts. fold txt. cbn [Rest.attempts].
  repeat (case_decide; [|unfold Rest.max_retries in *; lia]).
  case_decide; [unfold Rest.max_retries in *; lia|].
  step_world.
  destruct (svc n txt) as [e0|] eqn:E0; step_world.
  { left. eexists. repeat split; reflexivity. }
  destruct (svc (S n) txt) as [e1|] eqn:E1; step_world.
  { right. left. eexists. repeat split; reflexivity. }
  destruct (svc (S (S n)) txt) as [e2|] eqn:E2; step_world.
  { right. right. left. eexists. repeat split; reflexivity. }
  right. right. right. repeat split; reflexivity.
Qed.

(** *** GraphQL *)

(** The three ways the GraphQL try-and-retry can go. *)
Lemma graphql_create_embedding_cases svc txt n :
  (exists e,
     svc n txt = Some e /\
     result (GraphqlMain.create_embedding svc txt) n = Some e /\
     embed_inputs (events (GraphqlMain.create_embedding svc txt) n) = [txt] /\
     sleeps (events (GraphqlMain.create_embedding svc txt) n) = []) \/
  (exists e,
     svc n txt = None /\ svc (S n) txt = Some e /\
     result (GraphqlMain.create_embedding svc txt) n = Some e /\
     embed_inputs (events (GraphqlMain.create_embedding svc txt) n) = [txt; txt] /\
     sleeps (events (GraphqlMain.create_embedding svc txt) n) = [2]) \/
  (svc n txt = None /\ svc (S n) txt = None /\
   result (GraphqlMain.create_embedding svc txt) n = None /\
   embed_inputs (events (GraphqlMain.create_embedding svc txt) n) = [txt; txt] /\
   sleeps (events (GraphqlMain.create_embedding svc txt) n) = [2]).
Proof.
  unfold GraphqlMain.create_embedding. step_world.
  destruct (svc n txt) as [e0|] eqn:E0; step_world.
  { left. eexists. repeat split; reflexivity. }
  destruct (svc (S n) txt) as [e1|] eqn:E1; step_world.
  { right. left. eexists. repeat split; reflexivity. }
  right. right. repeat split; reflexivity.
Qed.

Lemma fails_then_two e txt n :
  fails_then (n + 2) e n txt = None /\
  fails_then (n + 2) e (S n) txt = None /\
  fails_then (n + 2) e (S (S n)) txt = Some e.
Proof.
  unfold fails_then. repeat split.
  - rewrite decide_True by lia. done.
  - rewrite decide_True by lia. done.
  - rewrite decide_False by lia. done.
Qed.

(** The REST loop reaches the third, successful attempt. *)
Lemma rest_recovers_after_two_failures e text n :
  let m := Rest.create_embedding (fails_then (n + 2) e) text in
  result m n = Some e /\
  length (embed_inputs (events m n)) = 3%nat /\
  sleeps (events m n) = [1; 2].
Proof.
  intros m. subst m.
  destruct (fails_then_two e (Rest.prepare_text text) n) as (F0 & F1 & F2).
  destruct (rest_create_embedding_cases (fails_then (n + 2) e) text n)
    as [(e' & H0 & _)|[(e' & _ & H1 & _)|[(e' & _ & _ & H2 & Hr & Hi & Hs)
       |(_ & _ & H2 & _)]]]; try congruence.
  rewrite Hr, Hi, Hs. repeat split. congruence.
Qed.

(** The GraphQL function gives up before the service recovers. *)
Lemma graphql_gives_up_after_two_failures e txt n :
  result (GraphqlMain.create_embedding (fails_then (n + 2) e) txt) n = None.
Proof.
  destruct (fails_then_two e txt n) as (F0 & F1 & _).
  destruct (graphql_create_embedding_cases (fails_then (n + 2) e) txt n)
    as [(e' & H0 & _)|[(e' & _ & H1 & _)|(_ & _ & Hr & _)]]; congruence.
Qed.

(** One failure is as much as the GraphQL function survives. *)
Lemma graphql_recovers_after_one_failure e txt n :
  result (GraphqlMain.create_embedding (fails_then (n + 1) e) txt) n = Some e.
Proof.
  assert (F0 : fails_then (n + 1) e n txt = None)
    by (unfold fails_then; by rewrite decide_True by lia).
  assert (F1 : fails_then (n + 1) e (S n) txt = Some e)
    by (unfold fails_then; by rewrite decide_False by lia).
  destruct (graphql_create_embedding_cases (fails_then (n + 1) e) txt n)
    as [(e' & H0 & _)|[(e' & _ & H1 & Hr & _)|(_ & H1 & _)]]; congruence.
Qed.

(** When no embedding can be had, the REST loop body leaves the batch results
    and the processed ids as they were. *)
Lemma rest_process_one_skips a e acc tid n :
  (forall k txt, (n <= k < n + 3)%nat -> Rest.embed e k txt = None) ->
  result (Rest.process_one a e acc tid) n = acc.
Proof.
  intros Hfail. unfold Rest.process_one. step_world.
  replace (result (Rest.process_transcript a e tid) n) with (@None Rest.vector);
    [reflexivity|].
  unfold Rest.process_transcript. step_world.
  destruct (Rest.get_transcript_details e tid) as [t|]; [|by step_world].
  destruct (Rest.transcript_truthy _); [|by step_world].
  step_world.
  match goal with
  | |- context [result (Rest.create_embedding ?svc ?text) ?k] =>
      destruct (rest_create_embedding_cases svc text k)
        as [(e' & H0 & _)|[(e' & _ & H1 & _)|[(e' & _ & _ & H2 & _)
           |(_ & _ & _ & -> & _)]]]; rewrite ?Hfail in * by lia; try discriminate
  end.
  by step_world.
Qed.

(** When no embedding can be had, the GraphQL chunk loop logs the failure and
    writes nothing for the chunk. *)
Lemma graphql_export_chunk_skips a e tid c n :
  (forall k txt, (n <= k < n + 2)%nat -> GraphqlMain.embed e k txt = None) ->
  written (events (GraphqlMain.export_chunk a e tid c) n) = [] /\
  last (events (GraphqlMain.export_chunk a e tid c) n)
  = Some (EvLog Error "Error processing chunk").
Proof.
  intros Hfail. unfold GraphqlMain.export_chunk, GraphqlMain.create_embedding.
  repeat (step_world; rewrite ?Hfail by lia). split; reflexivity.
Qed.

(** The GraphQL chunk loop submits the chunk text as it is. *)
Lemma graphql_export_chunk_submits_text a e tid c n :
  exists rest,
    embed_inputs (events (GraphqlMain.export_chunk a e tid c) n) = text c :: rest.
Proof.
  unfold GraphqlMain.export_chunk. rewrite events_bind, embed_inputs_app.
  destruct (graphql_create_embedding_cases (GraphqlMain.embed e) (text c) n)
    as [(e' & _ & _ & Hin & _)|[(e' & _ & _ & _ & Hin & _)|(_ & _ & _ & Hin & _)]];
    rewrite Hin; eexists; reflexivity.
Qed.

Lemma silent_transcript_chunks :
  exists c, process_transcript silent_transcript = [c] /\ text c = "".
Proof. eexists. split; vm_compute; reflexivity. Qed.

(** C6 (broken by the GraphQL exporter): the REST [create_embedding] never
    submits an empty string, whatever text it is given, but the GraphQL one
    has no placeholder: exporting a transcript whose only sentence has an
    empty text submits the empty string to the embedding service. *)
Theorem C6_graphql_submits_empty_text (svc : embed_service)
    (upsert : GraphqlMain.output -> bool) :
  (forall text n, "" ∉ embed_inputs (events (Rest.create_embedding svc text) n)) /\
  "" ∈ embed_inputs
         (events (GraphqlMain.main demo_graphql_args
                    (GraphqlMain.Env svc (fun _ => Some silent_transcript) upsert)
                    [] ["T1"]) 0).
Proof.
  split; [intros; apply rest_never_submits_empty|].
  destruct silent_transcript_chunks as (c & Hc & Htext).
  unfold GraphqlMain.main. cbv zeta.
  replace (GraphqlMain.unprocessed demo_graphql_args [] ["T1"]) with ["T1"]
    by (vm_compute; reflexivity).
  unfold GraphqlMain.handle_resume, GraphqlMain.export_transcript.
  cbn [GraphqlMain.resume_from demo_graphql_args for_each
       GraphqlMain.fetch_transcript_details].
  rewrite Hc.
  replace (GraphqlMain.transcript_truthy (Some silent_transcript)) with true
    by reflexivity.
  rewrite bool_decide_eq_false_2 by discriminate.
  cbn [for_each]. step_world.
  destruct (graphql_export_chunk_submits_text demo_graphql_args
              (GraphqlMain.Env svc (fun _ => Some silent_transcript) upsert)
              "T1" c 0) as [rest Hrest].
  cbn [for_each]. step_world.
  rewrite embed_inputs_cons, !embed_inputs_app, Hrest, Htext. by left.
Qed.

(** C7 (broken by the GraphQL exporter): the REST [create_embedding] makes at
    most three requests, pausing 2^0 and then 2^1 seconds between them,
    returns the answer of the third request when the first two fail, and when
    all three fail its caller leaves the transcript out of the batch and goes
    on.  The GraphQL [create_embedding] has a single retry after a fixed pause
    of two seconds: against a service that fails twice and then answers it
    makes two requests with one pause of two seconds between them, gives up
    without a third request, and its caller writes nothing for the chunk. *)
Theorem C7_graphql_gives_up_where_rest_recovers :
  (forall svc text n,
     let evs := events (Rest.create_embedding svc text) n in
     (length (embed_inputs evs) <= 3)%nat /\ sleeps evs `prefix_of` [2 ^ 0; 2 ^ 1]) /\
  recovers_after_two_failures (fun svc text => Rest.create_embedding svc (Some text)) /\
  (forall e text n,
     let m := Rest.create_embedding (fails_then (n + 2) e) text in
     length (embed_inputs (events m n)) = 3%nat /\ sleeps (events m n) = [1; 2]) /\
  (forall a e acc tid n,
     (forall k txt, (n <= k < n + 3)%nat -> Rest.embed e k txt = None) ->
     result (Rest.process_one a e acc tid) n = acc) /\
  ~ recovers_after_two_failures GraphqlMain.create_embedding /\
  (forall e text n,
     let m := GraphqlMain.create_embedding (fails_then (n + 2) e) text in
     result m n = None /\
     embed_inputs (events m n) = [text; text] /\
     sleeps (events m n) = [2]) /\
  (forall a e fetch upsert tid c n,
     written (events (GraphqlMain.export_chunk a
                        (GraphqlMain.Env (fails_then (n + 2) e) fetch upsert)
                        tid c) n)
     = []).
Proof.
  split; [|split; [|split; [|split; [|split; [|split]]]]].
  - intros svc text n evs. subst evs.
    destruct (rest_create_embedding_cases svc text n)
      as [(e' & _ & _ & Hi & Hs)|[(e' & _ & _ & _ & Hi & Hs)
         |[(e' & _ & _ & _ & _ & Hi & Hs)|(_ & _ & _ & _ & Hi & Hs)]]];
      rewrite Hi, Hs; (split; [simpl; lia|]).
    + by exists [1; 2].
    + by exists [2].
    + by exists [].
    + by exists [].
  - intros e text n. apply rest_recovers_after_two_failures.
  - intros e text n. apply rest_recovers_after_two_failures.
  - apply rest_process_one_skips.
  - intros H. specialize (H [1; 2; 3] "hello" 0%nat).
    rewrite graphql_gives_up_after_two_failures in H. discriminate.
  - intros e text n m. subst m.
    destruct (fails_then_two e text n) as (F0 & F1 & _).
    destruct (graphql_create_embedding_cases (fails_then (n + 2) e) text n)
      as [(e' & H0 & _)|[(e' & _ & H1 & _)|(_ & _ & Hr & Hi & Hs)]];
      [congruence|congruence|done].
  - intros a e fetch upsert tid c n.
    apply graphql_export_chunk_skips.
    intros k txt Hk. cbn [GraphqlMain.embed]. unfold fails_then.
    by rewrite decide_True by lia.
Qed.

End Embedding.
(** ** Order of output writes and checkpoint updates *)

Module Ordering.
Import Graphql PyFacts RunOrder Embedding.

(** *** GraphQL: records first, then the processed mark *)

Lemma embedded_app {R} (l1 l2 : list (event R)) :
  embedded (l1 ++ l2) = embedded l1 ++ embedded l2.
Proof. apply omap_app. Qed.

Lemma marked_app {R} (l1 l2 : list (event R)) :
  marked (l1 ++ l2) = marked l1 ++ marked l2.
Proof. apply omap_app. Qed.

Lemma balanced_app l1 l2 : balanced l1 -> balanced l2 -> balanced (l1 ++ l2).
Proof.
  unfold balanced. intros H1 H2.
  by rewrite embedded_app, written_app, fmap_app, H1, H2.
Qed.

Lemma marked_nil_not_in {R} (evs : list (event R)) tid :
  marked evs = [] -> EvMarkProcessed tid ∉ evs.
Proof.
  intros Hq Hin. apply list_elem_of_split in Hin as (l1 & l2 & ->).
  rewrite marked_app in Hq. apply app_eq_nil in Hq as [_ Hq]. discriminate.
Qed.

(** Events without a processed mark keep the ordering property. *)
Lemma marks_follow_writes_quiet tr evs :
  marks_follow_writes tr -> marked evs = [] -> marks_follow_writes (tr ++ evs).
Proof.
  intros Htr Hq pre tid post Heq.
  apply List.app_eq_app in Heq as [l [[-> Hpost]|[-> Hevs]]].
  - destruct l as [|ev l].
    + simpl in Hpost. exfalso.
      apply (marked_nil_not_in evs tid Hq). rewrite <- Hpost. by left.
    + injection Hpost as <- _. by apply (Htr pre tid l).
  - exfalso. apply (marked_nil_not_in evs tid Hq). rewrite Hevs.
    apply elem_of_app. right. by left.
Qed.

(** A processed mark keeps it when everything embedded has been written. *)
Lemma marks_follow_writes_mark tr tid :
  marks_follow_writes tr -> balanced tr ->
  marks_follow_writes (tr ++ [EvMarkProcessed tid]).
Proof.
  intros Htr Hbal pre tid' post Heq.
  apply List.app_eq_app in Heq as [l [[-> Hpost]|[-> Hevs]]].
  - destruct l as [|ev l].
    + rewrite app_nil_r in Hbal. exact Hbal.
    + injection Hpost as <- Hl. by apply (Htr pre tid' l).
  - destruct l as [|ev l].
    + rewrite app_nil_r. exact Hbal.
    + injection Hevs as _ Hevs. by destruct l.
Qed.

Lemma graphql_create_embedding_embedded svc txt n :
  embedded (events (GraphqlMain.create_embedding svc txt) n)
  = option_list (result (GraphqlMain.create_embedding svc txt) n) /\
  written (events (GraphqlMain.create_embedding svc txt) n) = [] /\
  marked (events (GraphqlMain.create_embedding svc txt) n) = [].
Proof.
  unfold GraphqlMain.create_embedding. step_world.
  destruct (svc n txt) as [e0|]; step_world; [done|].
  destruct (svc (S n) txt) as [e1|]; step_world; done.
Qed.

(** The chunk loop body writes what it embeds and marks nothing. *)
Lemma graphql_export_chunk_balanced a e tid c n :
  balanced (events (GraphqlMain.export_chunk a e tid c) n) /\
  marked (events (GraphqlMain.export_chunk a e tid c) n) = [].
Proof.
  unfold GraphqlMain.export_chunk, balanced. rewrite events_bind.
  rewrite embedded_app, written_app, marked_app.
  destruct (graphql_create_embedding_embedded (GraphqlMain.embed e) (text c) n)
    as (-> & -> & ->).
  destruct (result _ n) as [emb|]; step_world; [|done].
  destruct (GraphqlMain.opt_truthy _); step_world; [|done].
  destruct (GraphqlMain.upsert_ok e _); step_world; done.
Qed.

Lemma graphql_chunks_balanced a e tid cs n :
  balanced (events (for_each cs (GraphqlMain.export_chunk a e tid)) n) /\
  marked (events (for_each cs (GraphqlMain.export_chunk a e tid)) n) = [].
Proof.
  revert n. induction cs as [|c cs IH]; intros n; cbn [for_each].
  - done.
  - rewrite events_bind, marked_app.
    destruct (graphql_export_chunk_balanced a e tid c n) as [Hb ->].
    destruct (IH (requests_after (GraphqlMain.export_chunk a e tid c) n)) as [Hb' ->].
    split; [by apply balanced_app|done].
Qed.

(** The transcript loop body keeps both the balance and the ordering. *)
Lemma graphql_export_transcript_ordered a e tid n tr :
  balanced tr -> marks_follow_writes tr ->
  balanced (tr ++ events (GraphqlMain.export_transcript a e tid) n) /\
  marks_follow_writes (tr ++ events (GraphqlMain.export_transcript a e tid) n).
Proof.
  intros Hb Hm. unfold GraphqlMain.export_transcript. rewrite events_bind.
  rewrite events_emit, requests_after_emit.
  assert (Hquiet : forall msg,
    balanced (tr ++ [EvProcessing tid] ++ [EvLog Warning msg]) /\
    marks_follow_writes (tr ++ [EvProcessing tid] ++ [EvLog Warning msg])).
  { intros msg. split.
    - apply balanced_app; done.
    - apply marks_follow_writes_quiet; done. }
  destruct (GraphqlMain.fetch_transcript_details e tid) as [t|]; [|apply Hquiet].
  destruct (GraphqlMain.transcript_truthy _); [|apply Hquiet].
  cbv zeta. case_bool_decide; [apply Hquiet|].
  rewrite !events_bind, !events_emit.
  destruct (graphql_chunks_balanced a e tid (process_transcript t) n) as [Hcb Hcm].
  set (chunk_events := events (for_each (process_transcript t)
                                 (GraphqlMain.export_chunk a e tid)) n) in *.
  assert (Hb1 : balanced (tr ++ [EvProcessing tid] ++ chunk_events)).
  { apply balanced_app; [done|]. by apply (balanced_app [EvProcessing tid]). }
  assert (Hm1 : marks_follow_writes (tr ++ [EvProcessing tid] ++ chunk_events)).
  { apply marks_follow_writes_quiet; [done|]. by rewrite marked_app, Hcm. }
  replace (tr ++ [EvProcessing tid] ++ chunk_events
              ++ [EvMarkProcessed tid] ++ [EvPause])
    with (((tr ++ [EvProcessing tid] ++ chunk_events)
             ++ [EvMarkProcessed tid]) ++ [EvPause])
    by (by rewrite <- !app_assoc).
  split.
  - apply balanced_app; [|done]. apply balanced_app; done.
  - apply marks_follow_writes_quiet; [|done].
    by apply marks_follow_writes_mark.
Qed.

Lemma graphql_transcripts_ordered a e ids n tr :
  balanced tr -> marks_follow_writes tr ->
  balanced (tr ++ events (for_each ids (GraphqlMain.export_transcript a e)) n) /\
  marks_follow_writes
    (tr ++ events (for_each ids (GraphqlMain.export_transcript a e)) n).
Proof.
  revert n tr. induction ids as [|tid ids IH]; intros n tr Hb Hm; cbn [for_each].
  - rewrite events_ret, app_nil_r. done.
  - rewrite events_bind, app_assoc.
    destruct (graphql_export_transcript_ordered a e tid n tr Hb Hm) as [Hb' Hm'].
    by apply IH.
Qed.

(** In every GraphQL run, whenever a transcript id is appended to the
    processed file, all embeddings obtained so far are in the output file. *)
Lemma graphql_marks_follow_writes a e processed ids n :
  marks_follow_writes (events (GraphqlMain.main a e processed ids) n).
Proof.
  unfold GraphqlMain.main. cbv zeta. rewrite events_bind.
  apply graphql_transcripts_ordered.
  - unfold GraphqlMain.handle_resume.
    destruct (GraphqlMain.resume_from a) as [r|]; [|done].
    destruct (str_truthy r); [|done]. by destruct (index r _).
  - replace (events (GraphqlMain.handle_resume a
                       (GraphqlMain.unprocessed a processed ids)) n)
      with ([] ++ events (GraphqlMain.handle_resume a
                            (GraphqlMain.unprocessed a processed ids)) n)
      by done.
    apply marks_follow_writes_quiet.
    + intros pre tid post H. by destruct pre.
    + unfold GraphqlMain.handle_resume.
      destruct (GraphqlMain.resume_from a) as [r|]; [|done].
      destruct (str_truthy r); [|done]. by destruct (index r _).
Qed.

(** The mark is not a sign of completeness, though: a transcript none of
    whose chunks could be embedded is still appended to the processed file. *)
Lemma graphql_marks_transcript_without_records :
  let e := GraphqlMain.Env (fun _ _ => None) (fun _ => Some silent_transcript)
             (fun _ => true) in
  let tr := events (GraphqlMain.main demo_graphql_args e [] ["T1"]) 0 in
  marked tr = ["T1"] /\ written tr = [].
Proof. split; vm_compute; reflexivity. Qed.

(** *** REST: the checkpoint is saved first *)

(** The events of a REST run over the single new transcript "A". *)
Lemma rest_single_transcript_events :
  exists v,
    Rest.v_id v = Rest.vector_id "A" /\
    events (Rest.main demo_rest_args demo_rest_env ∅ ["A"]) 0
    = [EvProcessing "A";
       EvEmbedRequest "Title: Standup. Participants: . " (Some [1; 2; 3]);
       EvPause;
       EvSaveCheckpoint {[ "A" ]};
       EvWrite v].
Proof. eexists. split; [|vm_compute; reflexivity]. reflexivity. Qed.

(** C1 (broken by the REST exporter): in a REST run over one new transcript
    "A" the checkpoint file is rewritten with "A" in it before the record of
    "A" is appended to the output file, so the ordering the claim states does
    not hold there; the GraphQL exporter keeps it in every run. *)
Theorem C1_rest_saves_checkpoint_before_writing_records :
  let tr := events (Rest.main demo_rest_args demo_rest_env ∅ ["A"]) 0 in
  (exists pre v post,
     tr = pre ++ EvSaveCheckpoint {[ "A" ]} :: EvWrite v :: post /\
     written pre = [] /\ Rest.v_id v = Rest.vector_id "A") /\
  ~ checkpoint_follows_writes ∅ tr /\
  (forall a e processed ids n,
     marks_follow_writes (events (GraphqlMain.main a e processed ids) n)).
Proof.
  intros tr. subst tr.
  destruct rest_single_transcript_events as (v & Hid & ->).
  split; [|split].
  - exists [EvProcessing "A";
            EvEmbedRequest "Title: Standup. Participants: . " (Some [1; 2; 3]);
            EvPause], v, [].
    by repeat split.
  - intros H.
    destruct (H [EvProcessing "A";
                 EvEmbedRequest "Title: Standup. Participants: . " (Some [1; 2; 3]);
                 EvPause] {[ "A" ]} [EvWrite v] eq_refl "A")
      as (v' & Hin & _).
    + by apply elem_of_singleton.
    + apply not_elem_of_empty.
    + by apply elem_of_nil in Hin.
  - apply graphql_marks_follow_writes.
Qed.

End Ordering.

(** ** The REST exporter: texts, dates and vectors *)

Module RestTexts.
Import PyFacts RunOrder Embedding.

Lemma substring_length_le n s : (String.length (substring 0 n s) <= n)%nat.
Proof.
  revert s. induction n as [|n IH]; intros [|c s]; simpl; try lia.
  specialize (IH s). lia.
Qed.

Lemma substring_short n s : (String.length s <= n)%nat -> substring 0 n s = s.
Proof.
  revert s. induction n as [|n IH]; intros [|c s]; simpl; intros H; try done; try lia.
  rewrite IH by lia. done.
Qed.

Lemma substring_is_prefix n s : exists rest, s = substring 0 n s +:+ rest.
Proof.
  revert s. induction n as [|n IH]; intros [|c s]; simpl.
  - by exists "".
  - by exists (String c s).
  - by exists "".
  - destruct (IH s) as [rest Hrest]. exists rest.
    change (String c s = String c (substring 0 n s +:+ rest)). by f_equal.
Qed.

Lemma append_empty_r s : s +:+ "" = s.
Proof.
  induction s as [|c s IH]; [done|].
  change (String c (s +:+ "") = String c s). by rewrite IH.
Qed.

Lemma prepare_text_length text :
  Z.of_nat (String.length (Rest.prepare_text text)) <= 8000.
Proof.
  unfold Rest.prepare_text. case_decide as H.
  - pose proof (substring_length_le (Z.to_nat 8000)
      match text with
      | Some s => if str_truthy s then s else "Empty transcript"
      | None => "Empty transcript"
      end). lia.
  - lia.
Qed.

(** X1: every text the REST [create_embedding] submits is at most 8000
    characters long and is a prefix of the text it was given (of the
    placeholder, when that text is missing or empty); a non-empty text of at
    most 8000 characters is submitted unchanged. *)
Theorem X1_rest_submitted_text_is_bounded_prefix
    (svc : embed_service) (text : option string) (n : nat) :
  let given := match text with
               | Some s => if str_truthy s then s else "Empty transcript"
               | None => "Empty transcript"
               end in
  Forall (fun input => Z.of_nat (String.length input) <= 8000 /\
                       (exists rest, given = input +:+ rest) /\
                       (Z.of_nat (String.length given) <= 8000 -> input = given))
    (embed_inputs (events (Rest.create_embedding svc text) n)).
Proof.
  intros given. unfold Rest.create_embedding. rewrite rest_range_attempts.
  eapply Forall_impl; [apply rest_attempts_inputs|].
  intros input <-. split; [apply prepare_text_length|].
  unfold Rest.prepare_text. fold given. case_decide as H.
  - split; [apply substring_is_prefix|]. lia.
  - split; [|done]. exists "". by rewrite append_empty_r.
Qed.

(** X2: [format_date] gives nothing for a missing or empty date, leaves a
    date that has a 'T' in it as it is, and appends midnight UTC to any other;
    its result always has a 'T', so formatting twice is formatting once. *)
Theorem X2_format_date_normalises (d : option string) :
  (forall r, Rest.format_date d = Some r -> contains "T" r = true) /\
  Rest.format_date (Rest.format_date d) = Rest.format_date d /\
  (Rest.format_date d = None <-> d = None \/ d = Some "") /\
  (forall s, d = Some s -> s <> "" -> contains "T" s = true ->
             Rest.format_date d = Some s) /\
  (forall s, d = Some s -> s <> "" -> contains "T" s = false ->
             Rest.format_date d = Some (s +:+ "T00:00:00Z")).
Proof.
  assert (Hempty : forall s, str_truthy s = false <-> s = "").
  { intros s. unfold str_truthy. destruct (String.eqb_spec s ""); simpl; split; done. }
  assert (Happ : forall s, str_truthy (s +:+ "T00:00:00Z") = true).
  { intros [|c s]; reflexivity. }
  split; [|split; [|split; [|split]]].
  - intros r. unfold Rest.format_date. destruct d as [s|]; [|done].
    destruct (str_truthy s); [|done].
    destruct (contains "T" s) eqn:E; intros [= <-]; [done|apply contains_middle].
  - unfold Rest.format_date. destruct d as [s|]; [|done].
    destruct (str_truthy s) eqn:Ht; [|done].
    destruct (contains "T" s) eqn:E.
    + by rewrite Ht, E.
    + by rewrite Happ, contains_middle.
  - unfold Rest.format_date. destruct d as [s|]; [|tauto].
    destruct (str_truthy s) eqn:Ht.
    + destruct (contains "T" s); split; try done;
        intros [|[= ->]]; done.
    + apply Hempty in Ht as ->. tauto.
  - intros s -> Hs HT. unfold Rest.format_date.
    destruct (str_truthy s) eqn:Ht; [by rewrite HT|by apply Hempty in Ht].
  - intros s -> Hs HT. unfold Rest.format_date.
    destruct (str_truthy s) eqn:Ht; [by rewrite HT|by apply Hempty in Ht].
Qed.

Lemma embedding_text_starts_with_title t ps :
  exists rest, Rest.embedding_text t ps = "Title: " +:+ rest.
Proof.
  unfold Rest.embedding_text. eexists.
  cbn [String.append]. reflexivity.
Qed.

Lemma prepare_text_keeps_title rest :
  exists rest', Rest.prepare_text (Some ("Title: " +:+ rest)) = "Title: " +:+ rest'.
Proof.
  unfold Rest.prepare_text.
  replace (str_truthy ("Title: " +:+ rest)) with true by reflexivity.
  case_decide; [|by eexists].
  replace (Z.to_nat 8000) with (7 + Z.to_nat 7993)%nat by lia.
  cbn [String.append Nat.add substring]. by eexists.
Qed.

(** X3: the text the REST [process_transcript] embeds always starts with
    "Title: ", so the placeholder of [create_embedding] is never what gets
    submitted for a transcript. *)
Theorem X3_rest_embeds_title_first
    (a : Rest.args) (e : Rest.env) (transcript_id : string) (n : nat) :
  Forall (fun input => (exists rest, input = "Title: " +:+ rest) /\
                       input <> "Empty transcript")
    (embed_inputs (events (Rest.process_transcript a e transcript_id) n)).
Proof.
  assert (Hinputs : Forall (fun input => exists rest, input = "Title: " +:+ rest)
    (embed_inputs (events (Rest.process_transcript a e transcript_id) n))).
  { unfold Rest.process_transcript. step_world.
    rewrite embed_inputs_cons.
    destruct (Rest.get_transcript_details e transcript_id) as [t|];
      [|by step_world].
    destruct (Rest.transcript_truthy _); [|by step_world].
    step_world. rewrite embed_inputs_app. apply Forall_app. split.
    - destruct (embedding_text_starts_with_title t
                  (Rest.get_participants e transcript_id)) as [rest ->].
      unfold Rest.create_embedding. rewrite rest_range_attempts.
      eapply Forall_impl; [apply rest_attempts_inputs|].
      intros input <-. apply prepare_text_keeps_title.
    - destruct (result (Rest.create_embedding _ _) _) as [emb|]; [|by step_world].
      destruct (Rest.embedding_truthy _); by step_world. }
  eapply Forall_impl; [exact Hinputs|].
  intros input [rest ->]. split; [by eexists|]. discriminate.
Qed.

(** X4: a vector the REST [process_transcript] returns has a non-empty
    embedding, names its transcript as source, carries an excerpt of at most
    1000 characters that is a prefix of the transcript text, lists one name per
    participant and no empty e-mail address, and has a namespace exactly when
    the --namespace option is not empty. *)
Theorem X4_rest_vector_fields
    (a : Rest.args) (e : Rest.env) (transcript_id : string) (n : nat)
    (v : Rest.vector) :
  result (Rest.process_transcript a e transcript_id) n = Some v ->
  Rest.v_values v <> [] /\
  Rest.source_id (Rest.v_metadata v) = transcript_id /\
  (exists t rest,
     Rest.get_transcript_details e transcript_id = Some t /\
     default "" (Rest.t_transcript t)
     = Rest.transcript_excerpt (Rest.v_metadata v) +:+ rest) /\
  (String.length (Rest.transcript_excerpt (Rest.v_metadata v)) <= 1000)%nat /\
  length (Rest.participant_names (Rest.v_metadata v))
  = length (Rest.get_participants e transcript_id) /\
  ("" ∉ Rest.participant_emails (Rest.v_metadata v)) /\
  (Rest.v_namespace v = None <-> Rest.namespace a = "").
Proof.
  unfold Rest.process_transcript. step_world.
  destruct (Rest.get_transcript_details e transcript_id) as [t|]; [|by step_world].
  destruct (Rest.transcript_truthy _); [|by step_world].
  step_world.
  destruct (result (Rest.create_embedding _ _) _) as [emb|]; [|by step_world].
  destruct emb as [|x emb]; [by step_world|].
  cbn [Rest.embedding_truthy]. step_world. intros [= <-].
  cbn [Rest.v_values Rest.v_metadata Rest.source_id Rest.transcript_excerpt
       Rest.participant_names Rest.participant_emails Rest.v_namespace].
  split; [done|]. split; [done|]. split; [|split; [|split; [|split]]].
  - exists t. unfold str_truthy.
    destruct (String.eqb_spec (default "" (Rest.t_transcript t)) "") as [->|_];
      simpl; [by exists ""|].
    destruct (substring_is_prefix 1000 (default "" (Rest.t_transcript t)))
      as [rest Hrest]. by exists rest.
  - destruct (str_truthy _); [apply substring_length_le|simpl; lia].
  - by rewrite length_fmap.
  - intros Hin. apply list_elem_of_fmap in Hin as (p & Hp & Hin).
    apply list_elem_of_filter in Hin as [Htruthy _].
    unfold Rest.some_truthy in Htruthy.
    destruct (Rest.p_email p) as [m|]; [|done].
    simpl in Hp. subst m. done.
  - unfold str_truthy. destruct (String.eqb_spec (Rest.namespace a) ""); simpl; split; done.
Qed.

Lemma X4_rest_vector_fields_witness :
  exists v,
    result (Rest.process_transcript demo_rest_args demo_rest_env "A") 0 = Some v /\
    Rest.v_values v <> [] /\
    Rest.source_id (Rest.v_metadata v) = "A" /\
    Rest.v_namespace v = None.
Proof.
  eexists. split; [reflexivity|].
  destruct (X4_rest_vector_fields demo_rest_args demo_rest_env "A" 0 _ eq_refl)
    as (Hv & Hs & _ & _ & _ & _ & Hns).
  split; [exact Hv|]. split; [exact Hs|]. by apply Hns.
Defined.

End RestTexts.
(** ** The REST exporter: batches, checkpoints and output files *)

Module RestRun.
Import PyFacts RunOrder Embedding BatchFacts Resume.

Lemma omap_quiet {R B} (f : event R -> option B) (l : list (event R)) :
  Forall (fun ev => f ev = None) l -> omap f l = [].
Proof.
  induction 1 as [|ev l Hev _ IH]; [done|].
  cbn [omap list_omap]. by rewrite Hev.
Qed.

Lemma rest_attempts_no_file svc txt todo n :
  Forall (fun ev => file_event ev = false) (events (Rest.attempts svc txt todo) n).
Proof.
  revert n. induction todo as [|attempt todo IH]; intros n; simpl.
  - constructor.
  - step_world. destruct (svc n txt); step_world; [by repeat constructor|].
    case_decide; step_world; [|by repeat constructor].
    repeat (constructor; [done|]). apply IH.
Qed.

Lemma rest_process_transcript_no_file a e tid n :
  Forall (fun ev => file_event ev = false)
    (events (Rest.process_transcript a e tid) n).
Proof.
  unfold Rest.process_transcript. step_world. constructor; [done|].
  destruct (Rest.get_transcript_details e tid) as [t|]; [|by step_world].
  destruct (Rest.transcript_truthy _); [|by step_world].
  step_world. apply Forall_app. split.
  - unfold Rest.create_embedding. rewrite rest_range_attempts.
    apply rest_attempts_no_file.
  - destruct (result (Rest.create_embedding _ _) _) as [emb|];
      [|step_world; by repeat constructor].
    destruct (Rest.embedding_truthy _); step_world; by repeat constructor.
Qed.

(** What the loop over one batch returns and causes: it appends the vectors
    it made to the batch results, adds their transcripts to the processed
    ids, and touches no file. *)
Lemma rest_process_batch_spec a e batch acc n :
  (exists new,
     (result (Rest.process_batch a e batch acc) n).1 = acc.1 ++ new /\
     (result (Rest.process_batch a e batch acc) n).2
     = acc.2 ∪ list_to_set (source_of <$> new)) /\
  Forall (fun ev => file_event ev = false)
    (events (Rest.process_batch a e batch acc) n).
Proof.
  revert acc n. induction batch as [|tid batch IH]; intros acc n; cbn [Rest.process_batch].
  - split; [|constructor]. exists []. rewrite app_nil_r. split; [done|].
    simpl. by rewrite union_empty_r_L.
  - rewrite result_bind, events_bind.
    assert (Hone : (exists v, Rest.source_id (Rest.v_metadata v) = tid /\
                              result (Rest.process_one a e acc tid) n
                              = (acc.1 ++ [v], {[tid]} ∪ acc.2))
                   \/ result (Rest.process_one a e acc tid) n = acc).
    { unfold Rest.process_one. step_world.
      destruct (result (Rest.process_transcript a e tid) n) as [v|] eqn:Hv;
        [|by right].
      left. exists v. split; [|done].
      revert Hv. unfold Rest.process_transcript. step_world.
      destruct (Rest.get_transcript_details e tid) as [t|]; [|by step_world].
      destruct (Rest.transcript_truthy _); [|by step_world].
      step_world.
      destruct (result (Rest.create_embedding _ _) _) as [emb|]; [|by step_world].
      destruct (Rest.embedding_truthy _); step_world; [|done].
      by intros [= <-]. }
    destruct (IH (result (Rest.process_one a e acc tid) n)
                (requests_after (Rest.process_one a e acc tid) n))
      as [(new & H1 & H2) Hq].
    split.
    + rewrite H1, H2.
      destruct Hone as [(v & Hsrc & Hacc)|Hacc]; rewrite Hacc.
      * exists (v :: new). cbn [fst snd].
        split; [by rewrite <- app_assoc|].
        rewrite fmap_cons. cbn [list_to_set]. unfold source_of at 2.
        rewrite Hsrc.
        rewrite (comm_L (∪) {[tid]} acc.2), (assoc_L (∪) acc.2). done.
      * by exists new.
    + apply Forall_app. split; [|done].
      unfold Rest.process_one. step_world. apply Forall_app. split.
      * apply rest_process_transcript_no_file.
      * by repeat constructor.
Qed.

Lemma for_each_emit {R A} (g : A -> event R) (xs : list A) n :
  events (for_each xs (fun x => emit (g x))) n = g <$> xs /\
  requests_after (for_each xs (fun x => emit (g x))) n = n.
Proof.
  induction xs as [|x xs [IH1 IH2]]; [done|].
  cbn [for_each]. step_world. by rewrite IH1, IH2.
Qed.

Lemma saves_app {R} (l1 l2 : list (event R)) : saves (l1 ++ l2) = saves l1 ++ saves l2.
Proof. apply omap_app. Qed.

Lemma dumps_app {R} (l1 l2 : list (event R)) : dumps (l1 ++ l2) = dumps l1 ++ dumps l2.
Proof. apply omap_app. Qed.

Lemma written_writes {R} (rs : list R) : written (EvWrite <$> rs) = rs.
Proof. induction rs as [|r rs IH]; [done|]. rewrite fmap_cons. cbn. by f_equal. Qed.

Lemma saves_writes {R} (rs : list R) : saves (EvWrite <$> rs) = [].
Proof. induction rs as [|r rs IH]; [done|]. by rewrite fmap_cons. Qed.

Lemma dumps_writes {R} (rs : list R) : dumps (EvWrite <$> rs) = [].
Proof. induction rs as [|r rs IH]; [done|]. by rewrite fmap_cons. Qed.

Lemma no_file_observations {R} (l : list (event R)) :
  Forall (fun ev => file_event ev = false) l ->
  saves l = [] /\ dumps l = [] /\ written l = [] /\ marked l = [] /\ upserted l = [].
Proof.
  intros H. repeat split; apply omap_quiet;
    (eapply Forall_impl; [exact H|]); by intros [].
Qed.

(** One batch: the vectors made are added to the results, their transcripts
    to the processed ids; the checkpoint is saved once, with the grown set;
    in JSON-lines format the new vectors are appended to the output. *)
Lemma rest_batch_step_spec a e ids p i n :
  exists new,
    result (Rest.batch_step a e ids p i) n
    = Rest.Progress (Rest.results p ++ new)
        (Rest.processed_ids p ∪ list_to_set (source_of <$> new)) /\
    saves (events (Rest.batch_step a e ids p i) n)
    = [Rest.processed_ids p ∪ list_to_set (source_of <$> new)] /\
    written (events (Rest.batch_step a e ids p i) n)
    = match Rest.format a with Rest.Jsonl => new | Rest.Json => [] end /\
    dumps (events (Rest.batch_step a e ids p i) n) = [].
Proof.
  unfold Rest.batch_step.
  set (batch := slice ids i (i + Rest.batch_size a)).
  destruct (rest_process_batch_spec a e batch ([], Rest.processed_ids p) n)
    as [(new & H1 & H2) Hq].
  cbn [fst snd app] in H1, H2.
  apply no_file_observations in Hq as (Hs & Hd & Hw & _).
  exists new. autorewrite with world. rewrite H1, H2.
  split; [done|].
  rewrite !saves_app, !written_app, !dumps_app, Hs, Hd, Hw.
  assert (Hwrites :
    let m := (if bool_decide (new <> [])
              then match Rest.format a with
                   | Rest.Jsonl => for_each new (fun item => emit (EvWrite item))
                   | Rest.Json => ret ()
                   end
              else ret ()) : M Rest.vector unit in
    forall k, saves (events m k) = [] /\ dumps (events m k) = [] /\
              written (events m k)
              = match Rest.format a with Rest.Jsonl => new | Rest.Json => [] end).
  { intros m k. subst m. case_bool_decide as Hnew.
    - destruct (Rest.format a); [|done].
      destruct (for_each_emit (@EvWrite Rest.vector) new k) as [-> _].
      by rewrite saves_writes, dumps_writes, written_writes.
    - destruct new; [|done]. by destruct (Rest.format a). }
  cbv zeta in Hwrites.
  destruct (Hwrites (requests_after (Rest.process_batch a e batch
                                       ([], Rest.processed_ids p)) n))
    as (-> & -> & ->).
  cbn. by rewrite app_nil_r.
Qed.

Lemma rest_batch_step_requests a e ids p i n :
  requests_after (Rest.batch_step a e ids p i) n
  = requests_after (Rest.process_batch a e (slice ids i (i + Rest.batch_size a))
                      ([], Rest.processed_ids p)) n.
Proof.
  unfold Rest.batch_step. step_world.
  case_bool_decide; step_world; [|done].
  destruct (Rest.format a); step_world; [|done].
  apply for_each_emit.
Qed.

(** All batches: results and processed ids grow together, the checkpoint is
    saved once per batch with ever larger sets, the last save holding the
    final set. *)
Lemma rest_batches_spec a e ids starts p n :
  exists new,
    Rest.results (result (Rest.batches a e ids starts p) n) = Rest.results p ++ new /\
    Rest.processed_ids (result (Rest.batches a e ids starts p) n)
    = Rest.processed_ids p ∪ list_to_set (source_of <$> new) /\
    increasing_from (Rest.processed_ids p)
      (saves (events (Rest.batches a e ids starts p) n)) /\
    length (saves (events (Rest.batches a e ids starts p) n)) = length starts /\
    last (Rest.processed_ids p :: saves (events (Rest.batches a e ids starts p) n))
    = Some (Rest.processed_ids (result (Rest.batches a e ids starts p) n)) /\
    written (events (Rest.batches a e ids starts p) n)
    = match Rest.format a with Rest.Jsonl => new | Rest.Json => [] end /\
    dumps (events (Rest.batches a e ids starts p) n) = [].
Proof.
  revert p n. induction starts as [|i starts IH]; intros p n; cbn [Rest.batches].
  - exists []. step_world. rewrite app_nil_r. simpl. rewrite union_empty_r_L.
    repeat split; try done. by destruct (Rest.format a).
  - rewrite result_bind, events_bind, saves_app, written_app, dumps_app.
    destruct (rest_batch_step_spec a e ids p i n) as (new1 & Hr & Hs & Hw & Hd).
    rewrite Hr, Hs, Hw, Hd.
    destruct (IH (Rest.Progress (Rest.results p ++ new1)
                    (Rest.processed_ids p ∪ list_to_set (source_of <$> new1)))
                 (requests_after (Rest.batch_step a e ids p i) n))
      as (new2 & Hr2 & Hp2 & Hinc & Hlen & Hlast & Hw2 & Hd2).
    cbn [Rest.results Rest.processed_ids] in *.
    exists (new1 ++ new2). rewrite Hr2, Hw2, Hd2.
    split; [by rewrite app_assoc|].
    split; [by rewrite Hp2, fmap_app, list_to_set_app_L, (assoc_L (∪))|].
    split; [split; [apply union_subseteq_l|done]|].
    split; [simpl; by rewrite Hlen|].
    split; [by rewrite <- Hlast|].
    split; [by destruct (Rest.format a)|done].
Qed.

Lemma rest_handle_resume_no_file a ids n :
  Forall (fun ev => file_event ev = false) (events (Rest.handle_resume a ids) n).
Proof.
  unfold Rest.handle_resume.
  destruct (Rest.resume_from a) as [r|]; [|constructor].
  destruct (str_truthy r); [|constructor].
  destruct (index r ids); step_world; by repeat constructor.
Qed.

(** The whole REST run, seen from its files. *)
Lemma rest_main_spec a e checkpoint ids n :
  let tr := events (Rest.main a e checkpoint ids) n in
  let new := rest_exported a e checkpoint ids n in
  increasing_from checkpoint (saves tr) /\
  last (checkpoint :: saves tr)
  = Some (checkpoint ∪ list_to_set (source_of <$> new)) /\
  written tr = match Rest.format a with Rest.Jsonl => new | Rest.Json => [] end /\
  dumps tr = match Rest.format a with
             | Rest.Jsonl => []
             | Rest.Json => if bool_decide (new <> []) then [new] else []
             end /\
  length (saves tr)
  = match range 0 (Z.of_nat (length (result (Rest.handle_resume a
                       (Rest.remaining checkpoint ids)) n))) (Rest.batch_size a) with
    | Some starts => length starts
    | None => 0%nat
    end.
Proof.
  intros tr new. subst tr new. unfold Rest.main, rest_exported. cbv zeta.
  autorewrite with world.
  destruct (rest_handle_resume_order a (Rest.remaining checkpoint ids) n) as [_ ->].
  destruct (no_file_observations _
              (rest_handle_resume_no_file a (Rest.remaining checkpoint ids) n))
    as (Hs & Hd & Hw & _).
  rewrite !saves_app, !written_app, !dumps_app, Hs, Hd, Hw. cbn [app].
  set (todo := result (Rest.handle_resume a (Rest.remaining checkpoint ids)) n).
  destruct (range 0 (Z.of_nat (length todo)) (Rest.batch_size a)) as [starts|].
  - destruct (rest_batches_spec a e todo starts (Rest.Progress [] checkpoint) n)
      as (new & Hr & Hp & Hinc & Hlen & Hlast & Hwr & Hdu).
    cbn [Rest.results Rest.processed_ids app] in *.
    rewrite Hwr, Hdu, Hr.
    assert (Hfinal : forall k,
      let m := (match Rest.format a with
                | Rest.Jsonl => ret ()
                | Rest.Json => if bool_decide (new <> [])
                               then emit (EvDump new) else ret ()
                end) : M Rest.vector unit in
      saves (events m k) = [] /\ written (events m k) = [] /\
      dumps (events m k) = match Rest.format a with
                           | Rest.Jsonl => []
                           | Rest.Json => if bool_decide (new <> []) then [new] else []
                           end).
    { intros k m. subst m. destruct (Rest.format a); [done|].
      by case_bool_decide. }
    cbv zeta in Hfinal.
    destruct (Hfinal (requests_after (Rest.batches a e todo starts
                                        (Rest.Progress [] checkpoint)) n))
      as (-> & -> & ->).
    rewrite !app_nil_r. rewrite Hlast, Hp.
    repeat split; done.
  - autorewrite with world. cbn [Rest.results].
    rewrite bool_decide_eq_false_2 by (intros H; by apply H).
    assert (Hret : events (match Rest.format a with
                           | Rest.Jsonl => ret ()
                           | Rest.Json => ret ()
                           end : M Rest.vector unit) n = [])
      by (by destruct (Rest.format a)).
    rewrite Hret. cbn. rewrite union_empty_r_L.
    repeat split; by destruct (Rest.format a).
Qed.

Lemma rest_process_batch_format f f' a e batch acc n :
  Rest.process_batch (with_format f a) e batch acc n
  = Rest.process_batch (with_format f' a) e batch acc n.
Proof.
  revert acc n. induction batch as [|tid batch IH]; intros acc n; [done|].
  cbn [Rest.process_batch]. unfold bind.
  change (Rest.process_one (with_format f a) e acc tid)
    with (Rest.process_one (with_format f' a) e acc tid).
  destruct (Rest.process_one (with_format f' a) e acc tid n) as [[acc' n1] evs].
  by rewrite IH.
Qed.

Lemma rest_batch_step_result a e ids p i n :
  result (Rest.batch_step a e ids p i) n
  = Rest.Progress
      (Rest.results p
       ++ (result (Rest.process_batch a e (slice ids i (i + Rest.batch_size a))
                     ([], Rest.processed_ids p)) n).1)
      (result (Rest.process_batch a e (slice ids i (i + Rest.batch_size a))
                 ([], Rest.processed_ids p)) n).2.
Proof. unfold Rest.batch_step. by step_world. Qed.

(** The vectors made and the requests spent do not depend on --format. *)
Lemma rest_batches_format f f' a e ids starts p n :
  result (Rest.batches (with_format f a) e ids starts p) n
  = result (Rest.batches (with_format f' a) e ids starts p) n.
Proof.
  revert p n. induction starts as [|i starts IH]; intros p n; [done|].
  cbn [Rest.batches]. rewrite !result_bind.
  rewrite !rest_batch_step_result, !rest_batch_step_requests.
  unfold result, requests_after.
  change (Rest.batch_size (with_format f a)) with (Rest.batch_size a).
  change (Rest.batch_size (with_format f' a)) with (Rest.batch_size a).
  rewrite (rest_process_batch_format f f').
  apply IH.
Qed.

Lemma rest_exported_format f f' a e checkpoint ids n :
  rest_exported (with_format f a) e checkpoint ids n
  = rest_exported (with_format f' a) e checkpoint ids n.
Proof.
  unfold rest_exported. cbv zeta.
  change (Rest.handle_resume (with_format f a))
    with (Rest.handle_resume (with_format f' a)).
  change (Rest.batch_size (with_format f a))
    with (Rest.batch_size (with_format f' a)).
  destruct (range _ _ _); [|done]. by rewrite (rest_batches_format f f').
Qed.

(** X5: the REST run never shrinks the checkpoint: every id set it writes to
    the checkpoint file contains the loaded set and every set written before
    it. *)
Theorem X5_rest_checkpoint_only_grows
    (a : Rest.args) (e : Rest.env) (checkpoint : gset string)
    (transcript_ids : list string) (n : nat) :
  increasing_from checkpoint
    (saves (events (Rest.main a e checkpoint transcript_ids) n)).
Proof. apply rest_main_spec. Qed.

(** X6: when a REST run ends, the checkpoint on file (the loaded one, if
    no batch ran) is the loaded checkpoint plus the source transcripts of
    exactly the vectors the run put into its output, be it line by line or in
    the final JSON document. *)
Theorem X6_rest_final_checkpoint_matches_output
    (a : Rest.args) (e : Rest.env) (checkpoint : gset string)
    (transcript_ids : list string) (n : nat) :
  let tr := events (Rest.main a e checkpoint transcript_ids) n in
  last (checkpoint :: saves tr)
  = Some (checkpoint
          ∪ list_to_set (source_of <$> (written tr ++ concat (dumps tr)))).
Proof.
  intros tr. subst tr.
  destruct (rest_main_spec a e checkpoint transcript_ids n)
    as (_ & -> & -> & -> & _).
  destruct (Rest.format a); [by rewrite app_nil_r|].
  case_bool_decide as Hnew; cbn [app concat]; [by rewrite app_nil_r|].
  by rewrite Hnew.
Qed.

(** X7: the output format changes where the vectors go, not which vectors:
    with --format jsonl nothing is dumped, with --format json nothing is
    appended and at most one document is dumped, and that document holds the
    very vectors the jsonl run appends. *)
Theorem X7_rest_formats_export_the_same_vectors
    (a : Rest.args) (e : Rest.env) (checkpoint : gset string)
    (transcript_ids : list string) (n : nat) :
  let jsonl := events (Rest.main (with_format Rest.Jsonl a) e checkpoint
                         transcript_ids) n in
  let json := events (Rest.main (with_format Rest.Json a) e checkpoint
                        transcript_ids) n in
  dumps jsonl = [] /\ written json = [] /\
  (length (dumps json) <= 1)%nat /\
  concat (dumps json) = written jsonl.
Proof.
  intros jsonl json. subst jsonl json.
  destruct (rest_main_spec (with_format Rest.Jsonl a) e checkpoint transcript_ids n)
    as (_ & Hl1 & Hw1 & Hd1 & _).
  destruct (rest_main_spec (with_format Rest.Json a) e checkpoint transcript_ids n)
    as (_ & Hl2 & Hw2 & Hd2 & _).
  cbn [with_format Rest.format] in *.
  rewrite (rest_exported_format Rest.Json Rest.Jsonl) in Hd2.
  rewrite Hw1, Hw2, Hd1, Hd2.
  case_bool_decide as Hnew; cbn [concat length]; rewrite ?app_nil_r;
    repeat split; try done; lia.
Qed.

Lemma rest_handle_resume_events a ids n :
  events (Rest.handle_resume a ids) n = [] \/
  events (Rest.handle_resume a ids) n
  = [EvLog Warning "Resume ID not found in transcript list"].
Proof.
  unfold Rest.handle_resume.
  destruct (Rest.resume_from a) as [r|]; [|by left].
  destruct (str_truthy r); [|by left].
  destruct (index r ids); [by left|by right].
Qed.

(** With a batch size of zero [range] raises and the run logs the error; with
    a negative one the loop has no iteration.  Either way the resume handling
    is all that happens before. *)
Lemma rest_main_nonpositive_events a e checkpoint ids n :
  Rest.batch_size a <= 0 ->
  events (Rest.main a e checkpoint ids) n
  = events (Rest.handle_resume a (Rest.remaining checkpoint ids)) n
    ++ (if decide (Rest.batch_size a = 0)
        then [EvLog Error "Error during processing"] else []).
Proof.
  intros Hbs. unfold Rest.main. cbv zeta. autorewrite with world. f_equal.
  destruct (rest_handle_resume_order a (Rest.remaining checkpoint ids) n) as [_ ->].
  set (todo := result (Rest.handle_resume a (Rest.remaining checkpoint ids)) n).
  destruct (decide (Rest.batch_size a = 0)) as [H0|H0].
  - unfold range. rewrite H0. rewrite decide_True by done.
    autorewrite with world. cbn [Rest.results].
    rewrite bool_decide_eq_false_2 by (intros H; by apply H).
    by destruct (Rest.format a).
  - rewrite range_negative_step by lia.
    cbn [Rest.batches]. autorewrite with world. cbn [Rest.results].
    rewrite bool_decide_eq_false_2 by (intros H; by apply H).
    by destruct (Rest.format a).
Qed.

Lemma rest_main_nonpositive_order a e checkpoint ids n :
  Rest.batch_size a <= 0 ->
  processing_order (events (Rest.main a e checkpoint ids) n) = [].
Proof.
  intros Hbs. rewrite rest_main_nonpositive_events by done.
  destruct (rest_handle_resume_events a (Rest.remaining checkpoint ids) n)
    as [-> | ->]; by case_decide.
Qed.

(** X8: a REST run with --batch-size 0 or a negative batch size processes no
    transcript at all: no request to the embedding service, no checkpoint, no
    output; with 0 one error is logged, with a negative size none. *)
Theorem X8_rest_nonpositive_batch_size_exports_nothing
    (a : Rest.args) (e : Rest.env) (checkpoint : gset string)
    (transcript_ids : list string) (n : nat) :
  Rest.batch_size a <= 0 ->
  let tr := events (Rest.main a e checkpoint transcript_ids) n in
  processing_order tr = [] /\ embed_inputs tr = [] /\ saves tr = [] /\
  written tr = [] /\ dumps tr = [] /\
  errors tr = if decide (Rest.batch_size a = 0)
              then ["Error during processing"] else [].
Proof.
  intros Hbs tr. subst tr. rewrite rest_main_nonpositive_events by done.
  destruct (rest_handle_resume_events a (Rest.remaining checkpoint transcript_ids) n)
    as [-> | ->]; by case_decide.
Qed.

Lemma X8_rest_nonpositive_batch_size_exports_nothing_witness :
  let tr := events (Rest.main (Rest.Args Rest.Jsonl 0 None "") demo_rest_env ∅
                      ["A"; "B"]) 0 in
  processing_order tr = [] /\ embed_inputs tr = [] /\ saves tr = [] /\
  written tr = [] /\ dumps tr = [] /\
  errors tr = ["Error during processing"].
Proof.
  apply (X8_rest_nonpositive_batch_size_exports_nothing
           (Rest.Args Rest.Jsonl 0 None "") demo_rest_env ∅ ["A"; "B"] 0).
  simpl. lia.
Defined.

(** X9: with a positive batch size the REST run saves the checkpoint once per
    batch, that is, the number of processed transcripts divided by the batch
    size, rounded up, times. *)
Theorem X9_rest_saves_checkpoint_once_per_batch
    (a : Rest.args) (e : Rest.env) (checkpoint : gset string)
    (transcript_ids : list string) (n : nat) :
  0 < Rest.batch_size a ->
  let tr := events (Rest.main a e checkpoint transcript_ids) n in
  Z.of_nat (length (saves tr))
  = (Z.of_nat (length (processing_order tr)) + Rest.batch_size a - 1)
    / Rest.batch_size a.
Proof.
  intros Hbs tr. subst tr.
  destruct (rest_main_spec a e checkpoint transcript_ids n) as (_ & _ & _ & _ & ->).
  rewrite rest_main_order by done.
  set (todo := result (Rest.handle_resume a
                         (Rest.remaining checkpoint transcript_ids)) n).
  unfold range. rewrite decide_False by lia. rewrite decide_True by lia.
  rewrite length_fmap, length_seq.
  replace (Z.of_nat (length todo) - 0 + Rest.batch_size a - 1)
    with (Z.of_nat (length todo) + Rest.batch_size a - 1) by lia.
  apply Z2Nat.id. apply Z.div_pos; lia.
Qed.

Lemma X9_rest_saves_checkpoint_once_per_batch_witness :
  let tr := events (Rest.main (Rest.Args Rest.Jsonl 2 None "") demo_rest_env ∅
                      ["A"; "B"; "C"; "D"; "E"]) 0 in
  Z.of_nat (length (saves tr)) = 3.
Proof.
  intros tr. subst tr.
  rewrite (X9_rest_saves_checkpoint_once_per_batch
             (Rest.Args Rest.Jsonl 2 None "") demo_rest_env ∅
             ["A"; "B"; "C"; "D"; "E"] 0) by (simpl; lia).
  vm_compute. reflexivity.
Defined.

Lemma rest_resume_suffix a ids n :
  result (Rest.handle_resume a ids) n `suffix_of` ids.
Proof.
  unfold Rest.handle_resume.
  destruct (Rest.resume_from a) as [r|]; [|done].
  destruct (str_truthy r); [|done].
  destruct (index r ids); [apply suffix_drop|done].
Qed.

Lemma graphql_resume_suffix a ids n :
  result (GraphqlMain.handle_resume a ids) n `suffix_of` ids.
Proof.
  unfold GraphqlMain.handle_resume.
  destruct (GraphqlMain.resume_from a) as [r|]; [|done].
  destruct (str_truthy r); [|done].
  destruct (index r ids); [apply suffix_drop|done].
Qed.

(** X10: whatever the options, a run processes a final segment of the
    filtered listing, in listing order: the REST run of the listed ids outside
    the checkpoint, the GraphQL run of the listed ids outside the processed
    file (of all listed ids under --force).  No id is processed that the
    source did not list; without --force none that is checkpointed. *)
Theorem X10_runs_process_a_suffix_of_the_filtered_listing
    (ra : Rest.args) (re : Rest.env) (checkpoint : gset string)
    (ga : GraphqlMain.args) (ge : GraphqlMain.env) (processed : list string)
    (transcript_ids : list string) (n : nat) :
  processing_order (events (Rest.main ra re checkpoint transcript_ids) n)
    `suffix_of` filter (fun id => id ∉ checkpoint) transcript_ids /\
  processing_order (events (GraphqlMain.main ga ge processed transcript_ids) n)
    `suffix_of` filter (fun id => id ∉ processed \/ GraphqlMain.force ga = true)
                  transcript_ids.
Proof.
  split.
  - rewrite <- rest_remaining_filter.
    destruct (decide (0 < Rest.batch_size ra)) as [Hbs|Hbs].
    + rewrite rest_main_order by done. apply rest_resume_suffix.
    + rewrite rest_main_nonpositive_order by lia. apply suffix_nil.
  - rewrite graphql_main_order. apply graphql_resume_suffix.
Qed.

End RestRun.

(** * Reading back the processed file *)
Module ProcessedFileFacts.
Import ProcessedFile RestTopics PyFacts.

Lemma append_cons (c : ascii) (s t : string) :
  String c s +:+ t = String c (s +:+ t).
Proof. reflexivity. Qed.

Lemma append_assoc_string (a b c : string) : (a +:+ b) +:+ c = a +:+ (b +:+ c).
Proof.
  induction a as [|x a IH]; [done|]. by rewrite !append_cons, IH.
Qed.

Lemma newline_terminated_cons c d s :
  newline_terminated (String c (String d s)) = newline_terminated (String d s).
Proof. reflexivity. Qed.

Lemma plain_id_spec id :
  plain_id id = true ->
  contains LF id = false /\ contains CR id = false /\
  match id with String c _ => visible c = true | EmptyString => True end /\
  match last_char id with Some c => visible c = true | None => True end.
Proof.
  unfold plain_id. intros H.
  apply andb_true_iff in H as [H Hlast].
  apply andb_true_iff in H as [H Hfirst].
  apply andb_true_iff in H as [Hlf Hcr].
  apply negb_true_iff in Hlf, Hcr.
  repeat split; try done.
  - by destruct id.
  - by destruct (last_char id).
Qed.

Lemma visible_not_space c : visible c = true -> py_space c = false.
Proof.
  unfold visible, py_space. cbv zeta. intros H.
  apply andb_true_iff in H as [Hlo Hhi].
  apply N.leb_le in Hlo, Hhi.
  repeat (apply orb_false_iff; split).
  - apply andb_false_iff. right. apply N.leb_gt. lia.
  - apply andb_false_iff. right. apply N.leb_gt. lia.
  - apply N.eqb_neq. lia.
  - apply N.eqb_neq. lia.
Qed.

Lemma newline_terminated_tail c a :
  newline_terminated (String c a) = true ->
  (a = "" /\ c = LF) \/ (a <> "" /\ newline_terminated a = true).
Proof.
  destruct a as [|d a].
  - cbn. intros H. apply Ascii.eqb_eq in H. by left.
  - rewrite newline_terminated_cons. intros H. by right.
Qed.

Lemma universal_newlines_LF pending_cr :
  universal_newlines pending_cr (String LF "")
  = if pending_cr then "" else String LF "".
Proof. reflexivity. Qed.

(** Text read after a complete line is translated on its own. *)
Lemma universal_newlines_app (a b : string) (pending_cr : bool) :
  a <> "" -> newline_terminated a = true ->
  universal_newlines pending_cr (a +:+ b)
  = universal_newlines pending_cr a +:+ universal_newlines false b.
Proof.
  revert pending_cr. induction a as [|c a IH]; intros pending_cr Hne Hterm; [done|].
  apply newline_terminated_tail in Hterm as [[-> ->]|[Hne' Hterm]].
  - rewrite universal_newlines_LF. rewrite append_cons.
    change ("" +:+ b) with b. cbn [universal_newlines].
    replace (Ascii.eqb LF CR) with false by reflexivity.
    rewrite Ascii.eqb_refl. by destruct pending_cr.
  - rewrite append_cons. cbn [universal_newlines].
    destruct (Ascii.eqb c CR).
    + rewrite append_cons. f_equal. by apply IH.
    + destruct (Ascii.eqb c LF).
      * destruct pending_cr; [by apply IH|].
        rewrite append_cons. f_equal. by apply IH.
      * rewrite append_cons. f_equal. by apply IH.
Qed.

Lemma universal_newlines_false_nonempty (a : string) :
  a <> "" -> universal_newlines false a <> "".
Proof.
  destruct a as [|d a]; [done|]. intros _. cbn [universal_newlines].
  destruct (Ascii.eqb d CR); [done|]. by destruct (Ascii.eqb d LF).
Qed.

Lemma newline_terminated_push x s :
  newline_terminated s = true -> (s = "" -> x = LF) ->
  newline_terminated (String x s) = true.
Proof.
  intros Hs Hx. destruct s as [|y s].
  - rewrite Hx by done. reflexivity.
  - by rewrite newline_terminated_cons.
Qed.

(** A complete text stays complete when it is translated. *)
Lemma universal_newlines_terminated (a : string) (pending_cr : bool) :
  newline_terminated a = true ->
  newline_terminated (universal_newlines pending_cr a) = true.
Proof.
  revert pending_cr. induction a as [|c a IH]; intros pending_cr Hterm; [done|].
  apply newline_terminated_tail in Hterm as [[-> ->]|[Hne Hterm]].
  - rewrite universal_newlines_LF. by destruct pending_cr.
  - cbn [universal_newlines].
    destruct (Ascii.eqb c CR) eqn:Hcr.
    + apply newline_terminated_push; [by apply IH|done].
    + destruct (Ascii.eqb c LF) eqn:Hlf.
      * destruct pending_cr; [by apply IH|].
        apply newline_terminated_push; [by apply IH|done].
      * apply newline_terminated_push; [by apply IH|].
        intros Hnil. by destruct (universal_newlines_false_nonempty a Hne).
Qed.

(** An id without line breaks, with its line feed, is read as written. *)
Lemma universal_newlines_line (id : string) :
  contains LF id = false -> contains CR id = false ->
  universal_newlines false (id +:+ String LF "") = id +:+ String LF "".
Proof.
  induction id as [|c id IH]; intros Hlf Hcr; [reflexivity|].
  cbn [contains] in Hlf, Hcr.
  destruct (Ascii.eqb c LF) eqn:Hc1; [done|].
  destruct (Ascii.eqb c CR) eqn:Hc2; [done|].
  rewrite append_cons. cbn [universal_newlines]. rewrite Hc1, Hc2.
  f_equal. by apply IH.
Qed.

Lemma readlines_nonempty (s : string) : s <> "" -> readlines s <> [].
Proof.
  destruct s as [|c s]; [done|]. intros _. cbn [readlines].
  destruct (Ascii.eqb c LF); [done|]. by destruct (readlines s).
Qed.

(** The lines after a complete text are the lines of what follows. *)
Lemma readlines_app (a b : string) :
  newline_terminated a = true -> readlines (a +:+ b) = readlines a ++ readlines b.
Proof.
  induction a as [|c a IH]; intros Hterm; [done|].
  rewrite append_cons. cbn [readlines].
  apply newline_terminated_tail in Hterm as [[-> ->]|[Hne Hterm]].
  - rewrite Ascii.eqb_refl. reflexivity.
  - rewrite IH by done.
    destruct (Ascii.eqb c LF); [done|].
    pose proof (readlines_nonempty a Hne) as Hlines.
    destruct (readlines a); [by destruct Hlines|done].
Qed.

Lemma readlines_line (id : string) :
  contains LF id = false ->
  readlines (id +:+ String LF "") = [id +:+ String LF ""].
Proof.
  induction id as [|c id IH]; intros Hlf; [reflexivity|].
  cbn [contains] in Hlf.
  destruct (Ascii.eqb c LF) eqn:Hc; [done|].
  rewrite append_cons. cbn [readlines]. rewrite Hc, IH by done. reflexivity.
Qed.

Lemma rstrip_line (s : string) : rstrip (s +:+ String LF "") = rstrip s.
Proof.
  induction s as [|c s IH]; [reflexivity|].
  rewrite append_cons. cbn [rstrip]. by rewrite IH.
Qed.

Lemma rstrip_visible_end (s : string) :
  match last_char s with Some c => visible c = true | None => True end ->
  rstrip s = s.
Proof.
  induction s as [|c s IH]; [done|]. destruct s as [|d s].
  - cbn. intros Hc. by rewrite (visible_not_space c Hc).
  - intros Hlast. change (last_char (String c (String d s)))
      with (last_char (String d s)) in Hlast.
    cbn [rstrip]. fold rstrip. specialize (IH Hlast).
    change (match rstrip (String d s) with
            | "" => if py_space c then "" else String c ""
            | kept => String c kept
            end = String c (String d s)).
    by rewrite IH.
Qed.

(** [strip] undoes the line feed and nothing else. *)
Lemma strip_line (id : string) :
  plain_id id = true -> strip (id +:+ String LF "") = id.
Proof.
  intros Hplain. apply plain_id_spec in Hplain as (_ & _ & Hfirst & Hlast).
  unfold strip. destruct id as [|c id]; [reflexivity|].
  rewrite append_cons. cbn [lstrip]. rewrite (visible_not_space c Hfirst).
  rewrite <- append_cons, rstrip_line. by apply rstrip_visible_end.
Qed.

Lemma mark_processed_terminated content id :
  newline_terminated (mark_processed content id) = true.
Proof.
  unfold mark_processed, newline_terminated.
  assert (H : forall s, last_char (s +:+ String LF "") = Some LF).
  { induction s as [|c s IHs]; [done|]. rewrite append_cons.
    destruct s; [done|]. exact IHs. }
  rewrite <- append_assoc_string, H. reflexivity.
Qed.

(** Marking a plain id adds it to what is read back. *)
Lemma read_processed_mark content id :
  newline_terminated content = true -> plain_id id = true ->
  read_processed (mark_processed content id) = read_processed content ++ [id].
Proof.
  intros Hterm Hplain.
  pose proof (plain_id_spec id Hplain) as (Hlf & Hcr & _).
  unfold read_processed, mark_processed.
  destruct content as [|c content].
  - change ("" +:+ id +:+ String LF "") with (id +:+ String LF "").
    rewrite universal_newlines_line, readlines_line by done.
    cbn [fmap list_fmap universal_newlines readlines app].
    by rewrite strip_line.
  - rewrite universal_newlines_app by done.
    rewrite readlines_app by (by apply universal_newlines_terminated).
    rewrite fmap_app, universal_newlines_line, readlines_line by done.
    cbn [fmap list_fmap]. by rewrite strip_line.
Qed.

(** The processed file after marking plain ids reads as the old lines
    followed by these ids. *)
Lemma read_processed_marks content ids :
  newline_terminated content = true ->
  Forall (fun id => plain_id id = true) ids ->
  read_processed (fold_left mark_processed ids content) = read_processed content ++ ids.
Proof.
  intros Hterm Hids. revert content Hterm.
  induction Hids as [|id ids Hid _ IH]; intros content Hterm.
  - by rewrite app_nil_r.
  - cbn [fold_left]. rewrite IH by apply mark_processed_terminated.
    rewrite read_processed_mark by done. by rewrite <- app_assoc.
Qed.

End ProcessedFileFacts.
(** ** The GraphQL exporter: what a run marks, writes and upserts *)

Module GraphqlRun.
Import Graphql PyFacts GraphqlFacts RunOrder Embedding Resume Ordering VectorIds.

(** A property of event lists that holds of the empty list and of
    concatenations holds of the events of a loop when it holds of each
    iteration. *)
Lemma for_each_events_ind {R A} (P : list (event R) -> Prop)
    (body : A -> M R unit) (xs : list A) n :
  P [] -> (forall l1 l2, P l1 -> P l2 -> P (l1 ++ l2)) ->
  (forall x k, P (events (body x) k)) ->
  P (events (for_each xs body) n).
Proof.
  intros Hnil Happ Hbody. revert n.
  induction xs as [|x xs IH]; intros n; cbn [for_each].
  - by rewrite events_ret.
  - rewrite events_bind. by apply Happ.
Qed.

Lemma filter_all_true {A} (P : A -> Prop) `{forall x, Decision (P x)} (l : list A) :
  (forall x, P x) -> filter P l = l.
Proof.
  intros HP. induction l as [|x l IH]; [done|].
  rewrite filter_cons_True by done. by rewrite IH.
Qed.

Lemma filter_ext_in {A} (P Q : A -> Prop)
    `{forall x, Decision (P x)} `{forall x, Decision (Q x)} (l : list A) :
  (forall x, x ∈ l -> P x <-> Q x) -> filter P l = filter Q l.
Proof.
  induction l as [|x l IH]; intros HPQ; [done|].
  rewrite !filter_cons.
  rewrite IH by (intros y Hy; apply HPQ; by right).
  specialize (HPQ x ltac:(by left)).
  destruct (decide (P x)), (decide (Q x)); tauto.
Qed.

Lemma concat_filter_singletons {A} (P : A -> Prop) `{forall x, Decision (P x)}
    (l : list A) :
  concat ((fun x => if decide (P x) then [x] else []) <$> l) = filter P l.
Proof.
  induction l as [|x l IH]; [done|].
  rewrite fmap_cons, filter_cons. cbn [concat]. rewrite IH.
  by destruct (decide (P x)).
Qed.

(** X11: under --force, and without a resume point, the GraphQL run processes
    every listed id, whatever the processed file holds. *)
Theorem X11_graphql_force_processes_everything
    (a : GraphqlMain.args) (e : GraphqlMain.env) (processed : list string)
    (transcript_ids : list string) (n : nat) :
  GraphqlMain.force a = true -> GraphqlMain.resume_from a = None ->
  processing_order (events (GraphqlMain.main a e processed transcript_ids) n)
  = transcript_ids.
Proof.
  intros Hforce Hresume.
  rewrite graphql_main_order, graphql_resume_none by done.
  unfold GraphqlMain.unprocessed. apply filter_all_true. intros. by right.
Qed.

Lemma X11_graphql_force_processes_everything_witness :
  processing_order
    (events (GraphqlMain.main (GraphqlMain.Args None None true) demo_graphql_env
               ["A"; "B"] ["A"; "B"; "C"]) 0)
  = ["A"; "B"; "C"].
Proof.
  apply (X11_graphql_force_processes_everything
           (GraphqlMain.Args None None true) demo_graphql_env);
    reflexivity.
Defined.

(** What one transcript leaves in the processed file. *)
Lemma graphql_export_transcript_marked a e tid n :
  marked (events (GraphqlMain.export_transcript a e tid) n)
  = if decide (exportable e tid = true) then [tid] else [].
Proof.
  unfold GraphqlMain.export_transcript, exportable. step_world.
  destruct (GraphqlMain.fetch_transcript_details e tid) as [t|];
    [|by step_world].
  destruct (GraphqlMain.transcript_truthy (Some t)); [|by step_world].
  cbv zeta. cbn [andb].
  destruct (decide (process_transcript t = [])) as [Hnil|Hnil].
  - rewrite (bool_decide_eq_true_2 _ Hnil).
    rewrite (bool_decide_eq_false_2 (process_transcript t <> []))
      by (intros H; by apply H).
    by step_world.
  - rewrite (bool_decide_eq_false_2 _ Hnil).
    rewrite (bool_decide_eq_true_2 (process_transcript t <> [])) by done.
    autorewrite with world.
    change (marked (EvProcessing tid :: ?l)) with (marked l).
    rewrite !marked_app.
    destruct (graphql_chunks_balanced a e tid (process_transcript t) n) as [_ ->].
    done.
Qed.

Lemma graphql_handle_resume_no_file a ids n :
  Forall (fun ev => file_event ev = false)
    (events (GraphqlMain.handle_resume a ids) n).
Proof.
  unfold GraphqlMain.handle_resume.
  destruct (GraphqlMain.resume_from a) as [r|]; [|constructor].
  destruct (str_truthy r); [|constructor].
  destruct (index r ids); step_world; by repeat constructor.
Qed.

Lemma graphql_main_marked a e processed ids n :
  marked (events (GraphqlMain.main a e processed ids) n)
  = filter (fun tid => exportable e tid = true)
      (processing_order (events (GraphqlMain.main a e processed ids) n)).
Proof.
  rewrite graphql_main_order.
  unfold GraphqlMain.main. cbv zeta. rewrite events_bind, marked_app.
  destruct (RestRun.no_file_observations _
              (graphql_handle_resume_no_file a
                 (GraphqlMain.unprocessed a processed ids) n))
    as (_ & _ & _ & -> & _).
  cbn [app].
  rewrite (for_each_observe marked _
             (fun tid => if decide (exportable e tid = true) then [tid] else []));
    auto using marked_app, graphql_export_transcript_marked.
  apply concat_filter_singletons.
Qed.

(** X12: the GraphQL run appends to the processed file exactly the processed
    transcripts whose details could be fetched and gave at least one chunk,
    in processing order, whether or not their chunks could be embedded; a
    transcript that could not be fetched or gave no chunk is left for a later
    run. *)
Theorem X12_graphql_marks_exactly_the_exportable_transcripts
    (a : GraphqlMain.args) (e : GraphqlMain.env) (processed : list string)
    (transcript_ids : list string) (n : nat) :
  marked (events (GraphqlMain.main a e processed transcript_ids) n)
  = filter (fun tid => exportable e tid = true)
      (processing_order (events (GraphqlMain.main a e processed transcript_ids) n)).
Proof. apply graphql_main_marked. Qed.

Lemma upserted_app {R} (l1 l2 : list (event R)) :
  upserted (l1 ++ l2) = upserted l1 ++ upserted l2.
Proof. apply omap_app. Qed.

Lemma graphql_create_embedding_no_file svc txt n :
  Forall (fun ev => file_event ev = false)
    (events (GraphqlMain.create_embedding svc txt) n).
Proof.
  unfold GraphqlMain.create_embedding. step_world.
  destruct (svc n txt); step_world; [by repeat constructor|].
  destruct (svc (S n) txt); step_world; by repeat constructor.
Qed.

(** The records one run of the chunk loop body writes and upserts. *)
Lemma graphql_export_chunk_files a e tid c n :
  (written (events (GraphqlMain.export_chunk a e tid c) n) = [] \/
   exists out,
     GraphqlMain.o_id out = GraphqlMain.vector_id tid (m_chunk_index (metadata c)) /\
     written (events (GraphqlMain.export_chunk a e tid c) n) = [out]) /\
  upserted (events (GraphqlMain.export_chunk a e tid c) n)
  = if GraphqlMain.opt_truthy (GraphqlMain.namespace a)
    then written (events (GraphqlMain.export_chunk a e tid c) n) else [].
Proof.
  unfold GraphqlMain.export_chunk. rewrite events_bind, written_app, upserted_app.
  destruct (RestRun.no_file_observations _
              (graphql_create_embedding_no_file (GraphqlMain.embed e) (text c) n))
    as (_ & _ & -> & _ & ->).
  cbn [app].
  destruct (result _ n) as [emb|]; step_world.
  - destruct (GraphqlMain.opt_truthy _); step_world.
    + destruct (GraphqlMain.upsert_ok e _); step_world;
        (split; [right; eexists; split; [|reflexivity]; reflexivity|reflexivity]).
    + split; [right; eexists; split; [|reflexivity]; reflexivity|reflexivity].
  - split; [by left|]. by destruct (GraphqlMain.opt_truthy _).
Qed.

(** X13: the GraphQL run sends records to the vector index only when
    --namespace is given and not empty, and then it sends exactly the records
    it appends to the output file, in the same order, also when an upsert
    fails. *)
Theorem X13_graphql_upserts_what_it_writes
    (a : GraphqlMain.args) (e : GraphqlMain.env) (processed : list string)
    (transcript_ids : list string) (n : nat) :
  let tr := events (GraphqlMain.main a e processed transcript_ids) n in
  upserted tr
  = if GraphqlMain.opt_truthy (GraphqlMain.namespace a) then written tr else [].
Proof.
  intros tr. subst tr.
  set (P := fun l : list (event GraphqlMain.output) =>
              upserted l = if GraphqlMain.opt_truthy (GraphqlMain.namespace a)
                           then written l else []).
  assert (Hnil : P []) by (unfold P; by destruct (GraphqlMain.opt_truthy _)).
  assert (Happ : forall l1 l2, P l1 -> P l2 -> P (l1 ++ l2)).
  { unfold P. intros l1 l2 H1 H2. rewrite upserted_app, written_app, H1, H2.
    by destruct (GraphqlMain.opt_truthy _). }
  assert (Hquiet : forall l,
            Forall (fun ev => file_event ev = false) l -> P l).
  { intros l Hl. unfold P.
    destruct (RestRun.no_file_observations l Hl) as (_ & _ & -> & _ & ->).
    by destruct (GraphqlMain.opt_truthy _). }
  change (P (events (GraphqlMain.main a e processed transcript_ids) n)).
  unfold GraphqlMain.main. cbv zeta. rewrite events_bind.
  apply Happ; [apply Hquiet, graphql_handle_resume_no_file|].
  apply for_each_events_ind; [done|done|].
  intros tid k. unfold GraphqlMain.export_transcript. rewrite events_bind.
  apply Happ; [apply Hquiet; by repeat constructor|].
  rewrite requests_after_emit.
  destruct (GraphqlMain.fetch_transcript_details e tid) as [t|];
    [|apply Hquiet; by repeat constructor].
  destruct (GraphqlMain.transcript_truthy _);
    [|apply Hquiet; by repeat constructor].
  cbv zeta. case_bool_decide; [apply Hquiet; by repeat constructor|].
  rewrite events_bind.
  apply Happ;
    [|unfold P; step_world; by destruct (GraphqlMain.opt_truthy _)].
  apply for_each_events_ind; [done|done|].
  intros c k'. unfold P. apply graphql_export_chunk_files.
Qed.

(** The ids one transcript can put into the output file. *)
Lemma graphql_export_transcript_written_ids a e tid n :
  GraphqlMain.o_id <$> written (events (GraphqlMain.export_transcript a e tid) n)
    `sublist_of` GraphqlMain.vector_id tid <$> seq 0 (chunk_count e tid).
Proof.
  unfold GraphqlMain.export_transcript, chunk_count. rewrite events_bind.
  rewrite events_emit, requests_after_emit. cbn [app].
  change (written (EvProcessing tid :: ?l)) with (written l).
  destruct (GraphqlMain.fetch_transcript_details e tid) as [t|];
    [|apply sublist_nil_l].
  destruct (GraphqlMain.transcript_truthy _); [|apply sublist_nil_l].
  cbv zeta. case_bool_decide; [apply sublist_nil_l|].
  rewrite !events_bind, !written_app. cbn. rewrite app_nil_r.
  rewrite <- (process_transcript_indices t), <- list_fmap_compose.
  generalize (process_transcript t) n. clear.
  intros cs. induction cs as [|c cs IH]; intros n; [done|].
  cbn [for_each]. rewrite events_bind, written_app, !fmap_app, fmap_cons.
  change (?x :: ?l) with ([x] ++ l). apply sublist_app; [|apply IH].
  destruct (graphql_export_chunk_files a e tid c n) as [[->|(out & Hid & ->)] _].
  - apply sublist_nil_l.
  - cbn. by rewrite Hid.
Qed.

Lemma elem_of_concat {A} (x : A) (ls : list (list A)) :
  x ∈ concat ls <-> exists l, x ∈ l /\ l ∈ ls.
Proof.
  induction ls as [|l ls IH]; cbn [concat].
  - split; [by intros ?%elem_of_nil|]. by intros (l & _ & ?%elem_of_nil).
  - rewrite elem_of_app, IH. split.
    + intros [Hx|(l' & Hx & Hl')]; [exists l; split; [done|by left]|].
      exists l'. split; [done|by right].
    + intros (l' & Hx & Hl'). apply elem_of_cons in Hl' as [->|Hl'];
        [by left|right; by exists l'].
Qed.

Lemma suffix_sublist {A} (l1 l2 : list A) :
  l1 `suffix_of` l2 -> l1 `sublist_of` l2.
Proof. intros [k ->]. by apply sublist_inserts_l. Qed.

Lemma vector_ids_NoDup (e : GraphqlMain.env) (tids : list string) :
  NoDup tids ->
  NoDup (concat ((fun tid => GraphqlMain.vector_id tid <$> seq 0 (chunk_count e tid))
                   <$> tids)).
Proof.
  induction 1 as [|tid tids Hnotin Hnodup IH]; [constructor|].
  rewrite fmap_cons. cbn [concat]. apply NoDup_app. split; [|split; [|done]].
  - apply NoDup_fmap_2; [|apply NoDup_seq].
    intros i j Hij. by apply graphql_vector_id_inj in Hij as [_ ->].
  - intros x Hx Hin.
    apply list_elem_of_fmap in Hx as (i & -> & _).
    apply elem_of_concat in Hin as (l & Hin & Hl).
    apply list_elem_of_fmap in Hl as (tid' & -> & Htid').
    apply list_elem_of_fmap in Hin as (j & Hij & _).
    apply graphql_vector_id_inj in Hij as [-> _]. done.
Qed.

(** X16: when the listing has no id twice, no two records a GraphQL run
    appends to the output file have the same vector id. *)
Theorem X16_graphql_written_ids_are_distinct
    (a : GraphqlMain.args) (e : GraphqlMain.env) (processed : list string)
    (transcript_ids : list string) (n : nat) :
  NoDup transcript_ids ->
  NoDup (GraphqlMain.o_id
           <$> written (events (GraphqlMain.main a e processed transcript_ids) n)).
Proof.
  intros Hnodup.
  set (todo := result (GraphqlMain.handle_resume a
                         (GraphqlMain.unprocessed a processed transcript_ids)) n).
  assert (Htodo : NoDup todo).
  { eapply sublist_NoDup; [|apply suffix_sublist, RestRun.graphql_resume_suffix].
    by apply NoDup_filter. }
  eapply sublist_NoDup; [apply (vector_ids_NoDup e todo Htodo)|].
  unfold GraphqlMain.main. cbv zeta. rewrite events_bind, written_app.
  destruct (RestRun.no_file_observations _
              (graphql_handle_resume_no_file a
                 (GraphqlMain.unprocessed a processed transcript_ids) n))
    as (_ & _ & -> & _).
  destruct (graphql_handle_resume_order a
              (GraphqlMain.unprocessed a processed transcript_ids) n) as [_ ->].
  cbn [app]. fold todo.
  generalize todo n. clear.
  intros tids. induction tids as [|tid tids IH]; intros n; [done|].
  cbn [for_each]. rewrite events_bind, written_app, fmap_app, fmap_cons.
  cbn [concat]. apply sublist_app; [|apply IH].
  apply graphql_export_transcript_written_ids.
Qed.

Lemma X16_graphql_written_ids_are_distinct_witness :
  NoDup (GraphqlMain.o_id
           <$> written (events (GraphqlMain.main demo_graphql_args demo_graphql_env
                                  [] ["A"; "B"]) 0)).
Proof.
  apply X16_graphql_written_ids_are_distinct.
  apply NoDup_cons. split; [|apply NoDup_singleton].
  intros H. apply list_elem_of_singleton in H. discriminate.
Defined.

(** X17: run the GraphQL exporter twice over the same listing and
    collaborators, without --force or a resume point.  The first run finds a
    processed file that is missing, empty or ends with a line feed; the second
    run reads the file as the first run left it.  When the listed ids hold no
    line break and begin and end with a visible character, so that
    [line.strip()] gives them back, the second run processes exactly the
    transcripts the first run processed but could not fetch or chunk. *)
Theorem X17_graphql_second_run_retries_only_the_skipped
    (a : GraphqlMain.args) (e : GraphqlMain.env) (content : string)
    (transcript_ids : list string) (n m : nat) :
  GraphqlMain.force a = false -> GraphqlMain.resume_from a = None ->
  newline_terminated content = true ->
  Forall (fun id => plain_id id = true) transcript_ids ->
  let first := events (GraphqlMain.main a e (ProcessedFile.read_processed content)
                         transcript_ids) n in
  let left := processed_file_after content first in
  processing_order
    (events (GraphqlMain.main a e (ProcessedFile.read_processed left)
               transcript_ids) m)
  = filter (fun tid => exportable e tid <> true) (processing_order first).
Proof.
  intros Hforce Hresume Hterm Hplain first left. subst left.
  assert (Hmarked : marked first
                    = filter (fun tid => exportable e tid = true)
                        (filter (fun id => id ∉ ProcessedFile.read_processed content)
                           transcript_ids)).
  { subst first. rewrite graphql_main_marked, graphql_main_order.
    by rewrite graphql_resume_none, graphql_unprocessed_filter. }
  unfold processed_file_after.
  rewrite ProcessedFileFacts.read_processed_marks; [|done|].
  - rewrite graphql_main_order, graphql_resume_none by done.
    rewrite graphql_unprocessed_filter by done.
    rewrite Hmarked. subst first.
    rewrite graphql_main_order, graphql_resume_none by done.
    rewrite graphql_unprocessed_filter by done.
    rewrite !list_filter_filter.
    apply filter_ext_in. intros tid Htid.
    rewrite not_elem_of_app, list_elem_of_filter.
    tauto.
  - rewrite Hmarked. rewrite Forall_forall in Hplain. apply Forall_forall.
    intros tid Htid.
    apply list_elem_of_filter in Htid as [_ Htid].
    apply list_elem_of_filter in Htid as [_ Htid]. by apply Hplain.
Qed.

Lemma X17_graphql_second_run_retries_only_the_skipped_witness :
  let e := GraphqlMain.Env demo_service
             (fun tid => if bool_decide (tid = "B") then None
                         else GraphqlMain.fetch_transcript_details demo_graphql_env tid)
             (fun _ => true) in
  let content := "A" +:+ String ProcessedFile.LF "" in
  let first := events (GraphqlMain.main demo_graphql_args e
                         (ProcessedFile.read_processed content)
                         ["A"; "B"; "C"]) 0 in
  processing_order first = ["B"; "C"] /\
  processing_order
    (events (GraphqlMain.main demo_graphql_args e
               (ProcessedFile.read_processed (processed_file_after content first))
               ["A"; "B"; "C"]) 0)
  = ["B"].
Proof.
  intros e content first. split; [vm_compute; reflexivity|].
  etransitivity.
  - apply (X17_graphql_second_run_retries_only_the_skipped
             demo_graphql_args e content ["A"; "B"; "C"] 0 0);
      [reflexivity|reflexivity|reflexivity|].
    repeat constructor.
  - vm_compute. reflexivity.
Defined.

(** An id that begins with a space is written as it is and read back without
    the space, so the next run does not find it in the processed file and
    exports the transcript a second time. *)
Lemma graphql_padded_id_is_exported_again :
  let first := events (GraphqlMain.main demo_graphql_args demo_graphql_env
                         (ProcessedFile.read_processed "") [" A"]) 0 in
  marked first = [" A"] /\
  ProcessedFile.read_processed (processed_file_after "" first) = ["A"] /\
  processing_order
    (events (GraphqlMain.main demo_graphql_args demo_graphql_env
               (ProcessedFile.read_processed (processed_file_after "" first))
               [" A"]) 0)
  = [" A"].
Proof. intros first. repeat split; vm_compute; reflexivity. Qed.

End GraphqlRun.

(** * The chunker: links between neighbouring chunks and edge cases *)
Module ChunkLinks.
Import Graphql PyFacts GraphqlFacts.

Lemma runs_by_single {K} `{EqDecision K} (key : sentence -> K) s rest :
  Forall (fun s' => key s' = key s) rest -> runs_by key (s :: rest) = [s :: rest].
Proof.
  revert s. induction rest as [|s' rest IH]; intros s Hall; [done|].
  apply Forall_cons in Hall as [Hs' Hall].
  change (runs_by key (s :: s' :: rest))
    with (match runs_by key (s' :: rest) with
          | (s'' :: run) :: runs =>
              if decide (key s = key s'') then (s :: s'' :: run) :: runs
              else [s] :: (s'' :: run) :: runs
          | _ => [[s]]
          end).
  rewrite IH.
  - rewrite decide_True; done.
  - eapply Forall_impl; [exact Hall|]. intros x Hx. cbn beta in Hx. congruence.
Qed.

Lemma blocks_length_le (blocks : list speaker_block) :
  Forall block_ok blocks ->
  (length blocks <= length (concat (sentences <$> blocks)))%nat.
Proof.
  induction 1 as [|b blocks [Hne _] _ IH]; [done|].
  rewrite fmap_cons. cbn [concat]. rewrite length_app. cbn [length].
  destruct (sentences b); [done|]. cbn [length]. lia.
Qed.

(** X14: of two chunks that follow each other, the first names the second's
    speaker as its [next_speaker] and the second names the first's speaker as
    its [prev_speaker]; neither of the two fields repeats the chunk's own
    speaker. *)
Theorem X14_neighbouring_chunks_name_each_other
    (t : transcript) (i : nat) (c c' : chunk) :
  process_transcript t !! i = Some c ->
  process_transcript t !! S i = Some c' ->
  m_next_speaker (metadata c) = m_speaker (metadata c') /\
  m_prev_speaker (metadata c') = m_speaker (metadata c) /\
  m_next_speaker (metadata c) <> m_speaker (metadata c) /\
  m_prev_speaker (metadata c') <> m_speaker (metadata c').
Proof.
  intros Hc Hc'.
  apply process_transcript_lookup in Hc as (b & Hb & ->).
  apply process_transcript_lookup in Hc' as (b' & Hb' & ->).
  destruct (group_sentences_spec (default [] (t_sentences t))) as (_ & _ & Hadj).
  set (blocks := group_sentences (default [] (t_sentences t))) in *.
  assert (Hne : speaker b <> speaker b').
  { apply (Hadj i); rewrite list_lookup_fmap; [by rewrite Hb|by rewrite Hb']. }
  pose proof (lookup_lt_Some _ _ _ Hb') as Hlt.
  assert (Hnext : m_next_speaker (metadata (make_chunk t blocks i b)) = speaker b').
  { cbn. rewrite decide_True by lia. unfold speaker_at.
    replace (i + 1)%nat with (S i) by lia. by rewrite Hb'. }
  assert (Hprev : m_prev_speaker (metadata (make_chunk t blocks (S i) b')) = speaker b).
  { cbn. unfold speaker_at.
    replace (i - 0)%nat with i by lia. by rewrite Hb. }
  rewrite Hnext, Hprev. cbn. repeat split; congruence.
Qed.

Lemma X14_neighbouring_chunks_name_each_other_witness :
  let t := Transcript None None None None None
             (Some [utt 1 "hi"; utt 1 "there"; utt 2 "hey"]) in
  exists c c',
    process_transcript t !! 0%nat = Some c /\
    process_transcript t !! 1%nat = Some c' /\
    m_next_speaker (metadata c) = Some "Speaker 2" /\
    m_next_speaker (metadata c) = m_speaker (metadata c') /\
    m_prev_speaker (metadata c') = m_speaker (metadata c).
Proof.
  intros t. eexists. eexists.
  split; [vm_compute; reflexivity|].
  split; [vm_compute; reflexivity|].
  split; [vm_compute; reflexivity|].
  split; eapply (X14_neighbouring_chunks_name_each_other t 0);
    vm_compute; reflexivity.
Defined.

(** X15: a transcript gives no chunk exactly when it has no sentence, be the
    key absent or the list empty; it never gives more chunks than it has
    sentences; and every speaker block behind a chunk holds at least one
    sentence. *)
Theorem X15_chunk_count_is_bounded_by_sentences (t : transcript) :
  let ss := default [] (t_sentences t) in
  (process_transcript t = [] <-> ss = []) /\
  (length (process_transcript t) <= length ss)%nat /\
  Forall (fun b => sentences b <> []) (group_sentences ss).
Proof.
  intros ss.
  destruct (group_sentences_spec ss) as (Hcat & Hok & _).
  split; [|split].
  - split.
    + intros Hnil. destruct (decide (ss = [])) as [|Hne]; [done|].
      apply group_sentences_nonempty in Hne.
      apply (f_equal length) in Hnil.
      rewrite process_transcript_length in Hnil. fold ss in Hnil.
      by destruct (group_sentences ss).
    + unfold process_transcript. fold ss. by intros ->.
  - rewrite process_transcript_length. fold ss.
    rewrite <- Hcat at 2. by apply blocks_length_le.
  - eapply Forall_impl; [exact Hok|]. by intros b [Hne _].
Qed.

(** X18: when all sentences carry one speaker label, the transcript becomes
    exactly one chunk: its text joins all sentence texts with single spaces,
    it is chunk 0 of 1, and both adjacency fields hold the string "None". *)
Theorem X18_one_speaker_gives_one_chunk
    (t : transcript) (s : sentence) (rest : list sentence) :
  default [] (t_sentences t) = s :: rest ->
  Forall (fun s' => speaker_name s' = speaker_name s) rest ->
  exists c,
    process_transcript t = [c] /\
    text c = join " " ((fun s' => default "" (s_text s')) <$> s :: rest) /\
    m_speaker (metadata c) = Some (speaker_name s) /\
    m_prev_speaker (metadata c) = Some "None" /\
    m_next_speaker (metadata c) = Some "None" /\
    m_chunk_index (metadata c) = 0%nat /\
    m_total_chunks (metadata c) = 1%nat.
Proof.
  intros Hss Hall.
  destruct (group_sentences_spec (s :: rest)) as (_ & Hok & _).
  pose proof (group_sentences_runs (s :: rest)) as Hruns.
  rewrite (runs_by_single speaker_name s rest Hall) in Hruns.
  unfold process_transcript. rewrite Hss.
  destruct (group_sentences (s :: rest)) as [|b [|b' blocks]]; [done| |done].
  injection Hruns as Hb.
  apply Forall_cons in Hok as [[_ Hlabel] _].
  rewrite Hb in Hlabel. apply Forall_cons in Hlabel as [Hspeaker _].
  eexists. split; [reflexivity|].
  cbn. unfold block_text. rewrite Hb, Hspeaker. by repeat split.
Qed.

Lemma X18_one_speaker_gives_one_chunk_witness :
  exists c,
    process_transcript
      (Transcript None None None None None (Some [utt 7 "good"; utt 7 "morning"]))
    = [c] /\
    text c = "good morning" /\
    m_speaker (metadata c) = Some "Speaker 7".
Proof.
  destruct (X18_one_speaker_gives_one_chunk
              (Transcript None None None None None
                 (Some [utt 7 "good"; utt 7 "morning"]))
              (utt 7 "good") [utt 7 "morning"] eq_refl)
    as (c & Hc & Htext & Hspeaker & _).
  { by repeat constructor. }
  exists c. split; [exact Hc|]. split; [exact Htext|exact Hspeaker].
Defined.

End ChunkLinks.

(** * Listing the transcript ids *)
Module GraphqlListingFacts.
Import GraphqlListing PyFacts.

Lemma truthy_id_nonempty t id : truthy_id t = Some id -> l_id t = Some id /\ id <> "".
Proof.
  unfold truthy_id. destruct (l_id t) as [s|]; [|done].
  destruct s; [done|]. by intros [= <-].
Qed.

Lemma omap_sublist {A B} (f : A -> option B) (l1 l2 : list A) :
  l1 `sublist_of` l2 -> omap f l1 `sublist_of` omap f l2.
Proof.
  induction 1 as [|x l1 l2 _ IH|x l1 l2 _ IH]; cbn; [done| |].
  - destruct (f x); [by apply sublist_skip|done].
  - destruct (f x); [by apply sublist_cons|done].
Qed.

(** The limit keeps a prefix: the first [limit] transcripts when [limit] is
    positive, all of them when it is 0, and all but the last [-limit] when it
    is negative. *)
Lemma apply_limit_take (limit : Z) (ts : list listed) :
  apply_limit limit ts
  = take (if decide (0 < limit) then Z.to_nat limit
          else if decide (limit = 0) then length ts
          else (length ts - Z.to_nat (- limit))%nat) ts.
Proof.
  unfold apply_limit, slice.
  case_bool_decide as Hzero; cbn [andb].
  - case_bool_decide as Hlen; cbn [andb].
    + rewrite drop_0. case_decide as Hneg.
      * rewrite decide_False, decide_False by lia. f_equal. lia.
      * rewrite decide_True by lia. f_equal. lia.
    + rewrite decide_True by lia. rewrite take_ge; [done|lia].
  - assert (limit = 0) as -> by (destruct (decide (limit = 0)); [done|contradiction]).
    rewrite decide_False, decide_True by lia. by rewrite firstn_all.
Qed.

Lemma apply_limit_sublist limit ts : apply_limit limit ts `sublist_of` ts.
Proof. rewrite apply_limit_take. apply sublist_take. Qed.

Lemma apply_limit_length limit ts :
  0 < limit -> Z.of_nat (length (apply_limit limit ts)) <= limit.
Proof.
  intros Hpos. rewrite apply_limit_take, decide_True by done.
  rewrite length_take. lia.
Qed.

Lemma omap_length_le {A B} (f : A -> option B) (l : list A) :
  (length (omap f l) <= length l)%nat.
Proof.
  induction l as [|x l IH]; cbn; [done|].
  destruct (f x); cbn; lia.
Qed.

(** The transcripts whose ids the listing returns: a sub-list of the
    response, cut by the limit. *)
Lemma fetch_transcripts_graphql_kept r sd ed limit :
  exists kept,
    fetch_transcripts_graphql r sd ed limit = omap truthy_id (apply_limit limit kept) /\
    kept `sublist_of` listed_in r.
Proof.
  unfold fetch_transcripts_graphql.
  destruct r as [st| |ts|];
    try (exists []; split; [by rewrite apply_limit_take, take_nil|done]).
  cbn [listed_in].
  destruct (given sd || given ed).
  - destruct (timestamp sd) as [s|]; [destruct (timestamp ed) as [e|]|].
    + eexists. split; [reflexivity|apply sublist_filter].
    + exists []. split; [by rewrite apply_limit_take, take_nil|apply sublist_nil_l].
    + exists []. split; [by rewrite apply_limit_take, take_nil|apply sublist_nil_l].
  - by exists ts.
Qed.

(** X19: whatever the response and the options, the ids the GraphQL listing
    returns are non-empty ids of the response's transcripts, in the order of
    the response, none of them invented or repeated more often than listed; a
    failed request and a date option that does not parse both give the empty
    listing. *)
Theorem X19_graphql_listing_returns_listed_ids
    (r : response) (start_date end_date : date_option) (limit : Z) :
  let ids := fetch_transcripts_graphql r start_date end_date limit in
  ("" ∉ ids) /\
  ids `sublist_of` omap truthy_id (listed_in r) /\
  fetch_transcripts_graphql r BadDate end_date limit = [] /\
  fetch_transcripts_graphql r start_date BadDate limit = [].
Proof.
  intros ids. subst ids.
  destruct (fetch_transcripts_graphql_kept r start_date end_date limit)
    as (kept & -> & Hkept).
  split; [|split; [|split]].
  - intros Hin. apply list_elem_of_omap in Hin as (t & _ & Ht).
    by apply truthy_id_nonempty in Ht as [_ ?].
  - apply omap_sublist. etransitivity; [apply apply_limit_sublist|done].
  - destruct r; [done..| |done]. reflexivity.
  - destruct r; [done..| |done]. cbn.
    rewrite orb_true_r. by destruct (timestamp start_date).
Qed.

(** X20: with a positive [limit] the GraphQL listing returns at most that
    many ids, whatever the response and the date options. *)
Theorem X20_graphql_listing_respects_limit
    (r : response) (start_date end_date : date_option) (limit : Z) :
  0 < limit ->
  Z.of_nat (length (fetch_transcripts_graphql r start_date end_date limit)) <= limit.
Proof.
  intros Hpos.
  destruct (fetch_transcripts_graphql_kept r start_date end_date limit)
    as (kept & -> & _).
  pose proof (omap_length_le truthy_id (apply_limit limit kept)).
  pose proof (apply_limit_length limit kept Hpos). lia.
Qed.

Lemma X20_graphql_listing_respects_limit_witness :
  Z.of_nat (length (fetch_transcripts_graphql
                      (Data [Listed (Some "a") (Some 5); Listed (Some "b") None;
                             Listed (Some "c") (Some 7)])
                      NoDate NoDate 2)) <= 2.
Proof.
  apply X20_graphql_listing_respects_limit. lia.
Defined.

(** X21: the limit is applied to the transcripts, before those without an id
    are dropped: without date options the listing is the non-empty ids among
    the first [limit] transcripts of the response.  A limit of 0 means no
    limit, and a negative limit leaves out that many transcripts at the end of
    the response. *)
Theorem X21_graphql_limit_counts_transcripts (ts : list listed) (limit : Z) :
  fetch_transcripts_graphql (Data ts) NoDate NoDate limit
  = omap truthy_id
      (take (if decide (0 < limit) then Z.to_nat limit
             else if decide (limit = 0) then length ts
             else (length ts - Z.to_nat (- limit))%nat) ts).
Proof. cbn. by rewrite apply_limit_take. Qed.

(** X22: with a date option that parses and no limit, the listing returns an
    id exactly when the response has a transcript with this non-empty id
    whose recording time is present, not 0, not before the start and not
    after the end; a bound that is absent or 0 does not restrict. *)
Theorem X22_graphql_date_filter_is_inclusive
    (ts : list listed) (start_date end_date : date_option)
    (s e : option Z) (id : string) :
  given start_date || given end_date = true ->
  timestamp start_date = Some s -> timestamp end_date = Some e ->
  id ∈ fetch_transcripts_graphql (Data ts) start_date end_date 0 <->
  exists t d,
    t ∈ ts /\ l_id t = Some id /\ id <> "" /\
    l_date t = Some d /\ d <> 0 /\
    (forall s', s = Some s' -> s' <> 0 -> s' <= d) /\
    (forall e', e = Some e' -> e' <> 0 -> d <= e').
Proof.
  intros Hgiven Hs He. unfold fetch_transcripts_graphql.
  rewrite Hgiven, Hs, He, apply_limit_take.
  rewrite decide_False, decide_True by lia. rewrite firstn_all.
  rewrite list_elem_of_omap. split.
  - intros (t & Ht & Hid).
    apply list_elem_of_filter in Ht as [Hrange Ht].
    apply truthy_id_nonempty in Hid as [Hid Hne].
    unfold in_range in Hrange.
    destruct (l_date t) as [d|] eqn:Hd; [|done].
    case_decide as Hzero; [done|].
    apply andb_true_iff in Hrange as [Hearly Hlate].
    exists t, d. repeat split; try done.
    + intros s' -> Hs'. rewrite negb_true_iff, andb_false_iff in Hearly.
      destruct Hearly as [H|H]; apply bool_decide_eq_false_1 in H; lia.
    + intros e' -> He'. rewrite negb_true_iff, andb_false_iff in Hlate.
      destruct Hlate as [H|H]; apply bool_decide_eq_false_1 in H; lia.
  - intros (t & d & Ht & Hid & Hne & Hd & Hzero & Hstart & Hend).
    exists t. split.
    + apply list_elem_of_filter. split; [|done].
      unfold in_range. rewrite Hd, decide_False by done.
      apply andb_true_iff. split; apply negb_true_iff.
      * destruct s as [s'|]; [|done]. apply andb_false_iff.
        destruct (decide (s' = 0)) as [->|Hs'];
          [left; by apply bool_decide_eq_false_2; intros ?|].
        right. apply bool_decide_eq_false_2. specialize (Hstart s' eq_refl Hs'). lia.
      * destruct e as [e'|]; [|done]. apply andb_false_iff.
        destruct (decide (e' = 0)) as [->|He'];
          [left; by apply bool_decide_eq_false_2; intros ?|].
        right. apply bool_decide_eq_false_2. specialize (Hend e' eq_refl He'). lia.
    + unfold truthy_id. rewrite Hid. by destruct id.
Qed.

Lemma X22_graphql_date_filter_is_inclusive_witness :
  "b" ∈ fetch_transcripts_graphql
          (Data [Listed (Some "a") (Some 5); Listed (Some "b") (Some 10);
                 Listed (Some "c") None])
          (Date 10) NoDate 0.
Proof.
  apply (X22_graphql_date_filter_is_inclusive _ (Date 10) NoDate (Some 10) None);
    [reflexivity..|].
  exists (Listed (Some "b") (Some 10)), 10.
  split; [apply list_elem_of_lookup_2 with 1%nat; reflexivity|].
  repeat split; try done.
  intros s' [= <-] _. lia.
Defined.

End GraphqlListingFacts.

Module RestListingFacts.
Import RestListing PyFacts.

(** Pages asked for before the loop is entered stay in front. *)
Lemma listing_loop_asked srv fuel calls page acc pre asked :
  listing_loop srv fuel calls page acc (pre ++ asked)
  = (fun r => (r.1, pre ++ r.2)) <$> listing_loop srv fuel calls page acc asked.
Proof.
  revert calls page acc asked.
  induction fuel as [|fuel IH]; intros calls page acc asked; [done|].
  cbn [listing_loop].
  destruct (srv calls page) as [data total|status].
  - cbv zeta. rewrite <- (assoc_L (++)).
    destruct (_ || _); [done|]. apply IH.
  - rewrite <- (assoc_L (++)).
    case_bool_decide; [apply IH|done].
Qed.

(** Once the rate limit is over, the loop runs as against the service
    itself. *)
Lemma listing_loop_after_rate_limit r srv fuel calls page acc asked :
  listing_loop (rate_limited_first r srv) fuel (r + calls) page acc asked
  = listing_loop srv fuel calls page acc asked.
Proof.
  revert calls page acc asked.
  induction fuel as [|fuel IH]; intros calls page acc asked; [done|].
  cbn [listing_loop]. unfold rate_limited_first at 1.
  rewrite decide_False by lia.
  replace (r + calls - r)%nat with calls by lia.
  replace (S (r + calls)) with (r + S calls)%nat by lia.
  destruct (srv calls page) as [data total|status].
  - cbv zeta. destruct (_ || _); [done|]. apply IH.
  - case_bool_decide; [apply IH|done].
Qed.

(** While the rate limit lasts, every request asks for the same page again. *)
Lemma listing_loop_rate_limited r srv fuel k calls page acc asked :
  (calls + k = r)%nat ->
  listing_loop (rate_limited_first r srv) (k + fuel) calls page acc asked
  = listing_loop (rate_limited_first r srv) fuel r page acc
      (asked ++ replicate k page).
Proof.
  revert calls asked. induction k as [|k IH]; intros calls asked Hk.
  - cbn [replicate Nat.add]. rewrite app_nil_r. by replace calls with r by lia.
  - cbn [Nat.add listing_loop]. unfold rate_limited_first at 1.
    rewrite decide_True by lia.
    rewrite bool_decide_eq_true_2 by done.
    rewrite IH by lia. cbn [replicate]. by rewrite <- (assoc_L (++)).
Qed.

(** X23: a service that answers the first [r] requests with status 429 costs
    the listing exactly [r] more requests, all for page 1, and changes
    nothing else: the ids and the later pages asked for are those of a run
    against the service without the rate limit. *)
Theorem X23_rest_listing_retries_rate_limited_page
    (r : nat) (srv : server) (fuel : nat) :
  get_all_transcript_ids (rate_limited_first r srv) (r + fuel)
  = (fun res => (res.1, replicate r 1 ++ res.2))
      <$> get_all_transcript_ids srv fuel.
Proof.
  unfold get_all_transcript_ids.
  rewrite (listing_loop_rate_limited r srv fuel r 0) by lia.
  rewrite <- (Nat.add_0_r r) at 2.
  rewrite listing_loop_after_rate_limit. cbn [app].
  rewrite <- (app_nil_r (replicate r 1)) at 1.
  apply listing_loop_asked.
Qed.

Lemma listing_loop_always_rate_limited srv fuel calls page acc asked :
  (forall c p, srv c p = RequestFailed (Some 429)) ->
  listing_loop srv fuel calls page acc asked = None.
Proof.
  intros Hsrv. revert calls asked.
  induction fuel as [|fuel IH]; intros calls asked; [done|].
  cbn [listing_loop]. rewrite Hsrv.
  rewrite bool_decide_eq_true_2 by done. apply IH.
Qed.

(** X24: against a service that answers every request with status 429 the
    listing loop never ends: no number of requests is enough for it to
    return. *)
Theorem X24_rest_listing_never_gives_up_on_429 (srv : server) (fuel : nat) :
  (forall calls page, srv calls page = RequestFailed (Some 429)) ->
  get_all_transcript_ids srv fuel = None.
Proof. intros Hsrv. by apply listing_loop_always_rate_limited. Qed.

Lemma X24_rest_listing_never_gives_up_on_429_witness :
  get_all_transcript_ids (fun _ _ => RequestFailed (Some 429)) 1000 = None.
Proof.
  apply X24_rest_listing_never_gives_up_on_429. reflexivity.
Defined.

Lemma listing_loop_returns srv (bound : Z) fuel calls page acc asked :
  (forall c p, srv c p <> RequestFailed (Some 429)) ->
  (forall c p data total, srv c p = Page data total -> default 0 total <= bound) ->
  bound - Z.of_nat (length acc) < Z.of_nat fuel ->
  (0 < fuel)%nat ->
  is_Some (listing_loop srv fuel calls page acc asked).
Proof.
  intros Hno429 Hbound. revert calls page acc asked.
  induction fuel as [|fuel IH]; intros calls page acc asked Hfuel Hpos; [lia|].
  cbn [listing_loop].
  destruct (srv calls page) as [data total|status] eqn:Hreply.
  - cbv zeta.
    destruct (bool_decide (_ >= _)) eqn:Hcount; cbn [orb]; [eauto|].
    destruct (bool_decide (default [] data = [])) eqn:Hempty; [eauto|].
    apply bool_decide_eq_false_1 in Hcount.
    apply bool_decide_eq_false_1 in Hempty.
    pose proof (Hbound _ _ _ _ Hreply) as Htotal.
    assert (0 < length (default [] data))%nat
      by (destruct (default [] data); [done|cbn; lia]).
    rewrite length_app in Hcount.
    apply IH; rewrite ?length_app; lia.
  - case_bool_decide as H429; [|eauto].
    subst status. by destruct (Hno429 calls page).
Qed.

(** X25: when the service never answers 429 and never reports a total above
    [bound], the listing returns after at most [bound + 1] requests (one, when
    the bound is not positive). *)
Theorem X25_rest_listing_returns_when_not_rate_limited
    (srv : server) (bound : Z) :
  (forall calls page, srv calls page <> RequestFailed (Some 429)) ->
  (forall calls page data total,
     srv calls page = Page data total -> default 0 total <= bound) ->
  exists ids asked,
    get_all_transcript_ids srv (S (Z.to_nat bound)) = Some (ids, asked) /\
    Z.of_nat (length asked) <= Z.max bound 0 + 1.
Proof.
  intros Hno429 Hbound.
  destruct (listing_loop_returns srv bound (S (Z.to_nat bound)) 0 1 [] []
              Hno429 Hbound) as [[ids asked] Hres]; [cbn [length]; lia|lia|].
  exists ids, asked. split; [exact Hres|].
  assert (Hlen : forall fuel calls page acc asked0 ids' asked',
            listing_loop srv fuel calls page acc asked0 = Some (ids', asked') ->
            (length asked' <= length asked0 + fuel)%nat).
  { clear. induction fuel as [|fuel IH]; intros calls page acc asked0 ids' asked';
      [done|].
    cbn [listing_loop].
    destruct (srv calls page) as [data total|status].
    - cbv zeta. destruct (_ || _).
      + intros [= <- <-]. rewrite length_app. cbn. lia.
      + intros Hl. apply IH in Hl. rewrite length_app in Hl. cbn in Hl. lia.
    - case_bool_decide.
      + intros Hl. apply IH in Hl. rewrite length_app in Hl. cbn in Hl. lia.
      + intros [= <- <-]. rewrite length_app. cbn. lia. }
  apply Hlen in Hres. cbn [length] in Hres. lia.
Qed.

Lemma X25_rest_listing_returns_when_not_rate_limited_witness :
  exists ids asked,
    get_all_transcript_ids (serves_until 1 ["a"; "b"; "c"]) (S (Z.to_nat 3))
    = Some (ids, asked) /\
    Z.of_nat (length asked) <= Z.max 3 0 + 1.
Proof.
  apply (X25_rest_listing_returns_when_not_rate_limited
           (serves_until 1 ["a"; "b"; "c"]) 3).
  - intros calls page. unfold serves_until. by case_decide.
  - intros calls page data total. unfold serves_until.
    case_decide; [|done]. intros [= <- <-]. cbn. lia.
Defined.

Lemma slice_page {A} (l : list A) (calls : nat) :
  take (100 * calls) l ++ slice l ((Z.of_nat calls + 1 - 1) * 100) ((Z.of_nat calls + 1) * 100)
  = take (100 * S calls) l.
Proof.
  unfold slice. rewrite decide_False by lia.
  replace (Z.to_nat ((Z.of_nat calls + 1) * 100 - (Z.of_nat calls + 1 - 1) * 100))
    with 100%nat by lia.
  replace (Z.to_nat ((Z.of_nat calls + 1 - 1) * 100)) with (100 * calls)%nat by lia.
  replace (100 * S calls)%nat with (100 * calls + 100)%nat by lia.
  by rewrite take_take_drop.
Qed.

Lemma listing_loop_serves_until k (listing : list string) fuel calls asked :
  (calls <= k)%nat -> (k - calls < fuel)%nat ->
  fst <$> listing_loop (serves_until k listing) fuel calls (Z.of_nat calls + 1)
            (take (100 * calls) listing) asked
  = Some (take (100 * k) listing).
Proof.
  revert calls asked. induction fuel as [|fuel IH]; intros calls asked Hle Hfuel; [lia|].
  cbn [listing_loop]. unfold serves_until at 1.
  case_decide as Hcalls.
  - cbv zeta. cbn [default from_option id]. rewrite slice_page.
    destruct (_ || _) eqn:Hstop.
    + cbn. f_equal.
      apply orb_true_iff in Hstop as [Hcount|Hempty].
      * apply bool_decide_eq_true_1 in Hcount. rewrite length_take in Hcount.
        rewrite !take_ge; [done|lia|lia].
      * apply bool_decide_eq_true_1 in Hempty.
        apply (f_equal length) in Hempty. unfold slice in Hempty.
        rewrite decide_False in Hempty by lia.
        rewrite length_take, length_drop in Hempty. cbn [length] in Hempty.
        rewrite !take_ge; [done|lia|lia].
    + replace (Z.of_nat calls + 1 + 1) with (Z.of_nat (S calls) + 1) by lia.
      apply IH; lia.
  - rewrite bool_decide_eq_false_2 by done. cbn.
    by replace calls with k by lia.
Qed.

(** X26: against a service that answers [k] requests honestly, a hundred
    transcripts per page, and fails every later one with status 500, the
    listing returns, without raising, the ids of the pages fetched before the
    failure: the first [100 * k] transcripts, the whole list when that many
    pages cover it. *)
Theorem X26_rest_listing_keeps_pages_before_failure
    (k : nat) (listing : list string) (fuel : nat) :
  (k < fuel)%nat ->
  fst <$> get_all_transcript_ids (serves_until k listing) fuel
  = Some (take (100 * k) listing).
Proof.
  intros Hfuel. unfold get_all_transcript_ids.
  apply (listing_loop_serves_until k listing fuel 0 []); lia.
Qed.

Lemma X26_rest_listing_keeps_pages_before_failure_witness :
  fst <$> get_all_transcript_ids (serves_until 0 ["a"; "b"]) 1 = Some [] /\
  fst <$> get_all_transcript_ids (serves_until 1 ["a"; "b"]) 2 = Some ["a"; "b"].
Proof.
  split.
  - apply (X26_rest_listing_keeps_pages_before_failure 0 ["a"; "b"] 1). lia.
  - apply (X26_rest_listing_keeps_pages_before_failure 1 ["a"; "b"] 2). lia.
Defined.

End RestListingFacts.

(** * Restarting the REST exporter from the checkpoint file *)
Module RestRestart.
Import CheckpointFile PyFacts RunOrder Resume.

(** What is read back is what was saved, whatever the order in the file. *)
Lemma load_saved_checkpoint (ids : gset string) (l : list string) :
  l ≡ₚ elements ids -> load_checkpoint (save_checkpoint l) = ids.
Proof.
  intros Hl. cbn. apply set_eq. intros x.
  by rewrite elem_of_list_to_set, Hl, elem_of_elements.
Qed.

Lemma left_on_file_loads found (checkpoint : gset string) saved left :
  load_checkpoint found = checkpoint ->
  left_on_file found saved left ->
  Some (load_checkpoint left) = last (checkpoint :: saved).
Proof.
  intros Hfound. unfold left_on_file.
  destruct (last saved) as [ids|] eqn:Hlast.
  - intros (l & Hl & ->). rewrite (load_saved_checkpoint ids l Hl).
    destruct saved; [done|]. by rewrite last_cons, Hlast.
  - intros ->. apply last_None in Hlast as ->. by rewrite Hfound.
Qed.

(** X27: start the REST exporter again over the same listing, with a positive
    batch size, the checkpoint file the first run left and no resume point:
    the second run processes exactly the transcripts the first run processed
    without getting a vector into its output. *)
Theorem X27_rest_second_run_retries_only_the_failed
    (a : Rest.args) (e : Rest.env) (found left : file)
    (transcript_ids : list string) (n m : nat) :
  0 < Rest.batch_size a -> Rest.resume_from a = None ->
  let first := events (Rest.main a e (load_checkpoint found) transcript_ids) n in
  left_on_file found (saves first) left ->
  processing_order (events (Rest.main a e (load_checkpoint left) transcript_ids) m)
  = filter (fun id => id ∉ source_of <$> (written first ++ concat (dumps first)))
      (processing_order first).
Proof.
  intros Hbs Hresume first Hleft.
  apply (left_on_file_loads _ _ _ _ eq_refl) in Hleft.
  assert (Hloaded : load_checkpoint left
                    = load_checkpoint found
                      ∪ list_to_set (source_of <$> (written first
                                                    ++ concat (dumps first)))).
  { subst first.
    destruct (RestRun.rest_main_spec a e (load_checkpoint found) transcript_ids n)
      as (_ & Hlast & Hw & Hd & _).
    cbv zeta in Hlast, Hw, Hd. rewrite Hlast in Hleft. injection Hleft as ->.
    rewrite Hw, Hd.
    destruct (Rest.format a); [by rewrite app_nil_r|].
    case_bool_decide as Hnew; cbn [app concat]; [by rewrite app_nil_r|].
    by rewrite Hnew. }
  rewrite Hloaded. subst first.
  rewrite !rest_main_order, !rest_resume_none, !rest_remaining_filter by done.
  rewrite list_filter_filter.
  apply list_filter_iff. intros id.
  rewrite not_elem_of_union, elem_of_list_to_set. tauto.
Qed.

Lemma X27_rest_second_run_retries_only_the_failed_witness :
  let e := Rest.Env demo_service
             (fun tid => if bool_decide (tid = "B") then None
                         else Rest.get_transcript_details demo_rest_env tid)
             (fun _ => []) in
  let first := events (Rest.main demo_rest_args e (load_checkpoint Missing)
                         ["A"; "B"; "C"]) 0 in
  left_on_file Missing (saves first) (save_checkpoint ["C"; "A"]) /\
  processing_order
    (events (Rest.main demo_rest_args e (load_checkpoint (save_checkpoint ["C"; "A"]))
               ["A"; "B"; "C"]) 0)
  = ["B"].
Proof.
  intros e first.
  assert (Hleft : left_on_file Missing (saves first) (save_checkpoint ["C"; "A"])).
  { unfold left_on_file.
    replace (last (saves first)) with (Some ({[ "A"; "C" ]} : gset string))
      by (vm_compute; reflexivity).
    exists ["C"; "A"]. split; [|reflexivity].
    apply NoDup_Permutation.
    - apply NoDup_cons. split; [|apply NoDup_singleton].
      intros H. apply list_elem_of_singleton in H. discriminate.
    - apply NoDup_elements.
    - intros x. rewrite elem_of_elements, !elem_of_cons, elem_of_nil.
      rewrite elem_of_union, !elem_of_singleton. tauto. }
  split; [exact Hleft|].
  etransitivity.
  - apply (X27_rest_second_run_retries_only_the_failed
             demo_rest_args e Missing (save_checkpoint ["C"; "A"])
             ["A"; "B"; "C"] 0 0); [reflexivity|reflexivity|exact Hleft].
  - vm_compute. reflexivity.
Defined.

End RestRestart.

(** * The topics clean-up of the REST exporter *)
Module RestTopicsFacts.
Import RestTopics PyFacts.

Lemma last_char_drop_last s c :
  last_char s = Some c -> s = drop_last s +:+ String c "".
Proof.
  induction s as [|a [|b rest] IH]; [done| |].
  - by intros [= ->].
  - intros Hlast. change (String a (String b rest)
                          = String a (drop_last (String b rest) +:+ String c "")).
    f_equal. by apply IH.
Qed.

Lemma drop_last_length s c :
  last_char s = Some c -> String.length s = S (String.length (drop_last s)).
Proof.
  induction s as [|a [|b rest] IH]; [done|done|].
  intros Hlast. change (S (String.length (String b rest))
                        = S (S (String.length (drop_last (String b rest))))).
  f_equal. by apply IH.
Qed.

Lemma append_assoc (a b c : string) : (a +:+ b) +:+ c = a +:+ (b +:+ c).
Proof.
  induction a as [|x a IH]; [done|].
  change (String x ((a +:+ b) +:+ c) = String x (a +:+ (b +:+ c))). by rewrite IH.
Qed.

Lemma strip_loop_spec fuel topic :
  (String.length topic <= fuel)%nat ->
  (forall c, last_char (strip_loop fuel topic) = Some c -> end_punctuation c = false) /\
  exists cut, topic = strip_loop fuel topic +:+ cut /\ only_punctuation cut = true.
Proof.
  revert topic. induction fuel as [|fuel IH]; intros topic Hfuel.
  - destruct topic; [|cbn in Hfuel; lia].
    split; [done|]. by exists "".
  - cbn [strip_loop]. destruct (last_char topic) as [c|] eqn:Hlast.
    + destruct (end_punctuation c) eqn:Hc.
      * pose proof (drop_last_length topic c Hlast) as Hlen.
        destruct (IH (drop_last topic)) as (Hend & cut & Hcut & Hpunct); [lia|].
        split; [exact Hend|].
        exists (cut +:+ String c ""). split.
        -- rewrite <- append_assoc, <- Hcut. by apply last_char_drop_last.
        -- clear -Hpunct Hc. induction cut as [|x cut IHc].
           ++ change (end_punctuation c && true = true). by rewrite Hc.
           ++ change (end_punctuation x && only_punctuation cut = true) in Hpunct.
              apply andb_true_iff in Hpunct as [Hx Hcut].
              change (end_punctuation x && only_punctuation (cut +:+ String c "")
                      = true).
              by rewrite Hx, IHc.
      * split; [intros c' Hc'; congruence|].
        exists "". split; [by rewrite RestTexts.append_empty_r|done].
    + split; [intros c' Hc'; congruence|].
      exists "". split; [by rewrite RestTexts.append_empty_r|done].
Qed.

Lemma clean_topics_spec topics topic :
  topic ∈ clean_topics topics ->
  (2 < String.length topic)%nat /\
  (forall c, last_char topic = Some c -> end_punctuation c = false) /\
  exists found cut,
    found ∈ topics /\ found = topic +:+ cut /\ only_punctuation cut = true.
Proof.
  unfold clean_topics. intros Hin.
  apply list_elem_of_filter in Hin as [[_ Hlen] Hin].
  apply list_elem_of_fmap in Hin as (found & -> & Hfound).
  destruct (strip_loop_spec (String.length found) found) as (Hend & cut & Hcut & Hpunct);
    [done|].
  split; [done|]. split; [exact Hend|]. by exists found, cut.
Qed.

(** X29: whatever order Python lists the set in, [extract_topics] returns at
    most five topics, no topic twice; every one of them is longer than two
    characters, does not end in one of [.,;:], and is one of the topics found
    with nothing but such marks cut off its end. *)
Theorem X29_topics_are_few_distinct_and_trimmed
    (topics returned : list string) :
  extract_topics_returns topics returned ->
  (length returned <= 5)%nat /\
  NoDup returned /\
  Forall (fun topic =>
            (2 < String.length topic)%nat /\
            (forall c, last_char topic = Some c -> end_punctuation c = false) /\
            exists found cut,
              found ∈ topics /\ found = topic +:+ cut /\
              only_punctuation cut = true) returned.
Proof.
  intros (order & Horder & ->). unfold slice. cbn [decide]. rewrite drop_0.
  rewrite decide_False by lia.
  split; [|split].
  - rewrite length_take. lia.
  - eapply sublist_NoDup; [|apply sublist_take].
    rewrite Horder. apply NoDup_elements.
  - apply Forall_forall. intros topic Hin.
    apply (clean_topics_spec topics).
    apply elem_of_take in Hin as (i & Hin & _).
    apply list_elem_of_lookup_2 in Hin. rewrite Horder in Hin.
    by apply elem_of_elements, elem_of_list_to_set in Hin.
Qed.

Lemma X29_topics_are_few_distinct_and_trimmed_witness :
  extract_topics_returns ["plan.;"; "ok."; "plan"] ["plan"] /\
  (length ["plan"] <= 5)%nat.
Proof.
  assert (H : extract_topics_returns ["plan.;"; "ok."; "plan"] ["plan"]).
  { exists ["plan"]. split; [|reflexivity].
    apply NoDup_Permutation.
    - apply NoDup_singleton.
    - apply NoDup_elements.
    - intros x. rewrite elem_of_elements, elem_of_list_to_set.
      rewrite list_elem_of_singleton. split.
      + intros ->. apply list_elem_of_lookup_2 with 0%nat. reflexivity.
      + intros Hx.
        change (clean_topics ["plan.;"; "ok."; "plan"]) with ["plan"; "plan"] in Hx.
        apply elem_of_cons in Hx as [->|Hx]; [done|].
        by apply list_elem_of_singleton in Hx. }
  split; [exact H|].
  apply (X29_topics_are_few_distinct_and_trimmed _ _ H).
Defined.

End RestTopicsFacts.

(** * The GraphQL exporter from the listing response on *)
Module GraphqlProgram.
Import GraphqlListing PyFacts RunOrder.

(** X28: the GraphQL exporter asks for its listing with the batch size as the
    limit, so with a positive --batch-size one run processes at most that many
    transcripts, all of them transcripts of the response, however many the
    account has. *)
Theorem X28_graphql_run_processes_at_most_one_batch
    (a : GraphqlMain.args) (batch_size : Z) (start_date end_date : date_option)
    (r : response) (e : GraphqlMain.env) (processed : list string) (n : nat) :
  0 < batch_size ->
  let order := processing_order
                 (events (main_from_response a batch_size start_date end_date r e
                            processed) n) in
  Z.of_nat (length order) <= batch_size /\
  order `sublist_of` omap truthy_id (listed_in r).
Proof.
  intros Hpos order. subst order. unfold main_from_response. cbv zeta.
  rewrite graphql_main_order.
  set (ids := fetch_transcripts_graphql r start_date end_date batch_size).
  assert (Hsub : result (GraphqlMain.handle_resume a
                           (GraphqlMain.unprocessed a processed ids)) n
                 `sublist_of` ids).
  { transitivity (GraphqlMain.unprocessed a processed ids).
    - apply GraphqlRun.suffix_sublist, RestRun.graphql_resume_suffix.
    - unfold GraphqlMain.unprocessed. apply sublist_filter. }
  destruct (GraphqlListingFacts.fetch_transcripts_graphql_kept
              r start_date end_date batch_size) as (kept & Hids & Hkept).
  fold ids in Hids. split.
  - apply sublist_length in Hsub.
    pose proof (GraphqlListingFacts.omap_length_le truthy_id
                  (apply_limit batch_size kept)).
    pose proof (GraphqlListingFacts.apply_limit_length batch_size kept Hpos).
    pose proof (f_equal length Hids) as Hlen. lia.
  - etransitivity; [exact Hsub|]. rewrite Hids.
    apply GraphqlListingFacts.omap_sublist.
    etransitivity; [apply GraphqlListingFacts.apply_limit_sublist|done].
Qed.

Lemma X28_graphql_run_processes_at_most_one_batch_witness :
  let order := processing_order
                 (events (main_from_response demo_graphql_args 2 NoDate NoDate
                            (Data [Listed (Some "a") None; Listed (Some "b") None;
                                   Listed (Some "c") None])
                            demo_graphql_env []) 0) in
  Z.of_nat (length order) <= 2.
Proof.
  intros order.
  apply (X28_graphql_run_processes_at_most_one_batch
           demo_graphql_args 2 NoDate NoDate
           (Data [Listed (Some "a") None; Listed (Some "b") None;
                  Listed (Some "c") None])
           demo_graphql_env [] 0).
  lia.
Defined.

End GraphqlProgram.
